(** * Circuit simplifier: three-coloring pass and subcircuit database loader

    A shallow embedding of two pieces of the simplifier:
    - the [ThreeColoring] constructor, which walks the gates of a circuit
      and paints each with up to two parent triples;
    - [CircuitDB::read_db] (circuits_db.hpp), which loads the table of
      optimal subcircuits from a whitespace-delimited text file.

    Gate and color identifiers are [size_t] in the source; they are modelled
    as [N] with the sentinel [SIZE_MAX] written out.  [std::vector] is a
    [list], [std::map] a [gmap].  Range-checked accesses ([.at]) and the
    [std::exit] call of the constructor are kept as explicit outcomes. *)

From stdpp Require Import gmap list sorting strings pretty.

Local Open Scope N_scope.

(** ** Basic types *)

Abbreviation GateId := N (only parsing).
Abbreviation ColorId := N (only parsing).
Abbreviation GateIdContainer := (list N) (only parsing).

Definition SIZE_MAX : N := 18446744073709551615.
Definition SIZE_MOD : N := 18446744073709551616.

(** Modelled from the spec: the header csat_types.hpp is absent; the closed
    set of gate types is the one listed in the data model. *)
Inductive GateType :=
  | INPUT | NOT | AND | OR | NAND | NOR | XOR | XNOR
  | BUFF | IFF | MUX | CONST_FALSE | CONST_TRUE.

#[global] Instance GateType_eq_dec : EqDecision GateType.
Proof. solve_decision. Defined.

(** The part of the [ICircuit] interface the constructor calls. *)
Record ICircuit := {
  getNumberOfGates : N;
  getGateOperands : GateId → GateIdContainer;
  getGateType : GateId → GateType
}.

(** ** Outcomes of running code that may throw or exit *)

Inductive Outcome (A : Type) :=
  | Done (a : A)             (* normal completion *)
  | OutOfRange               (* std::out_of_range thrown by [.at] *)
  | Exit (gateId : GateId).  (* message on std::cerr naming the gate, then std::exit(-1) *)
Arguments Done {A} a.
Arguments OutOfRange {A}.
Arguments Exit {A} gateId.

#[global] Instance Outcome_bind : MBind Outcome := λ A B f m,
  match m with
  | Done a => f a
  | OutOfRange => OutOfRange
  | Exit g => Exit g
  end.

(** A range-based [for] whose body may throw. *)
Fixpoint foldM {A B} (f : A → B → Outcome A) (a : A) (l : list B) : Outcome A :=
  match l with
  | [] => Done a
  | x :: l' => a' ← f a x; foldM f a' l'
  end.

(** [v.at(i)]: the index is compared with the size before anything is read. *)
Definition vec_at {A} (v : list A) (i : N) : Outcome A :=
  if i <? N.of_nat (length v) then
    match v !! N.to_nat i with
    | Some x => Done x
    | None => OutOfRange
    end
  else OutOfRange.

(** [v[i] = x] for an index already known to be in range. *)
Definition vec_set {A} (v : list A) (i : N) (x : A) : list A :=
  <[N.to_nat i := x]> v.

(** [m[k]] of [std::map]: a missing key is inserted with a value-initialised
    entry, and a reference to the entry is returned. *)
Definition map_subscript (m : gmap (list GateId) ColorId) (k : list GateId)
  : gmap (list GateId) ColorId * ColorId :=
  match m !! k with
  | Some c => (m, c)
  | None => (<[k := 0]> m, 0)
  end.

(** ** Colors *)

Module TwoColor.
(** Modelled from the spec: two_coloring.hpp is absent.  A TwoColor is a
    pair of parent gate ids plus the gates painted with it; [hasParent]
    tests whether a gate is one of the two parents. *)
Record t := mk {
  first_parent : GateId;
  second_parent : GateId;
  gates_ : GateIdContainer
}.

Definition hasParent (c : t) (gateId : GateId) : bool :=
  (first_parent c =? gateId) || (second_parent c =? gateId).
End TwoColor.

Module TwoColoring.
(** Modelled from the spec: the result of the two-coloring pass is a dense
    table of TwoColor records and a per-gate ColorId, [SIZE_MAX] meaning
    that the gate has no color. *)
Record t := mk {
  colors : list TwoColor.t;
  gateColor : list ColorId
}.
End TwoColoring.

Module ThreeColor.
Record t := mk {
  first_parent : GateId;
  second_parent : GateId;
  third_parent : GateId;
  gates_ : GateIdContainer
}.

(** [std::sort] on the three parents. *)
Definition sortedParents (parent_one parent_two parent_three : GateId) : GateIdContainer :=
  merge_sort N.le [parent_one; parent_two; parent_three].

(** The constructor [ThreeColor(parent_one, parent_two, parent_three)]. *)
Definition new (parent_one parent_two parent_three : GateId) : t :=
  let parents := sortedParents parent_one parent_two parent_three in
  {| first_parent := parents !!! 0%nat;
     second_parent := parents !!! 1%nat;
     third_parent := parents !!! 2%nat;
     gates_ := [] |}.

Definition addGate (c : t) (gateId : GateId) : t :=
  {| first_parent := first_parent c;
     second_parent := second_parent c;
     third_parent := third_parent c;
     gates_ := gates_ c ++ [gateId] |}.

Definition getGates (c : t) : GateIdContainer := gates_ c.

Definition getParents (c : t) : GateIdContainer :=
  [first_parent c; second_parent c; third_parent c].

Definition hasParent (c : t) (gateId : GateId) : bool :=
  (first_parent c =? gateId) || (second_parent c =? gateId) || (third_parent c =? gateId).
End ThreeColor.

(** ** The ThreeColoring object *)

Record ThreeColoring := mkThreeColoring {
  colors : list ThreeColor.t;
  gateColors : list (list ColorId);
  parentsToColor : gmap (list GateId) ColorId;
  negationUsers : GateIdContainer;
  next_color_id_ : ColorId
}.

Definition getColorsNumber (st : ThreeColoring) : N := next_color_id_ st.

(** [addColor]: returns the new color id; [next_color_id_++] is a [size_t]
    increment. *)
Definition addColor (st : ThreeColoring) (first_parent second_parent third_parent : GateId)
  : ThreeColoring * ColorId :=
  let sortedParents := ThreeColor.sortedParents first_parent second_parent third_parent in
  ({| colors := colors st ++ [ThreeColor.new first_parent second_parent third_parent];
      gateColors := gateColors st;
      parentsToColor := <[sortedParents := next_color_id_ st]> (parentsToColor st);
      negationUsers := negationUsers st;
      next_color_id_ := (next_color_id_ st + 1) mod SIZE_MOD |},
   next_color_id_ st).

Definition paintGate (st : ThreeColoring) (gateId : GateId) (colorId : ColorId)
  : Outcome ThreeColoring :=
  c ← vec_at (colors st) colorId;
  gc ← vec_at (gateColors st) gateId;
  Done {| colors := vec_set (colors st) colorId (ThreeColor.addGate c gateId);
          gateColors := vec_set (gateColors st) gateId (gc ++ [colorId]);
          parentsToColor := parentsToColor st;
          negationUsers := negationUsers st;
          next_color_id_ := next_color_id_ st |}.

(** The block the constructor repeats for every synthesised triple (source
    lines 236-241, 273-278, 339-344, 348-353, 357-369 and 388-392):
<<
    GateIdContainer color_parents = ThreeColor::sortedParents(a, b, c);
    if (parentsToColor.find(color_parents) == parentsToColor.end())
        addColor(color_parents[0], color_parents[1], color_parents[2]);
    paintGate(gateId, parentsToColor[color_parents]);
>> *)
Definition paintTriple (st : ThreeColoring) (gateId : GateId) (a b c : GateId)
  : Outcome ThreeColoring :=
  let color_parents := ThreeColor.sortedParents a b c in
  let st1 :=
    match parentsToColor st !! color_parents with
    | None => fst (addColor st (color_parents !!! 0%nat) (color_parents !!! 1%nat)
                               (color_parents !!! 2%nat))
    | Some _ => st
    end in
  let '(m, colorId) := map_subscript (parentsToColor st1) color_parents in
  paintGate {| colors := colors st1;
               gateColors := gateColors st1;
               parentsToColor := m;
               negationUsers := negationUsers st1;
               next_color_id_ := next_color_id_ st1 |} gateId colorId.

(** The scan with [break] used for the 3-2 and 2-3 patterns (source lines
    220-228, 257-265, 293-301 and 314-322): the first color of the list whose
    triple contains both parents, [SIZE_MAX] if none. *)
Fixpoint scanParents (st : ThreeColoring) (parent_1 parent_2 : GateId) (cs : list ColorId)
  : Outcome ColorId :=
  match cs with
  | [] => Done SIZE_MAX
  | child_color :: cs' =>
      col ← vec_at (colors st) child_color;
      if ThreeColor.hasParent col parent_1 && ThreeColor.hasParent col parent_2
      then Done child_color
      else scanParents st parent_1 parent_2 cs'
  end.

(** The double loop over the colors of the two children (source lines
    165-187).  The accumulator is (common_colors, color_type_13,
    color_type_31); the inner range [gateColors.at(child_2)] is evaluated
    once per iteration of the outer loop. *)
Definition scanInner (st : ThreeColoring) (child_1 : GateId) (first_child_color : ColorId)
    (acc : list ColorId * ColorId) (second_child_color : ColorId)
  : Outcome (list ColorId * ColorId) :=
  let '(common_colors, color_type_13) := acc in
  if first_child_color =? second_child_color then
    Done (common_colors ++ [first_child_color], color_type_13)
  else
    col ← vec_at (colors st) second_child_color;
    if ThreeColor.hasParent col child_1
    then Done (common_colors, second_child_color)
    else Done (common_colors, color_type_13).

Definition scanOuter (st : ThreeColoring) (child_1 child_2 : GateId)
    (acc : list ColorId * ColorId * ColorId) (first_child_color : ColorId)
  : Outcome (list ColorId * ColorId * ColorId) :=
  let '(common_colors, color_type_13, color_type_31) := acc in
  second_colors ← vec_at (gateColors st) child_2;
  '(common_colors, color_type_13) ←
     foldM (scanInner st child_1 first_child_color) (common_colors, color_type_13) second_colors;
  col ← vec_at (colors st) first_child_color;
  if ThreeColor.hasParent col child_2
  then Done (common_colors, color_type_13, first_child_color)
  else Done (common_colors, color_type_13, color_type_31).

Definition scanChildren (st : ThreeColoring) (child_1 child_2 : GateId)
  : Outcome (list ColorId * ColorId * ColorId) :=
  first_colors ← vec_at (gateColors st) child_1;
  foldM (scanOuter st child_1 child_2) ([], SIZE_MAX, SIZE_MAX) first_colors.

(** ** The constructor *)

Section Constructor.
Variable circuit : ICircuit.
(** [TwoColoring(circuit)], computed before the loop starts. *)
Variable twoColoring : TwoColoring.t.

(** The secondary scan of the 3-1 branch (source lines 213-243) and, with
    the children swapped, of the 1-3 branch (lines 250-280):
    [own_two_color] is the TwoColor of the child whose id was found in a
    triple of the other child, [other] is that other child. *)
Definition secondColor (st : ThreeColoring) (gateId : GateId)
    (own_two_color : ColorId) (other : GateId) : Outcome ThreeColoring :=
  if negb (own_two_color =? SIZE_MAX) then
    tc ← vec_at (TwoColoring.colors twoColoring) own_two_color;
    let parent_1 := TwoColor.first_parent tc in
    let parent_2 := TwoColor.second_parent tc in
    other_colors ← vec_at (gateColors st) other;
    color_type ← scanParents st parent_1 parent_2 other_colors;
    if negb (color_type =? SIZE_MAX) then
      paintGate st gateId color_type
    else
      paintTriple st gateId parent_1 parent_2 other
  else Done st.

(** The single 3-2 / 2-3 check (source lines 288-301 and 309-322):
    [two_color] is the TwoColor of one child, [other] the other child whose
    ThreeColors are scanned. *)
Definition singlePattern (st : ThreeColoring) (two_color : ColorId) (other : GateId)
  : Outcome ColorId :=
  if negb (two_color =? SIZE_MAX) then
    tc ← vec_at (TwoColoring.colors twoColoring) two_color;
    other_colors ← vec_at (gateColors st) other;
    scanParents st (TwoColor.first_parent tc) (TwoColor.second_parent tc) other_colors
  else Done SIZE_MAX.

(** The 2-2 pattern (source lines 331-372). *)
Definition pattern22 (st : ThreeColoring) (gateId child_1 child_2 : GateId)
    (first_child_two_color second_child_two_color : ColorId) : Outcome ThreeColoring :=
  tc1 ← vec_at (TwoColoring.colors twoColoring) first_child_two_color;
  tc2 ← vec_at (TwoColoring.colors twoColoring) second_child_two_color;
  let parent_1 := TwoColor.first_parent tc1 in
  let parent_2 := TwoColor.second_parent tc1 in
  let parent_3 := TwoColor.first_parent tc2 in
  let parent_4 := TwoColor.second_parent tc2 in
  if TwoColor.hasParent tc2 parent_1 then
    paintTriple st gateId parent_2 parent_3 parent_4
  else if TwoColor.hasParent tc2 parent_2 then
    paintTriple st gateId parent_1 parent_3 parent_4
  else
    st ← paintTriple st gateId parent_1 parent_2 child_2;
    paintTriple st gateId parent_3 parent_4 child_1.

(** The last block of the loop body (source lines 374-392): exactly one
    child has a TwoColor. *)
Definition fallback (st : ThreeColoring) (gateId child_1 child_2 : GateId)
    (first_child_two_color second_child_two_color : ColorId) : Outcome ThreeColoring :=
  if negb (first_child_two_color =? SIZE_MAX) then
    tc ← vec_at (TwoColoring.colors twoColoring) first_child_two_color;
    paintTriple st gateId (TwoColor.first_parent tc) (TwoColor.second_parent tc) child_2
  else
    tc ← vec_at (TwoColoring.colors twoColoring) second_child_two_color;
    paintTriple st gateId (TwoColor.first_parent tc) (TwoColor.second_parent tc) child_1.

(** The part of the loop body that follows the search for children
    patterns (source lines 189-392); every [continue] ends the iteration. *)
Definition paintByPattern (st : ThreeColoring) (gateId child_1 child_2 : GateId)
    (common_colors : list ColorId) (color_type_13 color_type_31 : ColorId)
  : Outcome ThreeColoring :=
  if (length common_colors =? 2)%nat then
    st ← paintGate st gateId (common_colors !!! 0%nat);
    paintGate st gateId (common_colors !!! 1%nat)
  else if (length common_colors =? 1)%nat then
    st ← paintGate st gateId (common_colors !!! 0%nat);
    if negb (color_type_13 =? SIZE_MAX) then paintGate st gateId color_type_13
    else if negb (color_type_31 =? SIZE_MAX) then paintGate st gateId color_type_31
    else Done st
  else if negb (color_type_13 =? SIZE_MAX) then
    st ← paintGate st gateId color_type_13;
    first_child_two_color ← vec_at (TwoColoring.gateColor twoColoring) child_1;
    secondColor st gateId first_child_two_color child_2
  else if negb (color_type_31 =? SIZE_MAX) then
    st ← paintGate st gateId color_type_31;
    second_child_two_color ← vec_at (TwoColoring.gateColor twoColoring) child_2;
    secondColor st gateId second_child_two_color child_1
  else
    (* Check for single 3-2 or 2-3 pattern *)
    first_child_two_color ← vec_at (TwoColoring.gateColor twoColoring) child_1;
    second_child_two_color ← vec_at (TwoColoring.gateColor twoColoring) child_2;
    color_type_32 ← singlePattern st second_child_two_color child_1;
    if negb (color_type_32 =? SIZE_MAX) then paintGate st gateId color_type_32
    else
      color_type_23 ← singlePattern st first_child_two_color child_2;
      if negb (color_type_23 =? SIZE_MAX) then paintGate st gateId color_type_23
      else if negb (first_child_two_color =? SIZE_MAX)
              && negb (second_child_two_color =? SIZE_MAX) then
        pattern22 st gateId child_1 child_2 first_child_two_color second_child_two_color
      else
        fallback st gateId child_1 child_2 first_child_two_color second_child_two_color.

(** A gate with exactly two operands (source lines 149-392). *)
Definition processBinary (st : ThreeColoring) (gateId : GateId) : Outcome ThreeColoring :=
  two_color ← vec_at (TwoColoring.gateColor twoColoring) gateId;
  (* If gate doesn't have TwoColor, it won't have ThreeColor *)
  if two_color =? SIZE_MAX then Done st
  else
    tc ← vec_at (TwoColoring.colors twoColoring) two_color;
    let child_1 := TwoColor.first_parent tc in
    let child_2 := TwoColor.second_parent tc in
    child_1_two_color ← vec_at (TwoColoring.gateColor twoColoring) child_1;
    no_parents ←
      (if child_1_two_color =? SIZE_MAX then
         child_2_two_color ← vec_at (TwoColoring.gateColor twoColoring) child_2;
         Done (child_2_two_color =? SIZE_MAX)
       else Done false);
    if no_parents : bool then Done st
    else
      '(common_colors, color_type_13, color_type_31) ← scanChildren st child_1 child_2;
      paintByPattern st gateId child_1 child_2 common_colors color_type_13 color_type_31.

(** A gate with exactly one operand (source lines 127-140). *)
Definition processUnary (st : ThreeColoring) (gateId operand : GateId)
  : Outcome ThreeColoring :=
  operand_colors ← vec_at (gateColors st) operand;
  st ← foldM (λ st color, paintGate st gateId color) st operand_colors;
  if decide (getGateType circuit gateId = NOT) then
    _ ← vec_at (negationUsers st) operand;
    Done {| colors := colors st;
            gateColors := gateColors st;
            parentsToColor := parentsToColor st;
            negationUsers := vec_set (negationUsers st) operand gateId;
            next_color_id_ := next_color_id_ st |}
  else Done st.

(** One iteration of the loop over the reversed sorting (source lines
    117-393). *)
Definition processGate (st : ThreeColoring) (gateId : GateId) : Outcome ThreeColoring :=
  match getGateOperands circuit gateId with
  | [] => Done st                              (* operands.empty() *)
  | [operand] => processUnary st gateId operand    (* operands.size() == 1 *)
  | [_; _] => processBinary st gateId
  | _ => Exit gateId                           (* operands.size() > 2 *)
  end.

(** The object before the loop: both tables resized to the circuit size. *)
Definition initial : ThreeColoring :=
  {| colors := [];
     gateColors := replicate (N.to_nat (getNumberOfGates circuit)) [];
     parentsToColor := ∅;
     negationUsers := replicate (N.to_nat (getNumberOfGates circuit)) SIZE_MAX;
     next_color_id_ := 0 |}.

(** [ThreeColoring(circuit)]; [gate_sorting] is the result of the
    topological sort, walked in reverse. *)
Definition construct (gate_sorting : GateIdContainer) : Outcome ThreeColoring :=
  foldM processGate initial (reverse gate_sorting).
End Constructor.

(** * The subcircuit database loader

    The database file is read with [operator>>], field by field.  The model
    starts after lexing: the file is the list of its whitespace-delimited
    fields, each a decimal number or a word.  The stream keeps its fail bit;
    once it is set every extraction is a no-op that leaves its target
    untouched, as for [std::ifstream]. *)

Local Open Scope Z_scope.

Inductive token :=
  | TNum (z : Z)        (* a decimal integer literal *)
  | TWord (s : string). (* any other field, e.g. an operator name *)

Record istream := mkStream {
  tokens : list token;
  failbit : bool
}.

Definition INT32_MAX : Z := 2147483647.
Definition INT32_MIN : Z := -2147483648.

(** [database >> x] for [size_t x].  At end of file the target is left as
    it was; a field that is not a number stores 0; a number too large stores
    the largest value; all three set the fail bit.  A negative literal is
    negated in unsigned arithmetic. *)
Definition read_size_t (database : istream) (x : N) : N * istream :=
  if failbit database then (x, database)
  else
    match tokens database with
    | [] => (x, mkStream [] true)
    | TNum z :: rest =>
        if (0 <=? z) && (z <=? Z.of_N SIZE_MAX) then (Z.to_N z, mkStream rest false)
        else if (z <? 0) && (- Z.of_N SIZE_MAX <=? z) then
          (Z.to_N (Z.of_N SIZE_MOD + z), mkStream rest false)
        else (SIZE_MAX, mkStream rest true)
    | TWord _ :: _ => (0%N, mkStream (tokens database) true)
    end.

(** [database >> x] for [int32_t x]; out-of-range literals saturate. *)
Definition read_int32 (database : istream) (x : Z) : Z * istream :=
  if failbit database then (x, database)
  else
    match tokens database with
    | [] => (x, mkStream [] true)
    | TNum z :: rest =>
        if (INT32_MIN <=? z) && (z <=? INT32_MAX) then (z, mkStream rest false)
        else if INT32_MAX <? z then (INT32_MAX, mkStream rest true)
        else (INT32_MIN, mkStream rest true)
    | TWord _ :: _ => (0, mkStream (tokens database) true)
    end.

(** [database >> x] for [std::string x]: any field is a string. *)
Definition read_string (database : istream) (x : string) : string * istream :=
  if failbit database then (x, database)
  else
    match tokens database with
    | [] => (x, mkStream [] true)
    | TNum z :: rest => (pretty z, mkStream rest false)
    | TWord w :: rest => (w, mkStream rest false)
    end.

Record CircuitDB := mkCircuitDB {
  subcircuit_pattern_to_index : gmap (list Z) Z;
  subcircuit_outputs : list (list N);
  gates_operands : list (list (list N));
  OPER_number : list Z;
  gates_operations : list (list GateType)
}.

Definition emptyDB : CircuitDB :=
  {| subcircuit_pattern_to_index := ∅;
     subcircuit_outputs := [];
     gates_operands := [];
     OPER_number := [];
     gates_operations := [] |}.

(** [for (i = 0; i < outputs_number; ++i) database >> outputs_patterns[i];]
    on a vector created with [outputs_number] zeros. *)
Fixpoint read_patterns (outputs_number : nat) (database : istream)
  : list Z * istream :=
  match outputs_number with
  | O => ([], database)
  | S k =>
      let '(pattern, database) := read_int32 database 0 in
      let '(patterns, database) := read_patterns k database in
      (pattern :: patterns, database)
  end.

(** The loop that reads the output indices and determines their maximum. *)
Fixpoint read_outputs (outputs_number : nat) (database : istream) (max_index : N)
  : list N * N * istream :=
  match outputs_number with
  | O => ([], max_index, database)
  | S k =>
      let '(output, database) := read_size_t database 0%N in
      let max_index := N.max max_index output in
      let '(outputs, max_index, database) := read_outputs k database max_index in
      (output :: outputs, max_index, database)
  end.

Section ReadDB.
(** [csat::utils::stringToGateType] of converters.hpp, which is absent. *)
Variable stringToGateType : string → GateType.

(** [v[subcircuit_index].push_back(x)] *)
Definition push_back_at {A} (v : list (list A)) (subcircuit_index : Z) (x : A)
  : list (list A) :=
  alter (λ l, l ++ [x]) (Z.to_nat subcircuit_index) v.

(** The loop [for (size_t i = inputs_number; i <= max_index; ++i)].  It has
    no bound of its own ([max_index] grows with the operands read), hence
    the fuel; [None] means that the fuel ran out.  The result carries the
    final [max_index]. *)
Fixpoint parse_gates (fuel : nat) (i max_index : N) (database : istream)
    (db : CircuitDB) (subcircuit_index : Z) : option (CircuitDB * N * istream) :=
  match fuel with
  | O => None
  | S fuel =>
      if (i <=? max_index)%N then
        let '(operation, database) := read_string database "" in
        let operations :=
          push_back_at (gates_operations db) subcircuit_index (stringToGateType operation) in
        let '(operand_1, database) := read_size_t database 0%N in
        let max_index := N.max max_index operand_1 in
        if negb (String.eqb operation "NOT") then
          let '(operand_2, database) := read_size_t database 0%N in
          let max_index := N.max max_index operand_2 in
          parse_gates fuel ((i + 1) mod SIZE_MOD)%N max_index database
            {| subcircuit_pattern_to_index := subcircuit_pattern_to_index db;
               subcircuit_outputs := subcircuit_outputs db;
               gates_operands :=
                 push_back_at (gates_operands db) subcircuit_index [operand_1; operand_2];
               OPER_number := alter Z.succ (Z.to_nat subcircuit_index) (OPER_number db);
               gates_operations := operations |}
            subcircuit_index
        else
          parse_gates fuel ((i + 1) mod SIZE_MOD)%N max_index database
            {| subcircuit_pattern_to_index := subcircuit_pattern_to_index db;
               subcircuit_outputs := subcircuit_outputs db;
               gates_operands := push_back_at (gates_operands db) subcircuit_index [operand_1];
               OPER_number := OPER_number db;
               gates_operations := operations |}
            subcircuit_index
      else Some (db, max_index, database)
  end.

(** The body of the [while] loop, after [inputs_number] has been read
    (circuits_db.hpp, lines 76-128).  Failure to allocate the vectors is
    outside the model. *)
Definition read_record (fuel : nat) (database : istream) (db : CircuitDB)
    (subcircuit_index : Z) (inputs_number : N) : option (CircuitDB * N * istream) :=
  let '(outputs_number, database) := read_size_t database 0%N in
  (* Read the output codes *)
  let '(outputs_patterns, database) := read_patterns (N.to_nat outputs_number) database in
  let pattern_to_index :=
    <[outputs_patterns := subcircuit_index]> (subcircuit_pattern_to_index db) in
  (* Read the output indices and determine their maximum index *)
  let '(cur_outputs, max_index, database) :=
    read_outputs (N.to_nat outputs_number) database 0%N in
  (* Parse gates *)
  parse_gates fuel inputs_number max_index database
    {| subcircuit_pattern_to_index := pattern_to_index;
       subcircuit_outputs := subcircuit_outputs db ++ [cur_outputs];
       gates_operands := gates_operands db ++ [[]];
       OPER_number := OPER_number db ++ [0];
       gates_operations := gates_operations db ++ [[]] |}
    subcircuit_index.

(** [while (database >> inputs_number) { ...; ++subcircuit_index; }]
    (lines 74-130).  [subcircuit_index] is an [int32_t] whose overflow is
    undefined; it is modelled as an integer. *)
Fixpoint read_db_loop (fuel : nat) (database : istream) (db : CircuitDB)
    (subcircuit_index : Z) (inputs_number : N) : option CircuitDB :=
  match fuel with
  | O => None
  | S fuel =>
      let '(inputs_number, database) := read_size_t database inputs_number in
      if failbit database then Some db
      else
        match read_record fuel database db subcircuit_index inputs_number with
        | None => None
        | Some (db, _, database) =>
            read_db_loop fuel database db (subcircuit_index + 1) inputs_number
        end
  end.

(** [read_db] on the fields of the file at [db_path]. *)
Definition read_db (fuel : nat) (file : list token) : option CircuitDB :=
  read_db_loop fuel (mkStream file false) emptyDB 0 0%N.
End ReadDB.

Local Close Scope Z_scope.

(** * The logger

    The streams [std::cout] and [std::cerr] are the text written to them so
    far.  An argument of a logging call is the text [operator<<] inserts for
    it; [std::endl] inserts a newline.  The time is read from the system
    clock: the methods take the result of [std::asctime] as an argument. *)

Inductive LogLevel := DEBUG | INFO | WARNING | ERROR | SILENT.

(** The underlying [uint8_t] of a level. *)
Definition LogLevel_value (l : LogLevel) : N :=
  match l with
  | DEBUG => 10
  | INFO => 20
  | WARNING => 30
  | ERROR => 40
  | SILENT => 255
  end.

Definition CompileLogLevel (ENABLE_DEBUG_LOGGING : bool) : LogLevel :=
  if ENABLE_DEBUG_LOGGING then DEBUG else INFO.

Record ostreams := mkStreams {
  cout : string;
  cerr : string
}.

Definition endl : string := String (Ascii.ascii_of_nat 10) EmptyString.

Fixpoint LOG_OUT (args : list string) (io : ostreams) : ostreams :=
  match args with
  | [] => mkStreams (cout io +:+ endl) (cerr io)
  | t :: args => LOG_OUT args (mkStreams (cout io +:+ t) (cerr io))
  end.

Fixpoint LOG_ERR (args : list string) (io : ostreams) : ostreams :=
  match args with
  | [] => mkStreams (cout io) (cerr io +:+ endl)
  | t :: args => LOG_ERR args (mkStreams (cout io) (cerr io +:+ t))
  end.

Module Logger.

Record t := mk {
  name : string
}.

Definition default : t := mk "Logger".

Definition _getCurrentTime (asctime : string) : string :=
  String.substring 0 24 asctime.

Section Methods.
Variable ENABLE_DEBUG_LOGGING : bool.

(** [level >= CompileLogLevel] *)
Definition enabled (level : LogLevel) : bool :=
  LogLevel_value (CompileLogLevel ENABLE_DEBUG_LOGGING) <=? LogLevel_value level.

Definition debug (self : t) (asctime : string) (t0 : string) (args : list string)
    (io : ostreams) : ostreams :=
  if enabled DEBUG
  then LOG_OUT ("<" :: name self :: ">(" :: _getCurrentTime asctime :: ") DEBUG: "
                  :: t0 :: args) io
  else io.

Definition info (self : t) (asctime : string) (t0 : string) (args : list string)
    (io : ostreams) : ostreams :=
  if enabled INFO
  then LOG_OUT ("<" :: name self :: ">(" :: _getCurrentTime asctime :: ") INFO: "
                  :: t0 :: args) io
  else io.

Definition warning (self : t) (asctime : string) (t0 : string) (args : list string)
    (io : ostreams) : ostreams :=
  if enabled WARNING
  then LOG_OUT ("<" :: name self :: ">(" :: _getCurrentTime asctime :: ") WARNING: "
                  :: t0 :: args) io
  else io.

Definition error (self : t) (asctime : string) (t0 : string) (args : list string)
    (io : ostreams) : ostreams :=
  if enabled ERROR
  then LOG_OUT ("<" :: name self :: ">(" :: _getCurrentTime asctime :: ") ERROR: "
                  :: t0 :: args) io
  else io.

End Methods.
End Logger.

(** * Vocabulary of the statements *)

(** ** Three-coloring *)

(** The invariant of the coloring tables: the counter is the number of
    colors; every key of [parentsToColor] is the parent triple of the color
    it maps to; every color is the image of its own (ascending) triple; and
    every ColorId stored for a gate is an index of [colors]. *)
Record WF (st : ThreeColoring) : Prop := {
  wf_next : next_color_id_ st = N.of_nat (length (colors st));
  wf_map : ∀ k c, parentsToColor st !! k = Some c →
      ∃ col, colors st !! N.to_nat c = Some col ∧ ThreeColor.getParents col = k;
  wf_col : ∀ i col, colors st !! i = Some col →
      parentsToColor st !! ThreeColor.getParents col = Some (N.of_nat i)
      ∧ Sorted N.le (ThreeColor.getParents col);
  wf_gc : ∀ g cs, gateColors st !! g = Some cs →
      Forall (λ c, c < N.of_nat (length (colors st))) cs
}.

(** A run of at most [k] paints of gate [g]: its entry of [gateColors] grew
    by at most [k] ColorIds, no other entry changed, at most [k] colors were
    created, and the invariant is kept while the counter does not wrap. *)
Record Painted (g : N) (k : nat) (st st' : ThreeColoring) : Prop := {
  pt_gc : ∃ cs, (length cs ≤ k)%nat
            ∧ gateColors st' = alter (λ old, old ++ cs) (N.to_nat g) (gateColors st);
  pt_neg : length (negationUsers st') = length (negationUsers st);
  pt_len : (length (colors st) ≤ length (colors st') ≤ length (colors st) + k)%nat;
  pt_wf : WF st → N.of_nat (length (colors st)) + N.of_nat k < SIZE_MOD → WF st'
}.

(** One paint of gate [g] with at most one new color. *)
Record PaintedNew (g : N) (st st' : ThreeColoring) : Prop := {
  pn_gc : ∃ c, gateColors st' = alter (λ old, old ++ [c]) (N.to_nat g) (gateColors st);
  pn_neg : length (negationUsers st') = length (negationUsers st);
  pn_len : (length (colors st) ≤ length (colors st') ≤ length (colors st) + 1)%nat;
  pn_wf : WF st → N.of_nat (length (colors st)) + 1 < SIZE_MOD → WF st'
}.

(** Every gate carries at most two ColorIds. *)
Definition AtMostTwo (st : ThreeColoring) : Prop :=
  ∀ i cs, gateColors st !! i = Some cs → (length cs ≤ 2)%nat.

(** The gates of [l] have not been painted yet. *)
Definition Unpainted (st : ThreeColoring) (l : list N) : Prop :=
  ∀ g cs, g ∈ l → gateColors st !! N.to_nat g = Some cs → cs = [].

(** The tables have one entry per gate, the invariant holds, and [b] more
    colors can be created before [next_color_id_] would wrap. *)
Record Good (n : N) (b : nat) (st : ThreeColoring) : Prop := {
  good_wf : WF st;
  good_gc : length (gateColors st) = N.to_nat n;
  good_neg : length (negationUsers st) = N.to_nat n;
  good_room : N.of_nat (length (colors st)) + N.of_nat b < SIZE_MOD
}.

(** The result of a search for a color: the sentinel or an index of
    [colors]. *)
Definition ColorOrNone (st : ThreeColoring) (c : N) : Prop :=
  c = SIZE_MAX ∨ c < N.of_nat (length (colors st)).

(** What the constructor needs from its input: operand ids are gate ids, and
    the two-coloring has one entry per gate, each either [SIZE_MAX] or the
    index of a TwoColor whose parents are gate ids. *)
Record ValidInput (circuit : ICircuit) (twoColoring : TwoColoring.t) : Prop := {
  valid_operands : ∀ g o,
    g < getNumberOfGates circuit → o ∈ getGateOperands circuit g →
    o < getNumberOfGates circuit;
  valid_two_size :
    length (TwoColoring.gateColor twoColoring) = N.to_nat (getNumberOfGates circuit);
  valid_two_color : ∀ i c,
    TwoColoring.gateColor twoColoring !! i = Some c → c ≠ SIZE_MAX →
    ∃ tc, TwoColoring.colors twoColoring !! N.to_nat c = Some tc
      ∧ TwoColor.first_parent tc < getNumberOfGates circuit
      ∧ TwoColor.second_parent tc < getNumberOfGates circuit
}.

(** A per-gate entry of the two-coloring of a circuit with [n] gates: no
    color, or the index of a TwoColor whose parents are gate ids. *)
Definition TwoOrNone (twoColoring : TwoColoring.t) (n : N) (c : N) : Prop :=
  c = SIZE_MAX
  ∨ ∃ tc, vec_at (TwoColoring.colors twoColoring) c = Done tc
      ∧ TwoColor.first_parent tc < n ∧ TwoColor.second_parent tc < n.

(** The gate ids of a circuit with [n] gates. *)
Definition gateIds (n : N) : list N := N.of_nat <$> seq 0 (N.to_nat n).

(** Gate [g] receives exactly one more color, the color of the triple
    (a, b, c): the triple's key maps to it, its parents are the sorted
    triple, [g] is the last gate recorded for it, and it is appended to the
    colors of [g].  The color is created, with the next free index, only when
    the key was absent; otherwise neither [parentsToColor] nor the number of
    colors changes. *)
Definition PaintedWithTriple (g a b c : N) (st st' : ThreeColoring) : Prop :=
  let key := ThreeColor.sortedParents a b c in
  ∃ colorId col,
    parentsToColor st' !! key = Some colorId
    ∧ colors st' !! N.to_nat colorId = Some col
    ∧ ThreeColor.getParents col = key
    ∧ (∃ gates, ThreeColor.gates_ col = gates ++ [g])
    ∧ gateColors st' = alter (λ old, old ++ [colorId]) (N.to_nat g) (gateColors st)
    ∧ match parentsToColor st !! key with
      | Some _ =>
          parentsToColor st' = parentsToColor st
          ∧ length (colors st') = length (colors st)
          ∧ next_color_id_ st' = next_color_id_ st
      | None =>
          parentsToColor st' = <[key := colorId]> (parentsToColor st)
          ∧ colorId = N.of_nat (length (colors st))
          ∧ colors st' = colors st ++ [ThreeColor.addGate (ThreeColor.new a b c) g]
          ∧ next_color_id_ st' = N.of_nat (length (colors st)) + 1
      end.

(** ** A small circuit used to exercise the statements

    Gates 0..2 are inputs, 3 = AND(0,1), 4 = AND(1,2), 5 = AND(3,4),
    6 = NOT(5), 7 = AND(5,6).  The sorting lists users before operands, so
    that its reverse walks operands first. *)

Definition example_operands (g : N) : list N :=
  match g with
  | 3 => [0; 1] | 4 => [1; 2] | 5 => [3; 4] | 6 => [5] | 7 => [5; 6]
  | _ => []
  end.

Definition example_type (g : N) : GateType :=
  if g <? 3 then INPUT else if g =? 6 then NOT else AND.

Definition example_circuit : ICircuit :=
  {| getNumberOfGates := 8;
     getGateOperands := example_operands;
     getGateType := example_type |}.

Definition example_twoColoring : TwoColoring.t :=
  {| TwoColoring.colors :=
       [TwoColor.mk 0 1 [3]; TwoColor.mk 1 2 [4]; TwoColor.mk 3 4 [5; 7]];
     TwoColoring.gateColor := [SIZE_MAX; SIZE_MAX; SIZE_MAX; 0; 1; 2; SIZE_MAX; 2] |}.

Definition example_sorting : list N := [7; 6; 5; 4; 3; 2; 1; 0].

(** The object the constructor builds for the example. *)
Definition example_result : ThreeColoring :=
  {| colors := [ThreeColor.mk 0 1 2 [5; 6; 7]];
     gateColors := [[]; []; []; []; []; [0]; [0]; [0]];
     parentsToColor := {[ [0; 1; 2] := 0 ]};
     negationUsers := [SIZE_MAX; SIZE_MAX; SIZE_MAX; SIZE_MAX; SIZE_MAX; 6; SIZE_MAX; SIZE_MAX];
     next_color_id_ := 1 |}.

(** The state of the example when gate 6 = NOT(5) is reached. *)
Definition example_before_6 : ThreeColoring :=
  {| colors := [ThreeColor.mk 0 1 2 [5]];
     gateColors := [[]; []; []; []; []; [0]; []; []];
     parentsToColor := {[ [0; 1; 2] := 0 ]};
     negationUsers := replicate 8 SIZE_MAX;
     next_color_id_ := 1 |}.

(** ** Database files *)

Local Open Scope Z_scope.

(** The largest id of a list, 0 for the empty list. *)
Definition max_id (l : list N) : N := foldr N.max 0%N l.

Record gate_description := mkGate {
  gate_operation : string;
  gate_operand_ids : list N
}.

Record db_record := mkRecord {
  rec_inputs : N;
  rec_patterns : list Z;
  rec_outputs : list N;
  rec_gates : list gate_description
}.

Definition num (n : N) : token := TNum (Z.of_N n).

Definition gate_fields (g : gate_description) : list token :=
  TWord (gate_operation g) :: (num <$> gate_operand_ids g).

(** The fields of one record, in the order of the format: number of inputs,
    number of outputs, the output codes, the output ids, the gates. *)
Definition record_fields (r : db_record) : list token :=
  num (rec_inputs r) :: TNum (Z.of_nat (length (rec_outputs r)))
    :: (TNum <$> rec_patterns r) ++ (num <$> rec_outputs r)
    ++ concat (gate_fields <$> rec_gates r).

Definition file_fields (rs : list db_record) : list token :=
  concat (record_fields <$> rs).

(** NOT takes one operand, every other operator two. *)
Definition wf_gate (g : gate_description) : Prop :=
  Forall (λ o, (o < SIZE_MAX)%N) (gate_operand_ids g)
  ∧ length (gate_operand_ids g) = (if String.eqb (gate_operation g) "NOT" then 1 else 2)%nat.

(** The record lists exactly the gates the loader asks for: one for each id
    from [i] up to the largest id seen so far, operands included. *)
Fixpoint gates_closed (i m : N) (gs : list gate_description) : Prop :=
  match gs with
  | [] => (m < i)%N
  | g :: gs' =>
      (i ≤ m)%N ∧ gates_closed (i + 1)%N (N.max m (max_id (gate_operand_ids g))) gs'
  end.

Record wf_record (r : db_record) : Prop := {
  wf_inputs : (rec_inputs r ≤ SIZE_MAX)%N;
  wf_count : length (rec_patterns r) = length (rec_outputs r);
  wf_outputs_number : (N.of_nat (length (rec_outputs r)) ≤ SIZE_MAX)%N;
  wf_patterns : Forall (λ z, INT32_MIN ≤ z ≤ INT32_MAX) (rec_patterns r);
  wf_outputs : Forall (λ o, (o < SIZE_MAX)%N) (rec_outputs r);
  wf_gates : Forall wf_gate (rec_gates r);
  wf_closed : gates_closed (rec_inputs r) (max_id (rec_outputs r)) (rec_gates r)
}.

(** The map after the records [rs], numbered from [idx], have been read. *)
Fixpoint insert_keys (rs : list db_record) (idx : Z) (m : gmap (list Z) Z)
  : gmap (list Z) Z :=
  match rs with
  | [] => m
  | r :: rs' => insert_keys rs' (idx + 1) (<[rec_patterns r := idx]> m)
  end.

(** A converter for the examples (converters.hpp is absent): the names of the
    basic gate types; any other word is read as BUFF. *)
Definition basicGateType (s : string) : GateType :=
  if String.eqb s "NOT" then NOT
  else if String.eqb s "AND" then AND
  else if String.eqb s "OR" then OR
  else if String.eqb s "NAND" then NAND
  else if String.eqb s "NOR" then NOR
  else if String.eqb s "XOR" then XOR
  else if String.eqb s "XNOR" then XNOR
  else BUFF.

(** x0 AND x1 as one gate, and again as NOT (x0 NAND x1). *)
Definition record_and : db_record :=
  mkRecord 2 [8] [2%N] [mkGate "AND" [0%N; 1%N]].

Definition record_nand_not : db_record :=
  mkRecord 2 [8] [3%N] [mkGate "NAND" [0%N; 1%N]; mkGate "NOT" [2%N]].

(** Two outputs, OR listed before AND: the output codes are 14, 8. *)
Definition record_or_and : db_record :=
  mkRecord 2 [14; 8] [3%N; 2%N] [mkGate "AND" [0%N; 1%N]; mkGate "OR" [0%N; 1%N]].

(** One output, gate 2, whose second operand is the later gate 3. *)
Definition forward_file : list token :=
  [TNum 2; TNum 1; TNum 8; TNum 2;
   TWord "AND"; TNum 0; TNum 3; TWord "AND"; TNum 0; TNum 1].

(** ** Vocabulary of the further properties of the loader *)

(** The number of two-operand descriptions in a list of operand lists. *)
Definition binary_count (gates : list (list N)) : Z :=
  Z.of_nat (length (filter (λ operands, length operands = 2%nat) gates)).

(** The tables after [idx] records: one entry per record in each vector;
    every value of the map is the index of a record whose number of outputs
    is the length of the key; every gate description has one or two
    operands, one operation, and [OPER_number] counts the two-operand ones. *)
Record DBInv (db : CircuitDB) (idx : Z) : Prop := {
  inv_outputs : length (subcircuit_outputs db) = Z.to_nat idx;
  inv_operands : length (gates_operands db) = Z.to_nat idx;
  inv_oper : length (OPER_number db) = Z.to_nat idx;
  inv_operations : length (gates_operations db) = Z.to_nat idx;
  inv_map : ∀ key i, subcircuit_pattern_to_index db !! key = Some i →
      0 ≤ i < idx
      ∧ ∃ outputs, subcircuit_outputs db !! Z.to_nat i = Some outputs
          ∧ length outputs = length key;
  inv_gates : ∀ k gates, gates_operands db !! k = Some gates →
      Forall (λ operands, length operands = 1%nat ∨ length operands = 2%nat) gates
      ∧ (∃ operations, gates_operations db !! k = Some operations
           ∧ length operations = length gates)
      ∧ OPER_number db !! k = Some (binary_count gates)
}.

(** A field with which a number can begin: its first character is a digit
    or a sign.  From such a field, say 2x, [operator>>] takes the number and
    leaves the rest in the stream. *)
Definition begins_number (w : string) : bool :=
  match w with
  | EmptyString => false
  | String c _ =>
      let n := Ascii.nat_of_ascii c in
      ((48 <=? n) && (n <=? 57) || (n =? 43) || (n =? 45))%nat
  end.

(** Fields at which the loader stops without reporting anything: the end of
    the file, or, where the number of inputs is expected, a word with which
    no number can begin. *)
Definition stops_loading (fields : list token) : Prop :=
  match fields with
  | [] => True
  | TWord w :: _ => w ≠ EmptyString ∧ begins_number w = false
  | TNum _ :: _ => False
  end.

Definition record_operands (r : db_record) : list (list N) :=
  gate_operand_ids <$> rec_gates r.

Definition record_operations (stringToGateType : string → GateType) (r : db_record)
  : list GateType :=
  (λ g, stringToGateType (gate_operation g)) <$> rec_gates r.

Local Close Scope Z_scope.

(** ** Vocabulary of the further properties *)

(** The object after [negationUsers.at(a) = g]. *)
Definition setNegationUser (st : ThreeColoring) (a g : N) : ThreeColoring :=
  {| colors := colors st;
     gateColors := gateColors st;
     parentsToColor := parentsToColor st;
     negationUsers := vec_set (negationUsers st) a g;
     next_color_id_ := next_color_id_ st |}.

(** The paints one iteration performs on its gate [g]: a sequence of calls
    of [paintGate] and of the find-or-create block. *)
Inductive Paints (g : N) : ThreeColoring → ThreeColoring → Prop :=
  | Paints_done st : Paints g st st
  | Paints_color st c st1 st2 :
      paintGate st g c = Done st1 → Paints g st1 st2 → Paints g st st2
  | Paints_triple st a b c st1 st2 :
      paintTriple st g a b c = Done st1 → Paints g st1 st2 → Paints g st st2.

(** The two views of the coloring agree: a ColorId is listed for a gate
    exactly when the gate is listed for that color. *)
Definition Consistent (st : ThreeColoring) : Prop :=
  ∀ g c,
    (∃ cs, gateColors st !! N.to_nat g = Some cs ∧ c ∈ cs)
    ↔ (∃ col, colors st !! N.to_nat c = Some col ∧ g ∈ ThreeColor.getGates col).

(** Gates the loop body leaves without paint: no operand, or two operands
    and no TwoColor, or two operands and a TwoColor neither of whose parents
    has a TwoColor. *)
Definition NeverPainted (circuit : ICircuit) (twoColoring : TwoColoring.t) (g : N) : Prop :=
  getGateOperands circuit g = []
  ∨ ∃ x y, getGateOperands circuit g = [x; y]
      ∧ (TwoColoring.gateColor twoColoring !! N.to_nat g = Some SIZE_MAX
         ∨ ∃ two_color tc,
             TwoColoring.gateColor twoColoring !! N.to_nat g = Some two_color
             ∧ TwoColoring.colors twoColoring !! N.to_nat two_color = Some tc
             ∧ TwoColoring.gateColor twoColoring !! N.to_nat (TwoColor.first_parent tc)
                 = Some SIZE_MAX
             ∧ TwoColoring.gateColor twoColoring !! N.to_nat (TwoColor.second_parent tc)
                 = Some SIZE_MAX).

(** Every color has a gate, and the gates listed are indices of the per-gate
    table. *)
Definition Populated (st : ThreeColoring) : Prop :=
  ∀ i col, colors st !! i = Some col →
    ThreeColor.getGates col ≠ []
    ∧ Forall (λ g, g < N.of_nat (length (gateColors st))) (ThreeColor.getGates col).

(** What [negationUsers] holds for the operand [i]: nothing yet, or a NOT
    gate of the sorting whose operand is [i]. *)
Definition NegationUsersSound (circuit : ICircuit) (gates : list N) (st : ThreeColoring)
  : Prop :=
  ∀ i g, negationUsers st !! i = Some g →
    g = SIZE_MAX
    ∨ (g ∈ gates ∧ getGateType circuit g = NOT ∧ getGateOperands circuit g = [N.of_nat i]).

(** The operand [a] has a recorded user, a NOT gate of the sorting. *)
Definition HasNegationUser (circuit : ICircuit) (gates : list N) (a : N)
    (st : ThreeColoring) : Prop :=
  ∃ g, negationUsers st !! N.to_nat a = Some g
    ∧ g ∈ gates ∧ getGateType circuit g = NOT ∧ getGateOperands circuit g = [a].

(** A circuit with a gate of three operands. *)
Definition ternary_circuit : ICircuit :=
  {| getNumberOfGates := 4;
     getGateOperands := λ g, if g =? 3 then [0; 1; 2] else [];
     getGateType := λ g, if g =? 3 then AND else INPUT |}.

Definition ternary_twoColoring : TwoColoring.t :=
  TwoColoring.mk [] (replicate 4 SIZE_MAX).

(** The computation does not call [std::exit]. *)
Definition NoExit {A} (m : Outcome A) : Prop := ∀ g, m ≠ Exit g.

(** The text of the arguments of a logging call, in order. *)
Definition written (args : list string) : string := foldr String.append EmptyString args.

(** * Proofs *)

(** ** Basic facts about outcomes and vectors *)

Lemma bind_Done {A B} (m : Outcome A) (f : A → Outcome B) b :
  m ≫= f = Done b → ∃ a, m = Done a ∧ f a = Done b.
Proof. destruct m; simpl; intros; eauto; discriminate. Qed.

Lemma vec_at_Done {A} (v : list A) i x :
  vec_at v i = Done x ↔ v !! N.to_nat i = Some x.
Proof.
  unfold vec_at. destruct (N.ltb_spec i (N.of_nat (length v))) as [Hlt|Hge].
  - destruct (v !! N.to_nat i) eqn:E; split; intros; simplify_eq; done.
  - split; [done|]. intros Hx. apply lookup_lt_Some in Hx. lia.
Qed.

Lemma vec_at_lt {A} (v : list A) i :
  i < N.of_nat (length v) → ∃ x, vec_at v i = Done x ∧ v !! N.to_nat i = Some x.
Proof.
  intros Hlt. destruct (lookup_lt_is_Some_2 v (N.to_nat i)) as [x Hx]; [lia|].
  exists x. split; [by apply vec_at_Done | done].
Qed.

(** ** Sorting three parents *)

Lemma sortedParents_Sorted a b c : Sorted N.le (ThreeColor.sortedParents a b c).
Proof. apply (Sorted_merge_sort N.le). Qed.

Lemma sortedParents_perm a b c : ThreeColor.sortedParents a b c ≡ₚ [a; b; c].
Proof. apply merge_sort_Permutation. Qed.

Lemma sortedParents_length a b c : length (ThreeColor.sortedParents a b c) = 3%nat.
Proof. by rewrite sortedParents_perm. Qed.

Lemma sortedParents_id a b c :
  Sorted N.le [a; b; c] → ThreeColor.sortedParents a b c = [a; b; c].
Proof.
  intros Hs. apply (Sorted_unique N.le); auto using sortedParents_Sorted, sortedParents_perm.
Qed.

(** The triple stored by the [ThreeColor] constructor is the sorted one. *)
Lemma new_getParents a b c :
  ThreeColor.getParents (ThreeColor.new a b c) = ThreeColor.sortedParents a b c.
Proof.
  unfold ThreeColor.getParents, ThreeColor.new; simpl.
  pose proof (sortedParents_length a b c) as Hl.
  destruct (ThreeColor.sortedParents a b c) as [|x [|y [|z [|? ?]]]]; simplify_eq/=; done.
Qed.

(** Sorting the elements of a sorted triple again gives the same triple:
    the key looked up and the key stored by [addColor] coincide. *)
Lemma sortedParents_idem a b c :
  let cp := ThreeColor.sortedParents a b c in
  ThreeColor.sortedParents (cp !!! 0%nat) (cp !!! 1%nat) (cp !!! 2%nat) = cp.
Proof.
  intros cp. subst cp.
  pose proof (sortedParents_length a b c) as Hl.
  pose proof (sortedParents_Sorted a b c) as Hs.
  destruct (ThreeColor.sortedParents a b c) as [|x [|y [|z [|? ?]]]]; simplify_eq/=.
  by apply sortedParents_id.
Qed.

Lemma addGate_getParents c g :
  ThreeColor.getParents (ThreeColor.addGate c g) = ThreeColor.getParents c.
Proof. done. Qed.

(** ** The invariant of the coloring tables *)

Lemma eta_ThreeColoring st :
  {| colors := colors st; gateColors := gateColors st;
     parentsToColor := parentsToColor st; negationUsers := negationUsers st;
     next_color_id_ := next_color_id_ st |} = st.
Proof. by destruct st. Qed.

Lemma paintGate_inv st g c st' :
  paintGate st g c = Done st' →
  ∃ col old, colors st !! N.to_nat c = Some col
    ∧ gateColors st !! N.to_nat g = Some old
    ∧ st' = {| colors := <[N.to_nat c := ThreeColor.addGate col g]> (colors st);
               gateColors := <[N.to_nat g := old ++ [c]]> (gateColors st);
               parentsToColor := parentsToColor st;
               negationUsers := negationUsers st;
               next_color_id_ := next_color_id_ st |}.
Proof.
  unfold paintGate. intros H.
  apply bind_Done in H as (col & Hc & H). apply bind_Done in H as (old & Hg & H).
  apply vec_at_Done in Hc, Hg. exists col, old. by simplify_eq.
Qed.

Lemma paintGate_ok st g c :
  c < N.of_nat (length (colors st)) → g < N.of_nat (length (gateColors st)) →
  ∃ st', paintGate st g c = Done st'.
Proof.
  intros Hc Hg. unfold paintGate.
  destruct (vec_at_lt _ _ Hc) as (col & -> & _).
  destruct (vec_at_lt _ _ Hg) as (old & -> & _). simpl. eauto.
Qed.

(** [paintTriple] finds the color of the triple or creates it, then paints. *)
Lemma paintTriple_unfold st g a b c :
  paintTriple st g a b c =
    match parentsToColor st !! ThreeColor.sortedParents a b c with
    | Some colorId => paintGate st g colorId
    | None => paintGate (addColor st a b c).1 g (next_color_id_ st)
    end.
Proof.
  unfold paintTriple.
  destruct (parentsToColor st !! ThreeColor.sortedParents a b c) as [cid|] eqn:E.
  - unfold map_subscript. rewrite E. by rewrite eta_ThreeColoring.
  - unfold addColor, ThreeColor.new. simpl. rewrite !sortedParents_idem.
    unfold map_subscript. by rewrite lookup_insert_eq.
Qed.

Lemma addColor_WF st a b c :
  WF st → parentsToColor st !! ThreeColor.sortedParents a b c = None →
  N.of_nat (length (colors st)) + 1 < SIZE_MOD →
  WF (addColor st a b c).1.
Proof.
  intros [Hn Hm Hc Hg] Hnone Hb. split; simpl.
  - rewrite Hn, length_app, N.mod_small by done. simpl. lia.
  - intros k cid. rewrite lookup_insert. case_decide as Hk.
    + intros ?; simplify_eq. exists (ThreeColor.new a b c).
      rewrite Hn, Nat2N.id, lookup_app_r, Nat.sub_diag by done.
      split; [done | apply new_getParents].
    + intros Hl. destruct (Hm _ _ Hl) as (col & Hcol & Hp).
      exists col. split; [|done]. by apply lookup_app_l_Some.
  - intros i col Hi. apply lookup_app_Some in Hi as [Hi | [Hlen Hi]].
    + destruct (Hc _ _ Hi) as [Hl Hs]. split; [|done].
      rewrite lookup_insert_ne; [done|]. intros Heq. rewrite <- Heq in Hl. congruence.
    + apply list_lookup_singleton_Some in Hi as [Hi <-].
      rewrite new_getParents, lookup_insert_eq, Hn.
      split; [f_equal; lia | apply sortedParents_Sorted].
  - intros g' cs Hcs. eapply Forall_impl; [by eapply Hg|].
    intros x Hx; simpl in Hx. rewrite length_app; simpl. lia.
Qed.

Lemma paintGate_WF st g c st' : WF st → paintGate st g c = Done st' → WF st'.
Proof.
  intros [Hn Hm Hc Hg] H. apply paintGate_inv in H as (col & old & Hcol & Hold & ->).
  pose proof (lookup_lt_Some _ _ _ Hcol) as Hlt.
  split; simpl; rewrite ?length_insert.
  - done.
  - intros k cid Hl. destruct (Hm _ _ Hl) as (col' & Hcol' & Hp).
    destruct (decide (N.to_nat cid = N.to_nat c)) as [Heq|Hne].
    + rewrite Heq in Hcol'. simplify_eq. exists (ThreeColor.addGate col g).
      by rewrite list_lookup_insert_eq.
    + exists col'. by rewrite list_lookup_insert_ne.
  - intros i col' Hi. apply list_lookup_insert_Some in Hi as [(<- & <- & _)|[Hne Hi]].
    + rewrite addGate_getParents. by apply Hc.
    + by apply Hc.
  - intros g' cs Hcs. apply list_lookup_insert_Some in Hcs as [(<- & <- & _)|[Hne Hcs]].
    + apply Forall_app. split; [by eapply Hg|]. apply Forall_singleton. lia.
    + by eapply Hg.
Qed.

(** ** What painting one gate does to the tables *)

Lemma Painted_refl g st : Painted g 0 st st.
Proof.
  split; [|done|lia|done]. exists []. split; [done|].
  symmetry. apply list_alter_id. intros old. apply app_nil_r.
Qed.

Lemma Painted_weaken g k k' st st' : (k ≤ k')%nat → Painted g k st st' → Painted g k' st st'.
Proof.
  intros Hk [(cs & Hl & Hg) Hn Hlen Hwf]. split; [|done|lia|].
  - exists cs. split; [lia|done].
  - intros Hw Hb. apply Hwf; [done|lia].
Qed.

Lemma Painted_trans g k1 k2 st1 st2 st3 :
  Painted g k1 st1 st2 → Painted g k2 st2 st3 → Painted g (k1 + k2) st1 st3.
Proof.
  intros [(cs1 & Hl1 & Hg1) Hn1 Hlen1 Hwf1] [(cs2 & Hl2 & Hg2) Hn2 Hlen2 Hwf2].
  split; [|congruence|lia|].
  - exists (cs1 ++ cs2). split; [rewrite length_app; lia|].
    rewrite Hg2, Hg1, list_alter_alter_eq. apply list_alter_ext; [|done].
    intros old _. simpl. by rewrite app_assoc.
  - intros Hw Hb. apply Hwf2; [apply Hwf1; [done|lia] | lia].
Qed.

Lemma Painted_paintGate g c st st' : paintGate st g c = Done st' → Painted g 1 st st'.
Proof.
  intros H. pose proof H as Hinv.
  apply paintGate_inv in Hinv as (col & old & Hcol & Hold & ->).
  split; simpl; rewrite ?length_insert; [|done|lia|].
  - exists [c]. split; [done|].
    apply list_eq. intros i. rewrite list_lookup_alter, list_lookup_insert.
    apply lookup_lt_Some in Hold as Hlt.
    repeat case_decide; try lia; subst; rewrite ?Hold; done.
  - intros Hw _. by eapply paintGate_WF.
Qed.

Lemma PaintedNew_Painted g st st' : PaintedNew g st st' → Painted g 1 st st'.
Proof.
  intros [(c & Hg) Hn Hl Hw]. split; [|done|lia|].
  - exists [c]. by split.
  - intros ? ?. apply Hw; [done|lia].
Qed.

Lemma paintGate_alter st g c st' :
  paintGate st g c = Done st' →
  gateColors st' = alter (λ old, old ++ [c]) (N.to_nat g) (gateColors st)
  ∧ length (colors st') = length (colors st)
  ∧ length (negationUsers st') = length (negationUsers st)
  ∧ parentsToColor st' = parentsToColor st.
Proof.
  intros H. apply paintGate_inv in H as (col & old & Hcol & Hold & ->). simpl.
  rewrite length_insert. split_and!; try done.
  apply list_eq. intros i. rewrite list_lookup_alter, list_lookup_insert.
  apply lookup_lt_Some in Hold as Hlt.
  repeat case_decide; try lia; subst; rewrite ?Hold; done.
Qed.

Lemma PaintedNew_paintTriple g st a b c st' :
  paintTriple st g a b c = Done st' → PaintedNew g st st'.
Proof.
  rewrite paintTriple_unfold.
  destruct (parentsToColor st !! ThreeColor.sortedParents a b c) as [cid|] eqn:E; intros H.
  - destruct (paintGate_alter _ _ _ _ H) as (Hg & Hl & Hn & _).
    split; [eauto|done|lia|]. intros Hw _. by eapply paintGate_WF.
  - destruct (paintGate_alter _ _ _ _ H) as (Hg & Hl & Hn & _). simpl in *.
    rewrite length_app in Hl. simpl in Hl.
    split; [eauto|done|lia|]. intros Hw Hb.
    eapply paintGate_WF; [|done]. by apply addColor_WF.
Qed.

Lemma Painted_paintTriple g st a b c st' :
  paintTriple st g a b c = Done st' → Painted g 1 st st'.
Proof. intros. by eapply PaintedNew_Painted, PaintedNew_paintTriple. Qed.

Lemma Painted_two g st1 st2 st3 :
  Painted g 1 st1 st2 → Painted g 1 st2 st3 → Painted g 2 st1 st3.
Proof. apply (Painted_trans g 1 1). Qed.

Lemma Painted_one_two g st st' : Painted g 1 st st' → Painted g 2 st st'.
Proof. apply Painted_weaken. lia. Qed.

Lemma Painted_zero_one g st : Painted g 1 st st.
Proof. eapply Painted_weaken; [|apply Painted_refl]. lia. Qed.

Lemma Painted_zero_two g st : Painted g 2 st st.
Proof. eapply Painted_weaken; [|apply Painted_refl]. lia. Qed.

Create HintDb painted.
#[local] Hint Resolve Painted_paintGate Painted_paintTriple Painted_zero_one Painted_zero_two
  Painted_two Painted_one_two : painted.

(** Takes apart a run that is known to have completed. *)
Ltac inv_done :=
  repeat match goal with
  | H : (_ ≫= _) = Done _ |- _ =>
      let x := fresh "x" in let Hx := fresh "Hx" in
      apply bind_Done in H as (x & Hx & H)
  | H : match ?x with (_, _) => _ end = Done _ |- _ => destruct x
  | H : (if ?b then _ else _) = Done _ |- _ =>
      let Hb := fresh "Hb" in destruct b eqn:Hb
  | H : Done _ = Done _ |- _ => injection H as H; try subst
  end.

Section ConstructorCompleted.
Variable circuit : ICircuit.
Variable twoColoring : TwoColoring.t.

Lemma secondColor_Painted st g two_color other st' :
  secondColor twoColoring st g two_color other = Done st' → Painted g 1 st st'.
Proof. unfold secondColor. intros H. inv_done; eauto with painted. Qed.

Lemma pattern22_Painted st g child_1 child_2 c1 c2 st' :
  pattern22 twoColoring st g child_1 child_2 c1 c2 = Done st' → Painted g 2 st st'.
Proof. unfold pattern22. intros H. inv_done; eauto with painted. Qed.

Lemma fallback_Painted st g child_1 child_2 c1 c2 st' :
  fallback twoColoring st g child_1 child_2 c1 c2 = Done st' → Painted g 1 st st'.
Proof. unfold fallback. intros H. inv_done; eauto with painted. Qed.

#[local] Hint Resolve secondColor_Painted pattern22_Painted fallback_Painted : painted.

Lemma paintByPattern_Painted st g child_1 child_2 common c13 c31 st' :
  paintByPattern twoColoring st g child_1 child_2 common c13 c31 = Done st' →
  Painted g 2 st st'.
Proof. unfold paintByPattern. intros H. inv_done; eauto 6 with painted. Qed.

(** A binary gate is painted at most twice. *)
Lemma processBinary_Painted st g st' :
  processBinary twoColoring st g = Done st' → Painted g 2 st st'.
Proof.
  unfold processBinary. intros H. inv_done; eauto using paintByPattern_Painted with painted.
Qed.
End ConstructorCompleted.

(** ** Unary gates *)

Lemma WF_negationUsers st users :
  WF st →
  WF {| colors := colors st; gateColors := gateColors st;
        parentsToColor := parentsToColor st; negationUsers := users;
        next_color_id_ := next_color_id_ st |}.
Proof. intros [? ? ? ?]. by split. Qed.

(** Painting a gate with a list of existing colors appends the list to the
    gate's entry and creates nothing. *)
Lemma foldM_paintGate g cs : ∀ st st',
  foldM (λ st color, paintGate st g color) st cs = Done st' →
  gateColors st' = alter (λ old, old ++ cs) (N.to_nat g) (gateColors st)
  ∧ length (colors st') = length (colors st)
  ∧ negationUsers st' = negationUsers st
  ∧ parentsToColor st' = parentsToColor st
  ∧ next_color_id_ st' = next_color_id_ st
  ∧ (WF st → WF st').
Proof.
  induction cs as [|c cs IH]; intros st st' H; simpl in H.
  - simplify_eq. split_and!; try done.
    symmetry. apply list_alter_id. intros old. apply app_nil_r.
  - apply bind_Done in H as (st1 & H1 & H).
    destruct (IH _ _ H) as (Hg & Hl & Hn & Hm & Hx & Hw).
    pose proof H1 as Hinv.
    apply paintGate_inv in Hinv as (col & old & Hcol & Hold & ->). simpl in *.
    rewrite length_insert in Hl. split_and!; try done.
    + rewrite Hg. apply list_eq. intros i.
      apply lookup_lt_Some in Hold as Hlt.
      destruct (decide (N.to_nat g = i)) as [<-|Hne].
      * rewrite !list_lookup_alter_eq, list_lookup_insert_eq, Hold by done.
        simpl. by rewrite <- app_assoc.
      * by rewrite !list_lookup_alter_ne, list_lookup_insert_ne.
    + intros Hwf. apply Hw. by eapply paintGate_WF.
Qed.

Section UnaryGates.
Variable circuit : ICircuit.

Lemma processUnary_inv st g operand st' :
  processUnary circuit st g operand = Done st' →
  ∃ cs, gateColors st !! N.to_nat operand = Some cs
    ∧ gateColors st' = alter (λ old, old ++ cs) (N.to_nat g) (gateColors st)
    ∧ length (colors st') = length (colors st)
    ∧ parentsToColor st' = parentsToColor st
    ∧ next_color_id_ st' = next_color_id_ st
    ∧ negationUsers st' =
        (if decide (getGateType circuit g = NOT)
         then <[N.to_nat operand := g]> (negationUsers st)
         else negationUsers st)
    ∧ (WF st → WF st').
Proof.
  unfold processUnary. intros H.
  apply bind_Done in H as (cs & Hcs & H). apply vec_at_Done in Hcs.
  apply bind_Done in H as (st1 & H1 & H).
  destruct (foldM_paintGate _ _ _ _ H1) as (Hg & Hl & Hn & Hm & Hx & Hw).
  exists cs. destruct (decide (getGateType circuit g = NOT)).
  - apply bind_Done in H as (? & _ & H). simplify_eq. simpl.
    rewrite Hn. split_and!; try done. intros Hwf. by apply WF_negationUsers, Hw.
  - simplify_eq. by split_and!.
Qed.

Lemma processUnary_Painted st g operand st' :
  processUnary circuit st g operand = Done st' →
  ∃ cs, gateColors st !! N.to_nat operand = Some cs ∧ Painted g (length cs) st st'.
Proof.
  intros H. apply processUnary_inv in H as (cs & Hcs & Hg & Hl & Hm & Hx & Hn & Hw).
  exists cs. split; [done|]. split; [eauto| |lia|auto].
  rewrite Hn. case_decide; [apply length_insert|done].
Qed.
End UnaryGates.

(** ** One iteration, then the whole loop, when they complete *)

Section LoopCompleted.
Variable circuit : ICircuit.
Variable twoColoring : TwoColoring.t.

Lemma processGate_done st g st' :
  processGate circuit twoColoring st g = Done st' →
  (∃ cs, gateColors st' = alter (λ old, old ++ cs) (N.to_nat g) (gateColors st)
      ∧ ((length cs ≤ 2)%nat ∨ ∃ operand, gateColors st !! N.to_nat operand = Some cs))
  ∧ length (negationUsers st') = length (negationUsers st)
  ∧ (length (colors st) ≤ length (colors st') ≤ length (colors st) + 2)%nat
  ∧ (WF st → N.of_nat (length (colors st)) + 2 < SIZE_MOD → WF st').
Proof.
  unfold processGate. intros H.
  destruct (getGateOperands circuit g) as [|operand [|? [|? ?]]]; [| | |discriminate].
  - simplify_eq. split_and!; [|done|lia..|done].
    exists []. split; [|left; simpl; lia].
    symmetry. apply list_alter_id. intros old. apply app_nil_r.
  - apply processUnary_inv in H as (cs & Hcs & Hg & Hl & Hm & Hx & Hn & Hw).
    split_and!; [eauto| |lia..|auto].
    rewrite Hn. case_decide; [apply length_insert|done].
  - apply processBinary_Painted in H as [(cs & Hl & Hg) Hn Hlen Hw].
    split_and!; [eauto|done|lia..|auto].
Qed.

Lemma loop_WF l : ∀ st st',
  foldM (processGate circuit twoColoring) st l = Done st' →
  WF st → N.of_nat (length (colors st)) + 2 * N.of_nat (length l) < SIZE_MOD →
  WF st' ∧ (length (colors st') ≤ length (colors st) + 2 * length l)%nat.
Proof.
  induction l as [|g l IH]; intros st st' H Hw Hb; simpl in H.
  - simplify_eq. split; [done|lia].
  - apply bind_Done in H as (st1 & H1 & H).
    destruct (processGate_done _ _ _ H1) as (_ & _ & Hlen & Hwf).
    simpl length in *.
    destruct (IH _ _ H) as [Hw' Hl']; [apply Hwf; [done|lia] | lia |].
    split; [done|lia].
Qed.

Lemma loop_lengths l : ∀ st st',
  foldM (processGate circuit twoColoring) st l = Done st' →
  length (gateColors st') = length (gateColors st)
  ∧ length (negationUsers st') = length (negationUsers st).
Proof.
  induction l as [|g l IH]; intros st st' H; simpl in H.
  - by simplify_eq.
  - apply bind_Done in H as (st1 & H1 & H).
    destruct (processGate_done _ _ _ H1) as ((cs & Hg & _) & Hn & _).
    destruct (IH _ _ H) as [-> ->]. by rewrite Hg, length_alter.
Qed.

Lemma loop_AtMostTwo l : ∀ st st',
  NoDup l → AtMostTwo st → Unpainted st l →
  foldM (processGate circuit twoColoring) st l = Done st' → AtMostTwo st'.
Proof.
  induction l as [|g l IH]; intros st st' Hnd H2 Hu H; simpl in H.
  - by simplify_eq.
  - apply bind_Done in H as (st1 & H1 & H).
    apply NoDup_cons in Hnd as [Hnotin Hnd].
    destruct (processGate_done _ _ _ H1) as ((cs & Hg & Hcs) & _).
    assert (length cs ≤ 2)%nat as Hlen.
    { destruct Hcs as [?|(operand & Hop)]; [done|by eapply H2]. }
    apply (IH st1 st'); [done| | |done].
    + intros i cs' Hi. rewrite Hg, list_lookup_alter in Hi.
      case_decide as Hgi; [subst i|by eapply H2].
      destruct (gateColors st !! N.to_nat g) as [old|] eqn:Eold; simplify_eq/=.
      rewrite (Hu g old); [done|apply elem_of_cons; by left|done].
    + intros g' cs' Hin Hi. rewrite Hg, list_lookup_alter_ne in Hi.
      * eapply Hu; [|done]. apply elem_of_cons. by right.
      * intros Heq. apply N2Nat.inj in Heq. by subst.
Qed.
End LoopCompleted.

Lemma initial_WF circuit : WF (initial circuit).
Proof.
  split; simpl; [done|intros k c; by rewrite lookup_empty|done|].
  intros g cs Hg. apply lookup_replicate in Hg as [-> _]. constructor.
Qed.

Lemma initial_Unpainted circuit l : Unpainted (initial circuit) l.
Proof. intros g cs _ Hg. simpl in Hg. by apply lookup_replicate in Hg as [-> _]. Qed.

Lemma initial_AtMostTwo circuit : AtMostTwo (initial circuit).
Proof. intros g cs Hg. simpl in Hg. apply lookup_replicate in Hg as [-> _]. simpl; lia. Qed.

(** C1.  When the ThreeColoring constructor completes on a circuit whose
    topological sorting lists each gate at most once, the table [gateColors]
    has one entry per gate and every entry holds at most two ColorIds. *)
Theorem gateColors_at_most_two circuit twoColoring gate_sorting st :
  NoDup gate_sorting →
  construct circuit twoColoring gate_sorting = Done st →
  length (gateColors st) = N.to_nat (getNumberOfGates circuit)
  ∧ ∀ g cs, gateColors st !! N.to_nat g = Some cs → (length cs ≤ 2)%nat.
Proof.
  unfold construct. intros Hnd H. split.
  - apply loop_lengths in H as [-> _]. simpl. apply length_replicate.
  - intros g cs. eapply loop_AtMostTwo; [|apply initial_AtMostTwo|apply initial_Unpainted|done].
    by rewrite reverse_Permutation.
Qed.

(** ** Range safety: no checked access throws on a valid input *)

Lemma Good_Painted n b k g st st' :
  Good n (k + b) st → Painted g k st st' → Good n b st'.
Proof.
  intros [Hw Hg Hn Hr] [(cs & Hl & Hgc) Hneg Hlen Hwf]. split.
  - apply Hwf; [done|lia].
  - by rewrite Hgc, length_alter.
  - congruence.
  - lia.
Qed.

Lemma Good_weaken n b b' st : (b' ≤ b)%nat → Good n b st → Good n b' st.
Proof. intros Hb [? ? ? ?]. split; [done..|lia]. Qed.

Lemma Good_colors n b st g cs :
  Good n b st → gateColors st !! g = Some cs →
  Forall (λ c, c < N.of_nat (length (colors st))) cs.
Proof. intros [Hw _ _ _]. apply Hw. Qed.

Lemma Good_gateColors_at n b st g :
  Good n b st → g < n →
  ∃ cs, vec_at (gateColors st) g = Done cs
    ∧ Forall (λ c, c < N.of_nat (length (colors st))) cs.
Proof.
  intros Hgood Hg. destruct (vec_at_lt (gateColors st) g) as (cs & Hat & Hl).
  { rewrite (good_gc _ _ _ Hgood). lia. }
  exists cs. split; [done|]. by eapply Good_colors.
Qed.

Lemma paintGate_Good n b st g c :
  Good n (1 + b) st → g < n → c < N.of_nat (length (colors st)) →
  ∃ st', paintGate st g c = Done st' ∧ Good n b st'
    ∧ (length (colors st) ≤ length (colors st'))%nat.
Proof.
  intros Hgood Hg Hc. destruct (paintGate_ok st g c) as [st' H]; [done| |].
  { rewrite (good_gc _ _ _ Hgood). lia. }
  exists st'. pose proof (Painted_paintGate _ _ _ _ H) as Hp.
  split_and!; [done|by eapply Good_Painted|apply Hp].
Qed.

Lemma paintTriple_Good n b st g x y z :
  Good n (1 + b) st → g < n →
  ∃ st', paintTriple st g x y z = Done st' ∧ Good n b st'
    ∧ (length (colors st) ≤ length (colors st'))%nat.
Proof.
  intros Hgood Hg.
  assert (∃ st', paintTriple st g x y z = Done st') as [st' H].
  { rewrite paintTriple_unfold.
    destruct (parentsToColor st !! ThreeColor.sortedParents x y z) as [cid|] eqn:E.
    - apply paintGate_ok; [|rewrite (good_gc _ _ _ Hgood); lia].
      destruct (wf_map _ (good_wf _ _ _ Hgood) _ _ E) as (col & Hcol & _).
      apply lookup_lt_Some in Hcol. lia.
    - apply paintGate_ok; simpl.
      + rewrite (wf_next _ (good_wf _ _ _ Hgood)), length_app. simpl. lia.
      + rewrite (good_gc _ _ _ Hgood). lia. }
  exists st'. pose proof (Painted_paintTriple _ _ _ _ _ _ H) as Hp.
  split_and!; [done|by eapply Good_Painted|apply Hp].
Qed.

Lemma scanParents_ok st p1 p2 cs :
  Forall (λ c, c < N.of_nat (length (colors st))) cs →
  ∃ r, scanParents st p1 p2 cs = Done r ∧ (r = SIZE_MAX ∨ r ∈ cs).
Proof.
  induction 1 as [|c cs Hc Hcs IH]; simpl; [eauto|].
  destruct (vec_at_lt _ _ Hc) as (col & -> & _). simpl.
  destruct (_ && _).
  - exists c. split; [done|]. right. apply elem_of_cons. by left.
  - destruct IH as (r & -> & Hr). exists r. split; [done|].
    destruct Hr; [by left|right]. apply elem_of_cons. by right.
Qed.

Lemma scanInner_ok st child_1 first cs : ∀ common c13,
  Forall (λ c, c < N.of_nat (length (colors st))) cs →
  first < N.of_nat (length (colors st)) →
  Forall (λ c, c < N.of_nat (length (colors st))) common → ColorOrNone st c13 →
  ∃ common' c13', foldM (scanInner st child_1 first) (common, c13) cs = Done (common', c13')
    ∧ Forall (λ c, c < N.of_nat (length (colors st))) common' ∧ ColorOrNone st c13'.
Proof.
  induction cs as [|c cs IH]; intros common c13 Hcs Hf Hcommon H13; simpl; [eauto|].
  apply Forall_cons in Hcs as [Hc Hcs].
  destruct (first =? c).
  - simpl. apply IH; try done. apply Forall_app. split; [done|]. by apply Forall_singleton.
  - destruct (vec_at_lt _ _ Hc) as (col & -> & _). simpl.
    destruct (ThreeColor.hasParent col child_1); simpl; apply IH; try done. by right.
Qed.

Lemma scanOuter_ok n b st child_1 child_2 cs : ∀ common c13 c31,
  Good n b st → child_2 < n →
  Forall (λ c, c < N.of_nat (length (colors st))) cs →
  Forall (λ c, c < N.of_nat (length (colors st))) common →
  ColorOrNone st c13 → ColorOrNone st c31 →
  ∃ common' c13' c31',
    foldM (scanOuter st child_1 child_2) (common, c13, c31) cs = Done (common', c13', c31')
    ∧ Forall (λ c, c < N.of_nat (length (colors st))) common'
    ∧ ColorOrNone st c13' ∧ ColorOrNone st c31'.
Proof.
  induction cs as [|c cs IH]; intros common c13 c31 Hgood H2 Hcs Hcommon H13 H31; simpl.
  { eauto 10. }
  apply Forall_cons in Hcs as [Hc Hcs].
  destruct (Good_gateColors_at _ _ _ _ Hgood H2) as (cs2 & -> & Hcs2). simpl.
  destruct (scanInner_ok st child_1 c cs2 common c13) as (common' & c13' & -> & Hc' & H13');
    try done.
  simpl. destruct (vec_at_lt _ _ Hc) as (col & -> & _). simpl.
  destruct (ThreeColor.hasParent col child_2); simpl; apply IH; try done. by right.
Qed.

Lemma scanChildren_ok n b st child_1 child_2 :
  Good n b st → child_1 < n → child_2 < n →
  ∃ common c13 c31, scanChildren st child_1 child_2 = Done (common, c13, c31)
    ∧ Forall (λ c, c < N.of_nat (length (colors st))) common
    ∧ ColorOrNone st c13 ∧ ColorOrNone st c31.
Proof.
  intros Hgood H1 H2. unfold scanChildren.
  destruct (Good_gateColors_at _ _ _ _ Hgood H1) as (cs1 & -> & Hcs1). simpl.
  eapply scanOuter_ok; try done; by left.
Qed.

Section ValidInput.
Variable circuit : ICircuit.
Variable twoColoring : TwoColoring.t.
Hypothesis Hvalid : ValidInput circuit twoColoring.

Let n := getNumberOfGates circuit.

Lemma two_gate g :
  g < n → ∃ c, vec_at (TwoColoring.gateColor twoColoring) g = Done c ∧ TwoOrNone twoColoring n c.
Proof.
  intros Hg. destruct (vec_at_lt (TwoColoring.gateColor twoColoring) g) as (c & Hat & Hl).
  { rewrite (valid_two_size _ _ Hvalid). fold n. lia. }
  exists c. split; [done|]. destruct (decide (c = SIZE_MAX)) as [|Hne]; [by left|right].
  destruct (valid_two_color _ _ Hvalid _ _ Hl Hne) as (tc & Htc & H1 & H2).
  exists tc. by rewrite vec_at_Done.
Qed.

Lemma TwoOrNone_some c :
  TwoOrNone twoColoring n c → (c =? SIZE_MAX) = false →
  ∃ tc, vec_at (TwoColoring.colors twoColoring) c = Done tc
      ∧ TwoColor.first_parent tc < n ∧ TwoColor.second_parent tc < n.
Proof. intros [->|?] Hc; [done|done]. Qed.

Lemma ColorOrNone_some st c :
  ColorOrNone st c → (c =? SIZE_MAX) = false → c < N.of_nat (length (colors st)).
Proof. intros [->|?] Hc; [done|done]. Qed.

Lemma ColorOrNone_mono st st' c :
  (length (colors st) ≤ length (colors st'))%nat → ColorOrNone st c → ColorOrNone st' c.
Proof. intros Hl [->|?]; [by left|right; lia]. Qed.

Lemma secondColor_ok b st g two_color other :
  Good n (1 + b) st → g < n → other < n → TwoOrNone twoColoring n two_color →
  ∃ st', secondColor twoColoring st g two_color other = Done st' ∧ Good n b st'.
Proof.
  intros Hgood Hg Ho Htwo. unfold secondColor.
  destruct (two_color =? SIZE_MAX) eqn:E; simpl.
  { exists st. split; [done|]. eapply Good_weaken; [|done]. lia. }
  destruct (TwoOrNone_some _ Htwo E) as (tc & -> & H1 & H2). simpl.
  destruct (Good_gateColors_at _ _ _ _ Hgood Ho) as (cs & -> & Hcs). simpl.
  destruct (scanParents_ok st (TwoColor.first_parent tc) (TwoColor.second_parent tc) cs Hcs)
    as (r & -> & Hr). simpl.
  destruct (r =? SIZE_MAX) eqn:Er; simpl.
  - destruct (paintTriple_Good n b st g (TwoColor.first_parent tc)
      (TwoColor.second_parent tc) other) as (st' & ? & ? & _); eauto.
  - destruct Hr as [->|Hin]; [done|].
    destruct (paintGate_Good n b st g r) as (st' & ? & ? & _); eauto.
    by eapply Forall_forall in Hcs.
Qed.

Lemma singlePattern_ok b st two_color other :
  Good n b st → other < n → TwoOrNone twoColoring n two_color →
  ∃ r, singlePattern twoColoring st two_color other = Done r ∧ ColorOrNone st r.
Proof.
  intros Hgood Ho Htwo. unfold singlePattern.
  destruct (two_color =? SIZE_MAX) eqn:E; simpl.
  { exists SIZE_MAX. split; [done|by left]. }
  destruct (TwoOrNone_some _ Htwo E) as (tc & -> & H1 & H2). simpl.
  destruct (Good_gateColors_at _ _ _ _ Hgood Ho) as (cs & -> & Hcs). simpl.
  destruct (scanParents_ok st (TwoColor.first_parent tc) (TwoColor.second_parent tc) cs Hcs)
    as (r & -> & Hr).
  exists r. split; [done|]. destruct Hr as [->|Hin]; [by left|right].
  by eapply Forall_forall in Hcs.
Qed.

Lemma pattern22_ok b st g child_1 child_2 c1 c2 :
  Good n (2 + b) st → g < n → TwoOrNone twoColoring n c1 → TwoOrNone twoColoring n c2 →
  (c1 =? SIZE_MAX) = false → (c2 =? SIZE_MAX) = false →
  ∃ st', pattern22 twoColoring st g child_1 child_2 c1 c2 = Done st' ∧ Good n b st'.
Proof.
  intros Hgood Hg H1 H2 E1 E2. unfold pattern22.
  destruct (TwoOrNone_some _ H1 E1) as (tc1 & -> & _).
  destruct (TwoOrNone_some _ H2 E2) as (tc2 & -> & _). simpl.
  destruct (TwoColor.hasParent tc2 (TwoColor.first_parent tc1));
    [|destruct (TwoColor.hasParent tc2 (TwoColor.second_parent tc1))].
  - edestruct (paintTriple_Good n b st g) as (st' & -> & ? & _);
      [eapply Good_weaken; [|done]; lia|done|eauto].
  - edestruct (paintTriple_Good n b st g) as (st' & -> & ? & _);
      [eapply Good_weaken; [|done]; lia|done|eauto].
  - edestruct (paintTriple_Good n (1 + b) st g) as (st1 & -> & Hg1 & _); [done..|]. simpl.
    edestruct (paintTriple_Good n b st1 g) as (st' & -> & ? & _); [done..|eauto].
Qed.

Lemma fallback_ok b st g child_1 child_2 c1 c2 :
  Good n (1 + b) st → g < n → TwoOrNone twoColoring n c1 → TwoOrNone twoColoring n c2 →
  (c1 =? SIZE_MAX) = false ∨ (c2 =? SIZE_MAX) = false →
  ∃ st', fallback twoColoring st g child_1 child_2 c1 c2 = Done st' ∧ Good n b st'.
Proof.
  intros Hgood Hg H1 H2 E. unfold fallback.
  destruct (c1 =? SIZE_MAX) eqn:E1; simpl.
  - destruct E as [?|E2]; [done|].
    destruct (TwoOrNone_some _ H2 E2) as (tc & -> & _). simpl.
    edestruct (paintTriple_Good n b st g) as (st' & -> & ? & _); [done..|eauto].
  - destruct (TwoOrNone_some _ H1 E1) as (tc & -> & _). simpl.
    edestruct (paintTriple_Good n b st g) as (st' & -> & ? & _); [done..|eauto].
Qed.

Lemma paintByPattern_ok b st g child_1 child_2 common c13 c31 :
  Good n (2 + b) st → g < n → child_1 < n → child_2 < n →
  Forall (λ c, c < N.of_nat (length (colors st))) common →
  ColorOrNone st c13 → ColorOrNone st c31 →
  (∀ c1 c2, vec_at (TwoColoring.gateColor twoColoring) child_1 = Done c1 →
            vec_at (TwoColoring.gateColor twoColoring) child_2 = Done c2 →
            (c1 =? SIZE_MAX) = false ∨ (c2 =? SIZE_MAX) = false) →
  ∃ st', paintByPattern twoColoring st g child_1 child_2 common c13 c31 = Done st'
    ∧ Good n b st'.
Proof.
  intros Hgood Hg H1 H2 Hcommon H13 H31 Hsome. unfold paintByPattern.
  assert (Good n (1 + b) st) as Hgood1 by (eapply Good_weaken; [|done]; lia).
  assert (Good n b st) as Hgood0 by (eapply Good_weaken; [|done]; lia).
  destruct (length common =? 2)%nat eqn:El2.
  { destruct common as [|x [|y [|? ?]]]; try done.
    apply Forall_cons in Hcommon as [Hx Hy]. apply Forall_cons in Hy as [Hy _].
    change ([x; y] !!! 0%nat) with x. change ([x; y] !!! 1%nat) with y.
    destruct (paintGate_Good n (1 + b) st g x) as (st1 & -> & Hg1 & Hl1); [done..|]. simpl.
    destruct (paintGate_Good n b st1 g y) as (st' & -> & ? & _); [done|done|lia|eauto]. }
  destruct (length common =? 1)%nat eqn:El1.
  { destruct common as [|x [|? ?]]; try done.
    apply Forall_cons in Hcommon as [Hx _]. change ([x] !!! 0%nat) with x.
    destruct (paintGate_Good n (1 + b) st g x) as (st1 & -> & Hg1 & Hl1); [done..|]. simpl.
    destruct (c13 =? SIZE_MAX) eqn:E13; simpl;
      [destruct (c31 =? SIZE_MAX) eqn:E31; simpl|].
    - exists st1. split; [done|]. eapply Good_weaken; [|done]. lia.
    - pose proof (ColorOrNone_some _ _ H31 E31).
      destruct (paintGate_Good n b st1 g c31) as (st' & -> & ? & _); [done|done|lia|eauto].
    - pose proof (ColorOrNone_some _ _ H13 E13).
      destruct (paintGate_Good n b st1 g c13) as (st' & -> & ? & _); [done|done|lia|eauto]. }
  destruct (c13 =? SIZE_MAX) eqn:E13; simpl.
  2:{ pose proof (ColorOrNone_some _ _ H13 E13).
      destruct (paintGate_Good n (1 + b) st g c13) as (st1 & -> & Hg1 & Hl1); [done..|].
      simpl. destruct (two_gate _ H1) as (c1 & -> & Hc1). simpl.
      by apply secondColor_ok. }
  destruct (c31 =? SIZE_MAX) eqn:E31; simpl.
  2:{ pose proof (ColorOrNone_some _ _ H31 E31).
      destruct (paintGate_Good n (1 + b) st g c31) as (st1 & -> & Hg1 & Hl1); [done..|].
      simpl. destruct (two_gate _ H2) as (c2 & -> & Hc2). simpl.
      by apply secondColor_ok. }
  destruct (two_gate _ H1) as (c1 & Hat1 & Hc1).
  destruct (two_gate _ H2) as (c2 & Hat2 & Hc2).
  specialize (Hsome _ _ Hat1 Hat2). rewrite Hat1, Hat2. simpl.
  destruct (singlePattern_ok _ st c2 child_1 Hgood H1 Hc2) as (r32 & -> & Hr32). simpl.
  destruct (r32 =? SIZE_MAX) eqn:E32; simpl.
  2:{ pose proof (ColorOrNone_some _ _ Hr32 E32).
      destruct (paintGate_Good n b st g r32) as (st' & -> & ? & _); [done..|eauto]. }
  destruct (singlePattern_ok _ st c1 child_2 Hgood H2 Hc1) as (r23 & -> & Hr23). simpl.
  destruct (r23 =? SIZE_MAX) eqn:E23; simpl.
  2:{ pose proof (ColorOrNone_some _ _ Hr23 E23).
      destruct (paintGate_Good n b st g r23) as (st' & -> & ? & _); [done..|eauto]. }
  destruct (c1 =? SIZE_MAX) eqn:E1; simpl.
  - apply fallback_ok; auto. destruct Hsome as [?|?]; [done|by right].
  - destruct (c2 =? SIZE_MAX) eqn:E2; simpl.
    + apply fallback_ok; auto.
    + by apply pattern22_ok.
Qed.

Lemma processBinary_ok b st g :
  Good n (2 + b) st → g < n →
  ∃ st', processBinary twoColoring st g = Done st' ∧ Good n b st'.
Proof.
  intros Hgood Hg. unfold processBinary.
  assert (Good n b st) as Hgood0 by (eapply Good_weaken; [|done]; lia).
  destruct (two_gate _ Hg) as (c & -> & Hc). simpl.
  destruct (c =? SIZE_MAX) eqn:E; [eauto|].
  destruct (TwoOrNone_some _ Hc E) as (tc & -> & H1 & H2). simpl.
  destruct (two_gate _ H1) as (c1 & Hat1 & Hc1). rewrite Hat1. simpl.
  assert (∃ skip : bool,
    (if c1 =? SIZE_MAX
     then child_2_two_color ← vec_at (TwoColoring.gateColor twoColoring)
                                     (TwoColor.second_parent tc);
          Done (child_2_two_color =? SIZE_MAX)
     else Done false) = Done skip
    ∧ (skip = false →
       ∀ c1' c2', vec_at (TwoColoring.gateColor twoColoring) (TwoColor.first_parent tc) = Done c1' →
                  vec_at (TwoColoring.gateColor twoColoring) (TwoColor.second_parent tc) = Done c2' →
                  (c1' =? SIZE_MAX) = false ∨ (c2' =? SIZE_MAX) = false))
    as (skip & -> & Hskip).
  { destruct (c1 =? SIZE_MAX) eqn:E1.
    - destruct (two_gate _ H2) as (c2 & Hat2 & Hc2). rewrite Hat2. simpl.
      eexists. split; [done|]. intros E2 c1' c2' ? ?. right. congruence.
    - eexists. split; [done|]. intros _ c1' c2' ? ?. left. congruence. }
  simpl. destruct skip; [eauto|].
  destruct (scanChildren_ok _ _ st _ _ Hgood H1 H2)
    as (common & c13 & c31 & -> & Hcommon & H13 & H31). simpl.
  by apply paintByPattern_ok; auto.
Qed.

Lemma foldM_paintGate_ok b g cs : ∀ st,
  Good n b st → g < n → Forall (λ c, c < N.of_nat (length (colors st))) cs →
  ∃ st', foldM (λ st color, paintGate st g color) st cs = Done st' ∧ Good n b st'.
Proof.
  induction cs as [|c cs IH]; intros st Hgood Hg Hcs; simpl; [eauto|].
  apply Forall_cons in Hcs as [Hc Hcs].
  destruct (paintGate_ok st g c) as [st1 H1]; [done| |].
  { rewrite (good_gc _ _ _ Hgood). fold n. lia. }
  rewrite H1. simpl.
  destruct (paintGate_alter _ _ _ _ H1) as (Hgc & Hl & Hneg & _).
  apply IH; [|done|by rewrite Hl].
  destruct Hgood as [Hw Hg' Hn' Hr]. split.
  - by eapply paintGate_WF.
  - by rewrite Hgc, length_alter.
  - congruence.
  - by rewrite Hl.
Qed.

Lemma processUnary_ok b st g operand :
  Good n b st → g < n → operand < n →
  ∃ st', processUnary circuit st g operand = Done st' ∧ Good n b st'.
Proof.
  intros Hgood Hg Ho. unfold processUnary.
  destruct (Good_gateColors_at _ _ _ _ Hgood Ho) as (cs & -> & Hcs). simpl.
  destruct (foldM_paintGate_ok b g cs st Hgood Hg Hcs) as (st1 & -> & Hgood1). simpl.
  destruct (decide (getGateType circuit g = NOT)); [|eauto].
  destruct (vec_at_lt (negationUsers st1) operand) as (u & -> & _).
  { rewrite (good_neg _ _ _ Hgood1). fold n. lia. }
  simpl. eexists. split; [done|].
  destruct Hgood1 as [Hw Hg' Hn' Hr]. split; simpl; try done.
  - by apply WF_negationUsers.
  - unfold vec_set. by rewrite length_insert.
Qed.

(** One iteration either completes or meets a gate with more than two
    operands; it never throws. *)
Lemma processGate_ok b st g :
  Good n (2 + b) st → g < n →
  (∃ st', processGate circuit twoColoring st g = Done st' ∧ Good n b st'
      ∧ (length (getGateOperands circuit g) ≤ 2)%nat)
  ∨ (processGate circuit twoColoring st g = Exit g
      ∧ (2 < length (getGateOperands circuit g))%nat).
Proof.
  intros Hgood Hg. unfold processGate.
  assert (Good n b st) as Hgood0 by (eapply Good_weaken; [|done]; lia).
  pose proof (valid_operands _ _ Hvalid g) as Hops. fold n in Hops.
  destruct (getGateOperands circuit g) as [|operand [|? [|? ?]]]; simpl.
  - left. exists st. split_and!; [done..|lia].
  - left. destruct (processUnary_ok b st g operand) as (st' & ? & ?); [done..| |].
    { apply Hops; [done|]. apply elem_of_cons. by left. }
    exists st'. split_and!; [done..|lia].
  - left. destruct (processBinary_ok b st g) as (st' & ? & ?); [done..|].
    exists st'. split_and!; [done..|lia].
  - right. split; [done|lia].
Qed.

Lemma loop_ok l : ∀ st,
  Forall (λ g, g < n) l → Good n (2 * length l) st →
  (∃ st', foldM (processGate circuit twoColoring) st l = Done st' ∧ Good n 0 st'
      ∧ Forall (λ g, (length (getGateOperands circuit g) ≤ 2)%nat) l)
  ∨ (∃ g, foldM (processGate circuit twoColoring) st l = Exit g ∧ g ∈ l
      ∧ (2 < length (getGateOperands circuit g))%nat).
Proof.
  induction l as [|g l IH]; intros st Hl Hgood; simpl.
  { left. exists st. by split_and!. }
  apply Forall_cons in Hl as [Hg Hl].
  destruct (processGate_ok (2 * length l) st g) as [(st1 & -> & Hgood1 & Hops)|[-> Hops]];
    [eapply Good_weaken; [|done]; simpl; lia|done| |].
  - simpl. destruct (IH st1 Hl Hgood1) as [(st' & -> & ? & ?)|(g' & -> & ? & ?)].
    + left. exists st'. split_and!; [done..|]. by constructor.
    + right. exists g'. split_and!; [done| |done]. apply elem_of_cons. by right.
  - right. exists g. split_and!; [done| |done]. apply elem_of_cons. by left.
Qed.

Lemma initial_Good b :
  N.of_nat b < SIZE_MOD → Good n b (initial circuit).
Proof.
  intros Hb. split; simpl; [apply initial_WF|apply length_replicate..|lia].
Qed.

(** The constructor on a valid input whose sorting holds gate ids only. *)
Lemma construct_ok gate_sorting :
  Forall (λ g, g < n) gate_sorting →
  2 * N.of_nat (length gate_sorting) < SIZE_MOD →
  (∃ st, construct circuit twoColoring gate_sorting = Done st ∧ Good n 0 st
      ∧ Forall (λ g, (length (getGateOperands circuit g) ≤ 2)%nat) gate_sorting)
  ∨ (∃ g, construct circuit twoColoring gate_sorting = Exit g ∧ g ∈ gate_sorting
      ∧ (2 < length (getGateOperands circuit g))%nat).
Proof.
  intros Hl Hb. unfold construct.
  destruct (loop_ok (reverse gate_sorting) (initial circuit))
    as [(st & ? & ? & Hops)|(g & ? & Hin & ?)].
  - by rewrite reverse_Permutation.
  - rewrite length_reverse. apply initial_Good. lia.
  - left. exists st. split_and!; [done..|]. by rewrite reverse_Permutation in Hops.
  - right. exists g. split_and!; [done| |done]. by apply elem_of_reverse.
Qed.
End ValidInput.

Lemma example_construct :
  construct example_circuit example_twoColoring example_sorting = Done example_result.
Proof. vm_compute. reflexivity. Qed.

Lemma example_valid : ValidInput example_circuit example_twoColoring.
Proof.
  split; simpl.
  - intros g o Hg Ho.
    assert (g = 0 ∨ g = 1 ∨ g = 2 ∨ g = 3 ∨ g = 4 ∨ g = 5 ∨ g = 6 ∨ g = 7) as Hcases by lia.
    destruct_or!; subst g; simpl in Ho;
      repeat (apply elem_of_cons in Ho as [->|Ho]; [lia|]); by apply elem_of_nil in Ho.
  - reflexivity.
  - intros i c Hi Hc.
    apply list_elem_of_lookup_2 in Hi.
    repeat (apply elem_of_cons in Hi as [->|Hi];
            [try done; try (eexists; split; [reflexivity|simpl; lia])|]).
    by apply elem_of_nil in Hi.
Qed.

Lemma example_sorting_ids : Forall (λ g, g < getNumberOfGates example_circuit) example_sorting.
Proof. repeat constructor. Qed.

(** The constructor on a circuit with a three-operand gate, and on a
    circuit whose apex has children over disjoint pairs of inputs (the two
    triples of the 2-2 pattern). *)
Example construct_exits :
  construct {| getNumberOfGates := 4;
               getGateOperands := λ g, if g =? 3 then [0; 1; 2] else [];
               getGateType := λ g, if g =? 3 then AND else INPUT |}
            (TwoColoring.mk [] (replicate 4 SIZE_MAX)) [3; 2; 1; 0]
  = Exit 3.
Proof. reflexivity. Qed.

Example construct_two_triples :
  construct {| getNumberOfGates := 7;
               getGateOperands := λ g, match g with
                                       | 4 => [0; 1] | 5 => [2; 3] | 6 => [4; 5]
                                       | _ => []
                                       end;
               getGateType := λ g, if g <? 4 then INPUT else AND |}
            (TwoColoring.mk [TwoColor.mk 0 1 [4]; TwoColor.mk 2 3 [5]; TwoColor.mk 4 5 [6]]
                            [SIZE_MAX; SIZE_MAX; SIZE_MAX; SIZE_MAX; 0; 1; 2])
            [6; 5; 4; 3; 2; 1; 0]
  = Done {| colors := [ThreeColor.mk 0 1 5 [6]; ThreeColor.mk 2 3 4 [6]];
            gateColors := [[]; []; []; []; []; []; [0; 1]];
            parentsToColor := {[ [0; 1; 5] := 0; [2; 3; 4] := 1 ]};
            negationUsers := replicate 7 SIZE_MAX;
            next_color_id_ := 2 |}.
Proof. vm_compute. reflexivity. Qed.

(** ** Properties of the three-coloring pass *)

(** C10.  A binary gate whose TwoColor exists, while neither parent of that
    TwoColor has a TwoColor of its own, is skipped by the constructor: its
    iteration leaves every table as it was, so the gate receives no
    ThreeColor. *)
Theorem gate_without_colored_parents_is_skipped
    circuit twoColoring st g x y two_color tc :
  getGateOperands circuit g = [x; y] →
  TwoColoring.gateColor twoColoring !! N.to_nat g = Some two_color →
  two_color ≠ SIZE_MAX →
  TwoColoring.colors twoColoring !! N.to_nat two_color = Some tc →
  TwoColoring.gateColor twoColoring !! N.to_nat (TwoColor.first_parent tc) = Some SIZE_MAX →
  TwoColoring.gateColor twoColoring !! N.to_nat (TwoColor.second_parent tc) = Some SIZE_MAX →
  processGate circuit twoColoring st g = Done st.
Proof.
  intros Hops Hg Hne Htc H1 H2. unfold processGate, processBinary. rewrite Hops.
  apply vec_at_Done in Hg, Htc, H1, H2. rewrite Hg. simpl.
  apply N.eqb_neq in Hne. rewrite Hne, Htc. simpl. rewrite H1. simpl. by rewrite H2.
Qed.

Lemma gate_without_colored_parents_is_skipped_witness :
  processGate example_circuit example_twoColoring (initial example_circuit) 3
    = Done (initial example_circuit).
Proof.
  apply (gate_without_colored_parents_is_skipped example_circuit example_twoColoring
           (initial example_circuit) 3 0 1 0 (TwoColor.mk 0 1 [3]));
    [reflexivity | reflexivity | vm_compute; discriminate | reflexivity..].
Defined.

(** Painting with a list of colors that exist cannot throw. *)
Lemma foldM_paintGate_total g cs : ∀ st,
  g < N.of_nat (length (gateColors st)) →
  Forall (λ c, c < N.of_nat (length (colors st))) cs →
  ∃ st', foldM (λ st color, paintGate st g color) st cs = Done st'.
Proof.
  induction cs as [|c cs IH]; intros st Hg Hcs; simpl; [eauto|].
  apply Forall_cons in Hcs as [Hc Hcs].
  destruct (paintGate_ok st g c Hc Hg) as [st1 H1]. rewrite H1. simpl.
  destruct (paintGate_alter _ _ _ _ H1) as (Hgc & Hl & _).
  apply IH; [by rewrite Hgc, length_alter | by rewrite Hl].
Qed.

Lemma foldM_paintGate_colors g cs : ∀ st st',
  foldM (λ st color, paintGate st g color) st cs = Done st' →
  ∀ c col, colors st !! N.to_nat c = Some col →
    ∃ col', colors st' !! N.to_nat c = Some col'
      ∧ ThreeColor.getParents col' = ThreeColor.getParents col
      ∧ ThreeColor.getGates col'
          = ThreeColor.getGates col ++ replicate (length (filter (λ x, x = c) cs)) g.
Proof.
  induction cs as [|c0 cs IH]; intros st st' H c col Hcol; simpl in H.
  - simplify_eq. exists col. split_and!; try done. simpl. by rewrite app_nil_r.
  - apply bind_Done in H as (st1 & H1 & H).
    apply paintGate_inv in H1 as (col0 & old & Hcol0 & Hold & ->).
    apply lookup_lt_Some in Hcol0 as Hlt.
    destruct (decide (c0 = c)) as [->|Hne].
    + assert (col0 = col) as -> by congruence.
      destruct (IH _ _ H c (ThreeColor.addGate col g)) as (col' & Hc' & Hp & Hg).
      { simpl. by apply list_lookup_insert_eq. }
      exists col'. split_and!; try done.
      rewrite Hg, filter_cons_True by done. simpl.
      unfold ThreeColor.getGates. simpl. by rewrite <- app_assoc.
    + destruct (IH _ _ H c col) as (col' & Hc' & Hp & Hg).
      { simpl. rewrite list_lookup_insert_ne; [done|]. lia. }
      exists col'. split_and!; try done.
      by rewrite Hg, filter_cons_False.
Qed.

Lemma processUnary_colors circuit st g operand st' :
  processUnary circuit st g operand = Done st' →
  ∃ cs, gateColors st !! N.to_nat operand = Some cs
    ∧ ∀ c col, colors st !! N.to_nat c = Some col →
        ∃ col', colors st' !! N.to_nat c = Some col'
          ∧ ThreeColor.getParents col' = ThreeColor.getParents col
          ∧ ThreeColor.getGates col'
              = ThreeColor.getGates col ++ replicate (length (filter (λ x, x = c) cs)) g.
Proof.
  unfold processUnary. intros H.
  apply bind_Done in H as (cs & Hcs & H). apply vec_at_Done in Hcs.
  apply bind_Done in H as (st1 & H1 & H).
  exists cs. split; [done|]. intros c col Hcol.
  destruct (foldM_paintGate_colors _ _ _ _ H1 c col Hcol) as (col' & Hc' & Hp & Hg).
  exists col'. split_and!; try done.
  destruct (decide _); [|by simplify_eq].
  apply bind_Done in H as (u & _ & H). by simplify_eq.
Qed.

(** C8.  A gate [g] with the single operand [a] (a different gate, as in any
    DAG) whose colors exist is painted with exactly the ColorIds [a] carries
    when [g] is processed, in the same order: these ids are appended to the
    entry of [g] in [gateColors], and [g] is appended to the gates of each
    of these colors, once for every occurrence of the color among them,
    while the parents of every color and the gates of the other colors stay
    as they were.  No color is created; and [negationUsers[a]] becomes [g]
    exactly when the type of [g] is NOT. *)
Theorem unary_gate_inherits_colors circuit twoColoring st g a cs old :
  getGateOperands circuit g = [a] → a ≠ g →
  gateColors st !! N.to_nat a = Some cs →
  gateColors st !! N.to_nat g = Some old →
  Forall (λ c, c < N.of_nat (length (colors st))) cs →
  a < N.of_nat (length (negationUsers st)) →
  ∃ st', processGate circuit twoColoring st g = Done st'
    ∧ gateColors st' = <[N.to_nat g := old ++ cs]> (gateColors st)
    ∧ negationUsers st' =
        (if decide (getGateType circuit g = NOT)
         then <[N.to_nat a := g]> (negationUsers st)
         else negationUsers st)
    ∧ parentsToColor st' = parentsToColor st
    ∧ length (colors st') = length (colors st)
    ∧ next_color_id_ st' = next_color_id_ st
    ∧ (∀ c col, colors st !! N.to_nat c = Some col →
         ∃ col', colors st' !! N.to_nat c = Some col'
           ∧ ThreeColor.getParents col' = ThreeColor.getParents col
           ∧ ThreeColor.getGates col'
               = ThreeColor.getGates col
                   ++ replicate (length (filter (λ x, x = c) cs)) g)
    ∧ (∀ c, c ∈ cs →
         ∃ col', colors st' !! N.to_nat c = Some col' ∧ g ∈ ThreeColor.getGates col').
Proof.
  intros Hops Hne Ha Hg Hcs Hneg.
  assert (∃ st', processGate circuit twoColoring st g = Done st') as [st' H].
  { unfold processGate, processUnary. rewrite Hops.
    apply vec_at_Done in Ha as ->. simpl.
    destruct (foldM_paintGate_total g cs st) as [st1 H1]; [|done|].
    { apply lookup_lt_Some in Hg. lia. }
    rewrite H1. simpl. destruct (decide _); [|eauto].
    destruct (foldM_paintGate _ _ _ _ H1) as (_ & _ & Hn & _).
    destruct (vec_at_lt (negationUsers st1) a) as (u & -> & _); [by rewrite Hn|].
    simpl. eauto. }
  exists st'. split; [done|].
  unfold processGate in H. rewrite Hops in H.
  destruct (processUnary_colors _ _ _ _ _ H) as (cs0 & Hcs0 & Hcols).
  apply processUnary_inv in H as (cs' & Hcs' & Hgc & Hl & Hm & Hx & Hn & _).
  simplify_eq. split_and!; try done.
  - rewrite Hgc. apply list_eq. intros i. rewrite list_lookup_alter, list_lookup_insert.
    apply lookup_lt_Some in Hg as Hlt.
    repeat case_decide; try lia; subst; rewrite ?Hg; done.
  - intros c Hc. rewrite Forall_forall in Hcs. specialize (Hcs c Hc).
    destruct (lookup_lt_is_Some_2 (colors st) (N.to_nat c)) as [col Hcol]; [lia|].
    destruct (Hcols c col Hcol) as (col' & Hc' & _ & Hgates).
    exists col'. split; [done|]. rewrite Hgates. apply elem_of_app. right.
    assert (c ∈ filter (λ x, x = c) cs) as Hin by (by apply list_elem_of_filter).
    destruct (filter (λ x, x = c) cs); [by apply elem_of_nil in Hin|].
    simpl. apply elem_of_cons. by left.
Qed.

Lemma unary_gate_inherits_colors_witness :
  ∃ st', processGate example_circuit example_twoColoring example_before_6 6 = Done st'
    ∧ gateColors st' = [[]; []; []; []; []; [0]; [0]; []]
    ∧ negationUsers st' =
        [SIZE_MAX; SIZE_MAX; SIZE_MAX; SIZE_MAX; SIZE_MAX; 6; SIZE_MAX; SIZE_MAX]
    ∧ ∃ col', colors st' !! N.to_nat 0 = Some col'
        ∧ ThreeColor.getParents col' = [0; 1; 2]
        ∧ ThreeColor.getGates col' = [5; 6].
Proof.
  destruct (unary_gate_inherits_colors example_circuit example_twoColoring
              example_before_6 6 5 [0] []) as (st' & H & Hg & Hn & _ & _ & _ & Hc & _);
    [reflexivity | lia | reflexivity | reflexivity | repeat constructor | simpl; lia |].
  exists st'. split; [exact H|]. split; [rewrite Hg; reflexivity|].
  split; [rewrite Hn; reflexivity|].
  destruct (Hc 0 (ThreeColor.mk 0 1 2 [5])) as (col' & Hc' & Hp & Hgates); [reflexivity|].
  exists col'. split; [exact Hc'|]. split; [exact Hp | exact Hgates].
Defined.

Lemma sorted_triple_key col :
  Sorted N.le (ThreeColor.getParents col) →
  ThreeColor.getParents col =
    ThreeColor.sortedParents (ThreeColor.first_parent col) (ThreeColor.second_parent col)
                             (ThreeColor.third_parent col).
Proof. intros Hs. symmetry. by apply sortedParents_id. Qed.

(** C5.  When the constructor completes (on a sorting short enough for the
    color counter not to wrap), [parentsToColor] is a bijection between its
    keys and the indices of [colors]: a key is an ascending triple and maps
    to an index of [colors] whose color has exactly that triple as its
    sorted parents; two keys with the same ColorId are equal; and every
    index of [colors] is the image of a key.  The counter equals the number
    of colors. *)
Theorem parentsToColor_bijection circuit twoColoring gate_sorting st :
  2 * N.of_nat (length gate_sorting) < SIZE_MOD →
  construct circuit twoColoring gate_sorting = Done st →
  (∀ k c, parentsToColor st !! k = Some c →
     c < N.of_nat (length (colors st)) ∧ Sorted N.le k ∧ length k = 3%nat
     ∧ ∃ col, colors st !! N.to_nat c = Some col
         ∧ k = ThreeColor.sortedParents (ThreeColor.first_parent col)
                 (ThreeColor.second_parent col) (ThreeColor.third_parent col))
  ∧ (∀ k1 k2 c, parentsToColor st !! k1 = Some c → parentsToColor st !! k2 = Some c → k1 = k2)
  ∧ (∀ c, c < N.of_nat (length (colors st)) → ∃ k, parentsToColor st !! k = Some c)
  ∧ getColorsNumber st = N.of_nat (length (colors st)).
Proof.
  intros Hb H. unfold construct in H.
  apply loop_WF in H as [[Hn Hm Hc Hg] _];
    [|apply initial_WF|simpl; rewrite length_reverse; lia].
  split_and!.
  - intros k c Hk. destruct (Hm _ _ Hk) as (col & Hcol & Hp).
    destruct (Hc _ _ Hcol) as [_ Hs]. apply lookup_lt_Some in Hcol as Hlt.
    split_and!; [lia|by rewrite <- Hp|by rewrite <- Hp|].
    exists col. split; [done|]. rewrite <- Hp. by apply sorted_triple_key.
  - intros k1 k2 c H1 H2.
    destruct (Hm _ _ H1) as (col1 & Hcol1 & <-).
    destruct (Hm _ _ H2) as (col2 & Hcol2 & <-). congruence.
  - intros c Hlt. destruct (lookup_lt_is_Some_2 (colors st) (N.to_nat c)) as [col Hcol]; [lia|].
    exists (ThreeColor.getParents col). destruct (Hc _ _ Hcol) as [-> _]. f_equal. lia.
  - done.
Qed.

Lemma parentsToColor_bijection_witness :
  (∀ k c, parentsToColor example_result !! k = Some c →
     c < N.of_nat (length (colors example_result)) ∧ Sorted N.le k ∧ length k = 3%nat
     ∧ ∃ col, colors example_result !! N.to_nat c = Some col
         ∧ k = ThreeColor.sortedParents (ThreeColor.first_parent col)
                 (ThreeColor.second_parent col) (ThreeColor.third_parent col))
  ∧ (∀ k1 k2 c, parentsToColor example_result !! k1 = Some c →
                parentsToColor example_result !! k2 = Some c → k1 = k2)
  ∧ (∀ c, c < N.of_nat (length (colors example_result)) →
          ∃ k, parentsToColor example_result !! k = Some c)
  ∧ getColorsNumber example_result = N.of_nat (length (colors example_result)).
Proof.
  apply (parentsToColor_bijection example_circuit example_twoColoring example_sorting);
    [vm_compute; reflexivity | vm_compute; reflexivity].
Defined.

(** C9.  On a valid input (operand ids and the parents of every TwoColor are
    gate ids, the two-coloring has one entry per gate, the sorting holds gate
    ids only) no range-checked access of the constructor throws; and when the
    constructor completes, [gateColors] has one entry per gate and every
    ColorId stored in it is an index of [colors]. *)
Theorem range_checked_accesses_never_fail circuit twoColoring gate_sorting :
  ValidInput circuit twoColoring →
  Forall (λ g, g < getNumberOfGates circuit) gate_sorting →
  2 * N.of_nat (length gate_sorting) < SIZE_MOD →
  construct circuit twoColoring gate_sorting ≠ OutOfRange
  ∧ ∀ st, construct circuit twoColoring gate_sorting = Done st →
      length (gateColors st) = N.to_nat (getNumberOfGates circuit)
      ∧ ∀ g cs c, gateColors st !! N.to_nat g = Some cs → c ∈ cs →
          c < N.of_nat (length (colors st)).
Proof.
  intros Hvalid Hl Hb.
  destruct (construct_ok circuit twoColoring Hvalid gate_sorting Hl Hb)
    as [(st & H & Hgood & _)|(g & H & _)]; rewrite H; split; try done.
  intros st' ?; simplify_eq. split; [apply Hgood|].
  intros g cs c Hcs Hc. pose proof (Good_colors _ _ _ _ _ Hgood Hcs) as HF.
  rewrite Forall_forall in HF. by apply HF.
Qed.

Lemma range_checked_accesses_never_fail_witness :
  construct example_circuit example_twoColoring example_sorting ≠ OutOfRange
  ∧ ∀ st, construct example_circuit example_twoColoring example_sorting = Done st →
      length (gateColors st) = N.to_nat (getNumberOfGates example_circuit)
      ∧ ∀ g cs c, gateColors st !! N.to_nat g = Some cs → c ∈ cs →
          c < N.of_nat (length (colors st)).
Proof.
  apply (range_checked_accesses_never_fail example_circuit example_twoColoring example_sorting);
    [exact example_valid | exact example_sorting_ids | vm_compute; reflexivity].
Defined.

Lemma elem_of_gateIds n g : g ∈ gateIds n ↔ g < n.
Proof.
  unfold gateIds. rewrite list_elem_of_fmap. split.
  - intros (i & -> & Hi). apply elem_of_seq in Hi. lia.
  - intros Hg. exists (N.to_nat g). split; [lia|]. apply elem_of_seq. lia.
Qed.

(** C6.  On a valid input whose sorting lists every gate of the circuit
    once, the constructor exits on a gate exactly when the circuit has a
    gate with more than two operands; the gate named in the message is such
    a gate; and when every gate has at most two operands the constructor
    runs to completion. *)
Theorem exit_iff_gate_with_more_than_two_operands circuit twoColoring gate_sorting :
  ValidInput circuit twoColoring →
  gate_sorting ≡ₚ gateIds (getNumberOfGates circuit) →
  2 * getNumberOfGates circuit < SIZE_MOD →
  ((∃ g, construct circuit twoColoring gate_sorting = Exit g)
     ↔ (∃ g, g < getNumberOfGates circuit ∧ (2 < length (getGateOperands circuit g))%nat))
  ∧ (∀ g, construct circuit twoColoring gate_sorting = Exit g →
       g < getNumberOfGates circuit ∧ (2 < length (getGateOperands circuit g))%nat)
  ∧ ((∀ g, g < getNumberOfGates circuit → (length (getGateOperands circuit g) ≤ 2)%nat) →
       ∃ st, construct circuit twoColoring gate_sorting = Done st).
Proof.
  intros Hvalid Hperm Hb.
  assert (∀ g, g ∈ gate_sorting ↔ g < getNumberOfGates circuit) as Hin.
  { intros g. by rewrite Hperm, elem_of_gateIds. }
  assert (length gate_sorting = N.to_nat (getNumberOfGates circuit)) as Hlen.
  { rewrite Hperm. unfold gateIds. by rewrite length_fmap, length_seq. }
  destruct (construct_ok circuit twoColoring Hvalid gate_sorting)
    as [(st & H & _ & Hops)|(g & H & Hg & Hops)].
  { apply Forall_forall. intros g. apply Hin. }
  { lia. }
  - rewrite H. split_and!.
    + split; [by intros [g ?]|]. intros (g & Hg & Hops').
      apply Hin in Hg. eapply Forall_forall in Hops; [|done]. lia.
    + done.
    + eauto.
  - rewrite H. apply Hin in Hg. split_and!.
    + split; eauto.
    + intros g' ?; by simplify_eq.
    + intros Hall. specialize (Hall g Hg). lia.
Qed.

Lemma example_sorting_perm : example_sorting ≡ₚ gateIds (getNumberOfGates example_circuit).
Proof. vm_compute. apply (reverse_Permutation [0; 1; 2; 3; 4; 5; 6; 7]). Qed.

Lemma exit_iff_gate_with_more_than_two_operands_witness :
  ((∃ g, construct example_circuit example_twoColoring example_sorting = Exit g)
     ↔ (∃ g, g < getNumberOfGates example_circuit
             ∧ (2 < length (getGateOperands example_circuit g))%nat))
  ∧ (∀ g, construct example_circuit example_twoColoring example_sorting = Exit g →
       g < getNumberOfGates example_circuit
       ∧ (2 < length (getGateOperands example_circuit g))%nat)
  ∧ ((∀ g, g < getNumberOfGates example_circuit →
           (length (getGateOperands example_circuit g) ≤ 2)%nat) →
       ∃ st, construct example_circuit example_twoColoring example_sorting = Done st).
Proof.
  apply (exit_iff_gate_with_more_than_two_operands example_circuit example_twoColoring
           example_sorting);
    [exact example_valid | exact example_sorting_perm | vm_compute; reflexivity].
Defined.

Lemma gateColors_at_most_two_witness :
  length (gateColors example_result) = N.to_nat (getNumberOfGates example_circuit)
  ∧ ∀ g cs, gateColors example_result !! N.to_nat g = Some cs → (length cs ≤ 2)%nat.
Proof.
  apply (gateColors_at_most_two example_circuit example_twoColoring example_sorting
           example_result);
    [apply (bool_decide_unpack _); vm_compute; exact I | vm_compute; reflexivity].
Defined.

(** ** The 2-2 pattern *)

Lemma paintTriple_spec n b st g x y z :
  Good n (1 + b) st → g < n →
  ∃ st', paintTriple st g x y z = Done st' ∧ Good n b st'
    ∧ PaintedWithTriple g x y z st st'.
Proof.
  intros Hgood Hg.
  destruct (paintTriple_Good n b st g x y z Hgood Hg) as (st' & H & Hgood' & _).
  exists st'. split_and!; [done..|].
  pose proof (good_wf _ _ _ Hgood) as Hw. pose proof (good_room _ _ _ Hgood) as Hroom.
  rewrite paintTriple_unfold in H. unfold PaintedWithTriple.
  destruct (parentsToColor st !! ThreeColor.sortedParents x y z) as [cid|] eqn:E.
  - destruct (paintGate_alter _ _ _ _ H) as (Hgc & Hl & _ & Hm).
    apply paintGate_inv in H as (col & old & Hcol & Hold & ->). simpl in *.
    destruct (wf_map _ Hw _ _ E) as (col' & Hcol' & Hp). simplify_eq.
    exists cid, (ThreeColor.addGate col g).
    apply lookup_lt_Some in Hcol as Hlt.
    split_and!; try done; [by rewrite list_lookup_insert_eq | by eexists].
  - destruct (paintGate_alter _ _ _ _ H) as (Hgc & Hl & _ & Hm).
    apply paintGate_inv in H as (col & old & Hcol & Hold & ->). simpl in *.
    rewrite (wf_next _ Hw), Nat2N.id in *.
    rewrite lookup_app_r, Nat.sub_diag in Hcol by done. simplify_eq/=.
    exists (N.of_nat (length (colors st))), (ThreeColor.addGate (ThreeColor.new x y z) g).
    rewrite Nat2N.id.
    assert (<[length (colors st) := ThreeColor.addGate (ThreeColor.new x y z) g]>
              (colors st ++ [ThreeColor.new x y z])
            = colors st ++ [ThreeColor.addGate (ThreeColor.new x y z) g]) as ->.
    { rewrite <- (Nat.add_0_r (length (colors st))) at 1. by rewrite insert_app_r. }
    split_and!; try done.
    + apply lookup_insert_eq.
    + by rewrite lookup_app_r, Nat.sub_diag.
    + apply new_getParents.
    + by eexists.
    + rewrite N.mod_small; [done|]. simpl in Hroom. lia.
Qed.

(** C4.  Let [g] be a binary gate whose TwoColor has the parents [child_1]
    and [child_2], both of which carry a TwoColor, with parents (p1, p2) and
    (p3, p4).  When the search over the children's colors finds no common
    color and no 3-1 or 1-3 match, and the two scans for a 3-2 and a 2-3 match
    find nothing, the iteration completes and: if (p3, p4) contains p1, [g]
    receives exactly the color of the triple (p2, p3, p4); else if it
    contains p2, exactly the color of (p1, p3, p4); otherwise the color of
    (p1, p2, child_2) followed by the color of (p3, p4, child_1).  Each triple
    is created only when [parentsToColor] does not hold it yet. *)
Theorem two_two_pattern circuit twoColoring st g x y two_color tc c1 c2 tc1 tc2 C1 C2 :
  let n := getNumberOfGates circuit in
  let child_1 := TwoColor.first_parent tc in
  let child_2 := TwoColor.second_parent tc in
  let p1 := TwoColor.first_parent tc1 in
  let p2 := TwoColor.second_parent tc1 in
  let p3 := TwoColor.first_parent tc2 in
  let p4 := TwoColor.second_parent tc2 in
  Good n 2 st → g < n →
  getGateOperands circuit g = [x; y] →
  TwoColoring.gateColor twoColoring !! N.to_nat g = Some two_color →
  two_color ≠ SIZE_MAX →
  TwoColoring.colors twoColoring !! N.to_nat two_color = Some tc →
  TwoColoring.gateColor twoColoring !! N.to_nat child_1 = Some c1 → c1 ≠ SIZE_MAX →
  TwoColoring.colors twoColoring !! N.to_nat c1 = Some tc1 →
  TwoColoring.gateColor twoColoring !! N.to_nat child_2 = Some c2 → c2 ≠ SIZE_MAX →
  TwoColoring.colors twoColoring !! N.to_nat c2 = Some tc2 →
  scanChildren st child_1 child_2 = Done ([], SIZE_MAX, SIZE_MAX) →
  gateColors st !! N.to_nat child_1 = Some C1 →
  gateColors st !! N.to_nat child_2 = Some C2 →
  scanParents st p3 p4 C1 = Done SIZE_MAX →
  scanParents st p1 p2 C2 = Done SIZE_MAX →
  ∃ st', processGate circuit twoColoring st g = Done st'
    ∧ if TwoColor.hasParent tc2 p1 then PaintedWithTriple g p2 p3 p4 st st'
      else if TwoColor.hasParent tc2 p2 then PaintedWithTriple g p1 p3 p4 st st'
      else ∃ st1, PaintedWithTriple g p1 p2 child_2 st st1
                  ∧ PaintedWithTriple g p3 p4 child_1 st1 st'.
Proof.
  intros n child_1 child_2 p1 p2 p3 p4 Hgood Hg Hops Htwo Hne Htc
    Hc1 Hne1 Htc1 Hc2 Hne2 Htc2 Hscan HC1 HC2 H32 H23.
  apply vec_at_Done in Htwo, Htc, Hc1, Htc1, Hc2, Htc2, HC1, HC2.
  apply N.eqb_neq in Hne, Hne1, Hne2.
  unfold processGate, processBinary. rewrite Hops, Htwo. simpl.
  rewrite Hne, Htc. simpl. fold child_1 child_2. rewrite Hc1. simpl.
  rewrite Hne1. simpl. rewrite Hscan. simpl.
  unfold paintByPattern. simpl. rewrite Hc1, Hc2. simpl.
  unfold singlePattern. rewrite Hne1, Hne2, Htc1, Htc2. simpl.
  rewrite HC1, HC2. simpl. fold p1 p2 p3 p4. rewrite H32, H23. simpl.
  unfold pattern22. rewrite Htc1, Htc2. simpl. fold p1 p2 p3 p4.
  destruct (TwoColor.hasParent tc2 p1); [|destruct (TwoColor.hasParent tc2 p2)].
  - destruct (paintTriple_spec n 0 st g p2 p3 p4) as (st' & -> & _ & Hp);
      [eapply Good_weaken; [|done]; lia|done|eauto].
  - destruct (paintTriple_spec n 0 st g p1 p3 p4) as (st' & -> & _ & Hp);
      [eapply Good_weaken; [|done]; lia|done|eauto].
  - destruct (paintTriple_spec n 1 st g p1 p2 child_2) as (st1 & -> & Hgood1 & Hp1);
      [done..|]. simpl.
    destruct (paintTriple_spec n 0 st1 g p3 p4 child_1) as (st' & -> & _ & Hp2);
      [done..|eauto].
Qed.

Lemma two_two_pattern_witness :
  ∃ st', processGate example_circuit example_twoColoring (initial example_circuit) 5 = Done st'
    ∧ PaintedWithTriple 5 0 1 2 (initial example_circuit) st'.
Proof.
  destruct (two_two_pattern example_circuit example_twoColoring (initial example_circuit)
              5 3 4 2 (TwoColor.mk 3 4 [5; 7]) 0 1
              (TwoColor.mk 0 1 [3]) (TwoColor.mk 1 2 [4]) [] []) as (st' & H & Hp);
    [apply (initial_Good example_circuit 2); vm_compute; reflexivity
    | vm_compute; reflexivity | reflexivity | reflexivity | vm_compute; discriminate
    | reflexivity | reflexivity | vm_compute; discriminate | reflexivity
    | reflexivity | vm_compute; discriminate | reflexivity
    | reflexivity | reflexivity | reflexivity | reflexivity | reflexivity |].
  exists st'. split; [exact H | exact Hp].
Defined.

Local Open Scope Z_scope.

(** ** Facts about the extraction operators *)

Lemma read_size_t_bound database x :
  (x ≤ SIZE_MAX)%N → ((read_size_t database x).1 ≤ SIZE_MAX)%N.
Proof.
  intros Hx. unfold read_size_t.
  destruct (failbit database); [done|].
  destruct (tokens database) as [|[z|w] rest]; [done| |done].
  destruct ((0 <=? z) && (z <=? Z.of_N SIZE_MAX)) eqn:E1.
  - apply andb_true_iff in E1 as [H1 H2]. apply Z.leb_le in H1, H2.
    unfold SIZE_MAX in *. simpl. lia.
  - destruct ((z <? 0) && (- Z.of_N SIZE_MAX <=? z)) eqn:E2; [|done].
    apply andb_true_iff in E2 as [H1 H2].
    apply Z.ltb_lt in H1. apply Z.leb_le in H2. unfold SIZE_MOD, SIZE_MAX in *. simpl. lia.
Qed.

Lemma read_size_t_field (n : N) rest x :
  (n ≤ SIZE_MAX)%N →
  read_size_t (mkStream (TNum (Z.of_N n) :: rest) false) x = (n, mkStream rest false).
Proof.
  intros Hn. unfold read_size_t. cbn [failbit tokens].
  assert ((0 <=? Z.of_N n) && (Z.of_N n <=? Z.of_N SIZE_MAX) = true) as ->.
  { apply andb_true_iff. split; apply Z.leb_le; lia. }
  by rewrite N2Z.id.
Qed.

Lemma read_int32_field z rest x :
  INT32_MIN ≤ z ≤ INT32_MAX →
  read_int32 (mkStream (TNum z :: rest) false) x = (z, mkStream rest false).
Proof.
  intros Hz. unfold read_int32. cbn [failbit tokens].
  assert ((INT32_MIN <=? z) && (z <=? INT32_MAX) = true) as ->; [|done].
  apply andb_true_iff. split; apply Z.leb_le; lia.
Qed.

(** ** The gate loop *)

Lemma max_id_app l1 l2 : max_id (l1 ++ l2) = N.max (max_id l1) (max_id l2).
Proof. induction l1 as [|x l1 IH]; simpl; [by rewrite N.max_0_l|]. rewrite IH. lia. Qed.

Section GateLoop.
Variable stringToGateType : string → GateType.

(** With [max_index] at [SIZE_MAX] the condition [i <= max_index] cannot
    become false: the loop does not end. *)
Lemma parse_gates_diverges fuel : ∀ i database db idx,
  (i ≤ SIZE_MAX)%N →
  parse_gates stringToGateType fuel i SIZE_MAX database db idx = None.
Proof.
  induction fuel as [|fuel IH]; intros i database db idx Hi; simpl; [done|].
  apply N.leb_le in Hi as ->.
  assert ((i + 1) mod SIZE_MOD ≤ SIZE_MAX)%N as Hi'.
  { pose proof (N.mod_upper_bound (i + 1) SIZE_MOD). unfold SIZE_MOD, SIZE_MAX in *. lia. }
  destruct (read_string database "") as [operation database1].
  pose proof (read_size_t_bound database1 0%N) as H1.
  destruct (read_size_t database1 0%N) as [operand_1 database2]. simpl in H1.
  rewrite (N.max_l SIZE_MAX operand_1) by (apply H1; done).
  destruct (negb _).
  - pose proof (read_size_t_bound database2 0%N) as H2.
    destruct (read_size_t database2 0%N) as [operand_2 database3]. simpl in H2.
    rewrite (N.max_l SIZE_MAX operand_2) by (apply H2; done). by apply IH.
  - by apply IH.
Qed.

(** What a completed run of the gate loop has appended for the current
    record, and how many gate descriptions it has read. *)
Lemma parse_gates_count fuel : ∀ i m database db idx db' m' database',
  (i ≤ SIZE_MAX)%N → (m ≤ SIZE_MAX)%N →
  parse_gates stringToGateType fuel i m database db idx = Some (db', m', database') →
  ∃ gates operations,
    gates_operands db' = alter (λ l, l ++ gates) (Z.to_nat idx) (gates_operands db)
    ∧ gates_operations db' =
        alter (λ l, l ++ operations) (Z.to_nat idx) (gates_operations db)
    ∧ subcircuit_outputs db' = subcircuit_outputs db
    ∧ subcircuit_pattern_to_index db' = subcircuit_pattern_to_index db
    ∧ length operations = length gates
    ∧ m' = N.max m (max_id (concat gates))
    ∧ N.of_nat (length gates) = (m' + 1 - i)%N.
Proof.
  induction fuel as [|fuel IH]; intros i m database db idx db' m' database' Hi Hm H;
    simpl in H; [done|].
  destruct (N.leb_spec i m) as [Hle|Hgt].
  2:{ simplify_eq. exists [], []. split_and!; try done.
      - symmetry. apply list_alter_id. intros l. apply app_nil_r.
      - symmetry. apply list_alter_id. intros l. apply app_nil_r.
      - simpl. lia.
      - simpl. lia. }
  destruct (read_string database "") as [operation database1].
  pose proof (read_size_t_bound database1 0%N) as H1.
  destruct (read_size_t database1 0%N) as [operand_1 database2]. simpl in H1.
  assert (operand_1 ≤ SIZE_MAX)%N as Ho1 by (apply H1; done). clear H1.
  destruct (decide (i = SIZE_MAX)) as [->|Hne].
  { assert (m = SIZE_MAX) as -> by lia.
    rewrite (N.max_l SIZE_MAX operand_1) in H by done.
    destruct (negb _).
    - pose proof (read_size_t_bound database2 0%N) as H2.
      destruct (read_size_t database2 0%N) as [operand_2 database3]. simpl in H2.
      rewrite (N.max_l SIZE_MAX operand_2) in H by (apply H2; done).
      by rewrite parse_gates_diverges in H.
    - by rewrite parse_gates_diverges in H. }
  assert ((i + 1) mod SIZE_MOD = i + 1)%N as Hmod.
  { apply N.mod_small. unfold SIZE_MOD, SIZE_MAX in *. lia. }
  rewrite Hmod in H.
  destruct (negb _).
  - pose proof (read_size_t_bound database2 0%N) as H2.
    destruct (read_size_t database2 0%N) as [operand_2 database3]. simpl in H2.
    assert (operand_2 ≤ SIZE_MAX)%N as Ho2 by (apply H2; done). clear H2.
    apply IH in H as (gates & operations & Hg & Hop & Hout & Hmap & Hlen & Hmax & Hcount);
      [|unfold SIZE_MAX in *; lia..]. simpl in *.
    exists ([operand_1; operand_2] :: gates), (stringToGateType operation :: operations).
    unfold push_back_at in *.
    rewrite list_alter_alter_eq in Hg. rewrite list_alter_alter_eq in Hop.
    split_and!; try done.
    + rewrite Hg. apply list_alter_ext; [|done]. intros l _. simpl. by rewrite <- app_assoc.
    + rewrite Hop. apply list_alter_ext; [|done]. intros l _. simpl. by rewrite <- app_assoc.
    + simpl. by rewrite Hlen.
    + rewrite Hmax. simpl. lia.
    + simpl length. lia.
  - apply IH in H as (gates & operations & Hg & Hop & Hout & Hmap & Hlen & Hmax & Hcount);
      [|unfold SIZE_MAX in *; lia..]. simpl in *.
    exists ([operand_1] :: gates), (stringToGateType operation :: operations).
    unfold push_back_at in *.
    rewrite list_alter_alter_eq in Hg. rewrite list_alter_alter_eq in Hop.
    split_and!; try done.
    + rewrite Hg. apply list_alter_ext; [|done]. intros l _. simpl. by rewrite <- app_assoc.
    + rewrite Hop. apply list_alter_ext; [|done]. intros l _. simpl. by rewrite <- app_assoc.
    + simpl. by rewrite Hlen.
    + rewrite Hmax. simpl. lia.
    + simpl length. lia.
Qed.

Lemma read_outputs_max k : ∀ database m outputs m' database',
  read_outputs k database m = (outputs, m', database') →
  m' = N.max m (max_id outputs) ∧ length outputs = k
  ∧ ((m ≤ SIZE_MAX)%N → (m' ≤ SIZE_MAX)%N).
Proof.
  induction k as [|k IH]; intros database m outputs m' database' H; simpl in H.
  { simplify_eq. simpl. split_and!; [lia|done|done]. }
  pose proof (read_size_t_bound database 0%N) as H1.
  destruct (read_size_t database 0%N) as [output database1]. simpl in H1.
  destruct (read_outputs k database1 (N.max m output)) as [[outs m1] database2] eqn:E.
  simplify_eq. apply IH in E as (-> & <- & Hb). simpl.
  split_and!; [lia|done|]. intros Hm. apply Hb. apply N.max_lub; [done|]. by apply H1.
Qed.

(** C3 (what the loader does).  Whatever the rest of the file holds, when the body of
    the loop completes for record number [idx] (the tables holding one entry
    for each earlier record) it has appended one list of output ids and one
    list of gate descriptions, and the number of gate descriptions read is
    [M + 1 - inputs_number], where [M] is the largest id among the record's
    output ids and the operand ids of the descriptions read (none is read
    when [M < inputs_number]).  The tables then hold one entry for each
    record up to [idx], ready for the next record. *)
Theorem record_gate_count fuel database db idx inputs_number db' max_index database' :
  (inputs_number ≤ SIZE_MAX)%N → 0 ≤ idx →
  length (gates_operands db) = Z.to_nat idx →
  length (gates_operations db) = Z.to_nat idx →
  read_record stringToGateType fuel database db idx inputs_number
    = Some (db', max_index, database') →
  ∃ cur_outputs gates operations,
    subcircuit_outputs db' = subcircuit_outputs db ++ [cur_outputs]
    ∧ gates_operands db' = gates_operands db ++ [gates]
    ∧ gates_operations db' = gates_operations db ++ [operations]
    ∧ length operations = length gates
    ∧ max_index = max_id (cur_outputs ++ concat gates)
    ∧ N.of_nat (length gates) = (max_index + 1 - inputs_number)%N
    ∧ length (gates_operands db') = Z.to_nat (idx + 1)
    ∧ length (gates_operations db') = Z.to_nat (idx + 1).
Proof.
  intros Hi Hidx Hl1 Hl2 H. unfold read_record in H.
  destruct (read_size_t database 0%N) as [outputs_number database1].
  destruct (read_patterns _ database1) as [outputs_patterns database2].
  destruct (read_outputs _ database2 0%N) as [[cur_outputs m] database3] eqn:Eo.
  apply read_outputs_max in Eo as (Hm & _ & Hb).
  apply parse_gates_count in H
    as (gates & operations & Hg & Hop & Hout & _ & Hlen & Hmax & Hcount);
    [|done|apply Hb; unfold SIZE_MAX; lia]. simpl in *.
  exists cur_outputs, gates, operations.
  rewrite <- Hl1 in Hg. rewrite <- Hl2 in Hop.
  rewrite alter_app_r_alt, Nat.sub_diag in Hg by done.
  rewrite alter_app_r_alt, Nat.sub_diag in Hop by done.
  split_and!; try done.
  - rewrite max_id_app, Hmax, Hm. lia.
  - rewrite Hg, length_app. simpl. lia.
  - rewrite Hop, length_app. simpl. lia.
Qed.
End GateLoop.

(** ** Database files written record by record *)

Lemma insert_keys_not_later rs : ∀ idx m key,
  (∀ r, r ∈ rs → rec_patterns r ≠ key) → insert_keys rs idx m !! key = m !! key.
Proof.
  induction rs as [|r rs IH]; intros idx m key Hne; simpl; [done|].
  rewrite IH.
  - apply lookup_insert_ne, Hne, elem_of_cons. by left.
  - intros r' Hr'. apply Hne, elem_of_cons. by right.
Qed.

Lemma insert_keys_last rs : ∀ idx m j r,
  rs !! j = Some r →
  (∀ j' r', (j < j')%nat → rs !! j' = Some r' → rec_patterns r' ≠ rec_patterns r) →
  insert_keys rs idx m !! rec_patterns r = Some (idx + Z.of_nat j).
Proof.
  induction rs as [|r0 rs IH]; intros idx m j r Hj Hlast; [done|].
  destruct j as [|j]; simpl in *.
  - simplify_eq. rewrite insert_keys_not_later.
    + rewrite lookup_insert_eq. f_equal. lia.
    + intros r' Hr'. apply list_elem_of_lookup in Hr' as [j' Hj'].
      apply (Hlast (S j')); [lia|done].
  - rewrite (IH _ _ j r); [f_equal; lia|done|].
    intros j' r' Hlt Hj'. apply (Hlast (S j')); [lia|done].
Qed.

Lemma insert_keys_dom rs : ∀ idx m key,
  is_Some (insert_keys rs idx m !! key)
  ↔ is_Some (m !! key) ∨ ∃ r, r ∈ rs ∧ rec_patterns r = key.
Proof.
  induction rs as [|r0 rs IH]; intros idx m key; simpl.
  - split; [by left|]. intros [?|(r & Hr & _)]; [done|]. by apply elem_of_nil in Hr.
  - rewrite IH, lookup_insert. split.
    + intros [Hs|(r & Hr & Hk)].
      * case_decide; [right; exists r0; split; [apply elem_of_cons; by left|done] | by left].
      * right. exists r. split; [apply elem_of_cons; by right|done].
    + intros [Hs|(r & Hr & Hk)].
      * left. case_decide; [by eexists|done].
      * apply elem_of_cons in Hr as [->|Hr].
        -- left. rewrite decide_True by done. by eexists.
        -- right. by exists r.
Qed.

Lemma read_patterns_fields ps : ∀ rest,
  Forall (λ z, INT32_MIN ≤ z ≤ INT32_MAX) ps →
  read_patterns (length ps) (mkStream ((TNum <$> ps) ++ rest) false)
    = (ps, mkStream rest false).
Proof.
  induction ps as [|z ps IH]; intros rest Hps; [done|].
  apply Forall_cons in Hps as [Hz Hps]. cbn [length read_patterns fmap list_fmap app].
  rewrite read_int32_field by done. by rewrite IH.
Qed.

Lemma read_outputs_fields outs : ∀ rest m,
  Forall (λ o, (o < SIZE_MAX)%N) outs →
  read_outputs (length outs) (mkStream ((num <$> outs) ++ rest) false) m
    = (outs, N.max m (max_id outs), mkStream rest false).
Proof.
  induction outs as [|o outs IH]; intros rest m Houts.
  { simpl. by rewrite N.max_0_r. }
  apply Forall_cons in Houts as [Ho Houts]. cbn [length read_outputs fmap list_fmap app].
  unfold num at 1. rewrite read_size_t_field by lia. rewrite IH by done.
  simpl. by rewrite N.max_assoc.
Qed.

Section WellFormedFile.
Variable stringToGateType : string → GateType.

Lemma parse_gates_fields gs : ∀ fuel i m rest db idx,
  Forall wf_gate gs → gates_closed i m gs → (m < SIZE_MAX)%N → (length gs < fuel)%nat →
  ∃ db' m',
    parse_gates stringToGateType fuel i m
      (mkStream (concat (gate_fields <$> gs) ++ rest) false) db idx
      = Some (db', m', mkStream rest false)
    ∧ subcircuit_pattern_to_index db' = subcircuit_pattern_to_index db.
Proof.
  induction gs as [|g gs IH]; intros fuel i m rest db idx Hwf Hcl Hm Hfuel;
    (destruct fuel as [|fuel]; [simpl in Hfuel; lia|]); simpl in Hcl.
  { simpl. apply N.leb_gt in Hcl as ->. eauto. }
  destruct Hcl as [Hle Hcl]. apply Forall_cons in Hwf as [[Hops Hlen] Hwf].
  cbn [parse_gates]. apply N.leb_le in Hle as Hleb. rewrite Hleb.
  assert ((i + 1) mod SIZE_MOD = i + 1)%N as ->.
  { apply N.mod_small. unfold SIZE_MOD, SIZE_MAX in *. lia. }
  destruct g as [op operands]. simpl in *.
  unfold read_string. cbn [failbit tokens].
  destruct (String.eqb op "NOT") eqn:Eop; simpl in Hlen.
  - destruct operands as [|o1 [|? ?]]; simplify_eq/=.
    apply Forall_cons in Hops as [Ho1 _].
    unfold num at 1. rewrite read_size_t_field by (unfold SIZE_MAX in *; lia).
    rewrite N.max_0_r in Hcl.
    edestruct (IH fuel (i + 1)%N (N.max m o1) rest) as (db' & m' & -> & Hmap);
      [done|done|unfold SIZE_MAX in *; lia|lia|]. eauto.
  - destruct operands as [|o1 [|o2 [|? ?]]]; simplify_eq/=.
    apply Forall_cons in Hops as [Ho1 Hops]. apply Forall_cons in Hops as [Ho2 _].
    unfold num at 1. rewrite read_size_t_field by (unfold SIZE_MAX in *; lia).
    unfold num at 1. rewrite read_size_t_field by (unfold SIZE_MAX in *; lia).
    rewrite N.max_0_r, N.max_assoc in Hcl.
    edestruct (IH fuel (i + 1)%N (N.max (N.max m o1) o2) rest) as (db' & m' & -> & Hmap);
      [done|done|unfold SIZE_MAX in *; lia|lia|]. eauto.
Qed.

Lemma record_fields_length r :
  wf_record r → (2 + length (rec_gates r) ≤ length (record_fields r))%nat.
Proof.
  intros Hwf. unfold record_fields. cbn [length]. rewrite !length_app.
  assert (length (rec_gates r) ≤ length (concat (gate_fields <$> rec_gates r)))%nat; [|lia].
  induction (rec_gates r) as [|g gs IH]; [done|].
  rewrite fmap_cons. cbn [concat length]. rewrite length_app. unfold gate_fields at 1.
  cbn [length]. lia.
Qed.

(** The body of the loop on a well-formed record: it consumes the record
    and binds the record's output codes, as listed, to its index. *)
Lemma read_record_fields r fuel rest db idx :
  wf_record r → (length (rec_gates r) < fuel)%nat →
  ∃ db' m',
    read_record stringToGateType fuel
      (mkStream (TNum (Z.of_nat (length (rec_outputs r)))
                   :: (TNum <$> rec_patterns r) ++ (num <$> rec_outputs r)
                   ++ concat (gate_fields <$> rec_gates r) ++ rest) false)
      db idx (rec_inputs r)
      = Some (db', m', mkStream rest false)
    ∧ subcircuit_pattern_to_index db' =
        <[rec_patterns r := idx]> (subcircuit_pattern_to_index db).
Proof.
  intros [Hin Hcount Hnum Hpat Hout Hgates Hclosed] Hfuel. unfold read_record.
  rewrite <- (nat_N_Z (length (rec_outputs r))).
  rewrite read_size_t_field by done. rewrite Nat2N.id.
  pose proof (read_patterns_fields (rec_patterns r)
    ((num <$> rec_outputs r) ++ concat (gate_fields <$> rec_gates r) ++ rest) Hpat) as Hrp.
  rewrite Hcount in Hrp. rewrite Hrp.
  rewrite read_outputs_fields by done. rewrite N.max_0_l.
  edestruct (parse_gates_fields (rec_gates r) fuel (rec_inputs r)
               (max_id (rec_outputs r)) rest) as (db' & m' & -> & Hmap); [done..| |done|].
  { clear -Hout. induction Hout as [|o outs Ho _ IH]; simpl; unfold SIZE_MAX in *; lia. }
  eauto.
Qed.

Lemma read_db_loop_fields rs : ∀ fuel db idx x,
  Forall wf_record rs → (length (file_fields rs) + 2 ≤ fuel)%nat →
  ∃ db', read_db_loop stringToGateType fuel (mkStream (file_fields rs) false) db idx x
           = Some db'
    ∧ subcircuit_pattern_to_index db' =
        insert_keys rs idx (subcircuit_pattern_to_index db).
Proof.
  induction rs as [|r rs IH]; intros fuel db idx x Hwf Hfuel;
    (destruct fuel as [|fuel]; [lia|]).
  { simpl. eauto. }
  apply Forall_cons in Hwf as [Hr Hwf].
  pose proof (record_fields_length r Hr) as Hlen.
  unfold file_fields in *. cbn [fmap list_fmap concat] in *. rewrite length_app in Hfuel.
  cbn [read_db_loop]. unfold record_fields at 1. cbn [app]. unfold num at 1.
  rewrite read_size_t_field by apply Hr. cbn [failbit].
  rewrite <- !app_assoc.
  edestruct (read_record_fields r fuel (concat (record_fields <$> rs)) db idx)
    as (db1 & m1 & -> & Hmap1); [done|lia|].
  edestruct (IH fuel db1 (idx + 1) (rec_inputs r)) as (db' & -> & Hmap); [done|lia|].
  exists db'. split; [done|]. by rewrite Hmap, Hmap1.
Qed.

(** On a well-formed file the loader completes, and its map is the one
    obtained by binding, record after record, the output codes to the index
    of the record. *)
Lemma read_db_fields rs fuel :
  Forall wf_record rs → (length (file_fields rs) + 2 ≤ fuel)%nat →
  ∃ db, read_db stringToGateType fuel (file_fields rs) = Some db
    ∧ subcircuit_pattern_to_index db = insert_keys rs 0 ∅.
Proof. intros Hwf Hfuel. by apply read_db_loop_fields. Qed.
End WellFormedFile.

(** ** Example database files *)

Ltac solve_wf_record :=
  split; simpl; repeat constructor; simpl;
  unfold SIZE_MAX, INT32_MIN, INT32_MAX; try lia; try done.

Lemma record_and_wf : wf_record record_and.
Proof. solve_wf_record. Qed.

Lemma record_nand_not_wf : wf_record record_nand_not.
Proof. solve_wf_record. Qed.

Lemma record_or_and_wf : wf_record record_or_and.
Proof. solve_wf_record. Qed.

(** ** Properties of the database loader *)

(** C7.  In a well-formed database file, when an earlier record has the same
    vector of output codes as record [j], and no record after [j] has it, the
    loader completes and its map sends that vector to [j]: the later record
    overwrites the earlier one. *)
Theorem later_duplicate_overwrites stringToGateType rs fuel i j r1 r2 :
  Forall wf_record rs → (length (file_fields rs) + 2 ≤ fuel)%nat →
  rs !! i = Some r1 → rs !! j = Some r2 → (i < j)%nat →
  rec_patterns r1 = rec_patterns r2 →
  (∀ j' r', (j < j')%nat → rs !! j' = Some r' → rec_patterns r' ≠ rec_patterns r2) →
  ∃ db, read_db stringToGateType fuel (file_fields rs) = Some db
    ∧ subcircuit_pattern_to_index db !! rec_patterns r1 = Some (Z.of_nat j).
Proof.
  intros Hwf Hfuel Hi Hj Hlt Heq Hlast.
  destruct (read_db_fields stringToGateType rs fuel Hwf Hfuel) as (db & Hdb & Hmap).
  exists db. split; [done|]. rewrite Hmap, Heq.
  by rewrite (insert_keys_last rs 0 ∅ j r2).
Qed.

Lemma later_duplicate_overwrites_witness :
  ∃ db, read_db basicGateType 20 (file_fields [record_and; record_nand_not]) = Some db
    ∧ subcircuit_pattern_to_index db !! [8] = Some 1.
Proof.
  apply (later_duplicate_overwrites basicGateType [record_and; record_nand_not] 20
           0 1 record_and record_nand_not).
  - apply Forall_cons. split; [apply record_and_wf|].
    apply Forall_singleton, record_nand_not_wf.
  - vm_compute. lia.
  - reflexivity.
  - reflexivity.
  - lia.
  - reflexivity.
  - intros [|[|[|j']]] r' Hlt Hr'; simpl in *; try lia; discriminate.
Defined.

(** C2, counterexample to the specification's wording: for the record whose output codes are
    listed as 14, 8 the loader stores the key [14; 8]; the ascending vector
    [8; 14] is not a key of the map. *)
Lemma key_is_not_sorted :
  ∃ db, read_db basicGateType 20 (file_fields [record_or_and]) = Some db
    ∧ subcircuit_pattern_to_index db !! [14; 8] = Some 0
    ∧ subcircuit_pattern_to_index db !! merge_sort Z.le [14; 8] = None.
Proof. eexists. split; [vm_compute; reflexivity|]. split; vm_compute; reflexivity. Qed.

(** C2 (what the loader does).  On a well-formed database file the loader completes and
    the keys of its map are exactly the vectors of output codes of the
    records, each in the order in which the file lists it. *)
Theorem keys_are_in_file_order stringToGateType rs fuel :
  Forall wf_record rs → (length (file_fields rs) + 2 ≤ fuel)%nat →
  ∃ db, read_db stringToGateType fuel (file_fields rs) = Some db
    ∧ ∀ key, is_Some (subcircuit_pattern_to_index db !! key)
             ↔ ∃ r, r ∈ rs ∧ rec_patterns r = key.
Proof.
  intros Hwf Hfuel.
  destruct (read_db_fields stringToGateType rs fuel Hwf Hfuel) as (db & Hdb & Hmap).
  exists db. split; [done|]. intros key. rewrite Hmap, insert_keys_dom.
  rewrite lookup_empty. split; [|by right]. intros [[? ?]|?]; done.
Qed.

Lemma keys_are_in_file_order_witness :
  ∃ db, read_db basicGateType 20 (file_fields [record_or_and]) = Some db
    ∧ ∀ key, is_Some (subcircuit_pattern_to_index db !! key)
             ↔ ∃ r, r ∈ [record_or_and] ∧ rec_patterns r = key.
Proof.
  apply (keys_are_in_file_order basicGateType [record_or_and] 20).
  - apply Forall_singleton, record_or_and_wf.
  - vm_compute. lia.
Defined.

(** C3, counterexample to the specification's wording: the only output id of the record is 2 and
    the record has 2 inputs, yet two gate descriptions are read, because the
    first one names gate 3 as an operand. *)
Lemma gate_count_exceeds_output_bound :
  ∃ db outputs gates,
    read_db basicGateType 20 forward_file = Some db
    ∧ subcircuit_outputs db = [outputs] ∧ gates_operands db = [gates]
    ∧ N.of_nat (length gates) ≠ (max_id outputs + 1 - 2)%N.
Proof.
  eexists _, _, _. split; [vm_compute; reflexivity|].
  split; [reflexivity|]. split; [reflexivity|]. vm_compute. discriminate.
Qed.

Lemma record_gate_count_witness :
  ∃ db' cur_outputs gates,
    read_record basicGateType 20 (mkStream (tail forward_file) false) emptyDB 0 2
      = Some (db', 3%N, mkStream [] false)
    ∧ subcircuit_outputs db' = [cur_outputs] ∧ gates_operands db' = [gates]
    ∧ N.of_nat (length gates) = 2%N.
Proof.
  edestruct (record_gate_count basicGateType 20 (mkStream (tail forward_file) false)
               emptyDB 0 2) as (outs & gates & ops & Ho & Hg & _ & _ & _ & Hc & _);
    [vm_compute; discriminate | lia | reflexivity | reflexivity | vm_compute; reflexivity |].
  eexists _, outs, gates. split; [vm_compute; reflexivity|].
  split; [exact Ho|]. split; [exact Hg|]. exact Hc.
Defined.

Local Close Scope Z_scope.

(** * Further properties of the code *)

(** ** ThreeColor and the two primitives of ThreeColoring *)

(** X1.  [ThreeColor::sortedParents] returns the three ids in ascending
    order, and the result does not depend on the order in which the ids are
    passed. *)
Theorem sortedParents_canonical a b c a' b' c' :
  [a'; b'; c'] ≡ₚ [a; b; c] →
  ThreeColor.sortedParents a' b' c' = ThreeColor.sortedParents a b c
  ∧ Sorted N.le (ThreeColor.sortedParents a b c)
  ∧ ThreeColor.sortedParents a b c ≡ₚ [a; b; c].
Proof.
  intros Hp. split_and!; [|apply sortedParents_Sorted|apply sortedParents_perm].
  apply (Sorted_unique N.le); auto using sortedParents_Sorted.
  by rewrite !sortedParents_perm.
Qed.

Lemma sortedParents_canonical_witness :
  ThreeColor.sortedParents 7 2 5 = ThreeColor.sortedParents 5 7 2
  ∧ Sorted N.le (ThreeColor.sortedParents 5 7 2)
  ∧ ThreeColor.sortedParents 5 7 2 ≡ₚ [5; 7; 2].
Proof.
  apply (sortedParents_canonical 5 7 2 7 2 5).
  apply (Permutation_app_comm [7; 2] [5]).
Defined.

Lemma hasParent_elem col g :
  ThreeColor.hasParent col g = true ↔ g ∈ ThreeColor.getParents col.
Proof.
  unfold ThreeColor.hasParent, ThreeColor.getParents.
  rewrite !orb_true_iff, !N.eqb_eq, !elem_of_cons, elem_of_nil. intuition congruence.
Qed.

(** X2.  A ThreeColor built from three ids stores them in ascending order,
    and [hasParent] holds exactly for these three ids. *)
Theorem new_color_parents a b c :
  let col := ThreeColor.new a b c in
  ThreeColor.first_parent col ≤ ThreeColor.second_parent col
  ∧ ThreeColor.second_parent col ≤ ThreeColor.third_parent col
  ∧ ThreeColor.getGates col = []
  ∧ ∀ g, ThreeColor.hasParent col g = true ↔ g = a ∨ g = b ∨ g = c.
Proof.
  intros col. pose proof (new_getParents a b c) as Hp. fold col in Hp.
  pose proof (sortedParents_Sorted a b c) as Hs. rewrite <- Hp in Hs.
  unfold ThreeColor.getParents in Hs.
  apply Sorted_inv in Hs as [Hs H12]. apply Sorted_inv in Hs as [_ H23].
  apply HdRel_inv in H12, H23. split_and!; [done..|].
  intros g. rewrite hasParent_elem, Hp, sortedParents_perm, !elem_of_cons, elem_of_nil.
  intuition congruence.
Qed.

(** X3.  [paintGate] throws exactly when the ColorId is not an index of
    [colors] or the gate id is not an index of [gateColors]; it never exits
    the process. *)
Theorem paintGate_out_of_range st g c :
  (paintGate st g c = OutOfRange
     ↔ N.of_nat (length (colors st)) ≤ c ∨ N.of_nat (length (gateColors st)) ≤ g)
  ∧ ∀ g', paintGate st g c ≠ Exit g'.
Proof.
  unfold paintGate, vec_at.
  destruct (N.ltb_spec c (N.of_nat (length (colors st)))) as [Hc|Hc].
  - destruct (lookup_lt_is_Some_2 (colors st) (N.to_nat c)) as [col ->]; [lia|]. simpl.
    destruct (N.ltb_spec g (N.of_nat (length (gateColors st)))) as [Hg|Hg].
    + destruct (lookup_lt_is_Some_2 (gateColors st) (N.to_nat g)) as [old ->]; [lia|]. simpl.
      split; [|done]. split; [done|lia].
    + simpl. split; [|done]. split; [by right|done].
  - simpl. split; [|done]. split; [by left|done].
Qed.

(** X4.  [addColor] returns the old value of the counter, appends one color
    without gates whose parents are the sorted triple, and binds the sorted
    triple to the returned id: looking the triple up afterwards, with the
    ids in any order, yields that id, while every other key keeps its
    binding and the per-gate tables are untouched. *)
Theorem addColor_lookup st a b c a' b' c' :
  [a'; b'; c'] ≡ₚ [a; b; c] →
  let st' := (addColor st a b c).1 in
  let colorId := (addColor st a b c).2 in
  colorId = next_color_id_ st
  ∧ parentsToColor st' !! ThreeColor.sortedParents a' b' c' = Some colorId
  ∧ (∀ k, k ≠ ThreeColor.sortedParents a b c → parentsToColor st' !! k = parentsToColor st !! k)
  ∧ (∃ col, colors st' = colors st ++ [col]
       ∧ ThreeColor.getParents col = ThreeColor.sortedParents a b c
       ∧ ThreeColor.getGates col = [])
  ∧ gateColors st' = gateColors st
  ∧ negationUsers st' = negationUsers st.
Proof.
  intros Hp st' colorId. subst st' colorId. simpl.
  destruct (sortedParents_canonical a b c a' b' c' Hp) as (-> & _ & _).
  split_and!; try done.
  - apply lookup_insert_eq.
  - intros k Hk. by apply lookup_insert_ne.
  - eexists. split_and!; [done|apply new_getParents|done].
Qed.

Lemma addColor_lookup_witness :
  parentsToColor (addColor (initial example_circuit) 4 0 2).1
    !! ThreeColor.sortedParents 2 4 0 = Some 0.
Proof.
  destruct (addColor_lookup (initial example_circuit) 4 0 2 2 4 0) as (_ & H & _); [|exact H].
  apply (Permutation_app_comm [2] [4; 0]).
Defined.

(** ** Every iteration is a sequence of paints *)

Lemma Paints_trans g st1 st2 st3 : Paints g st1 st2 → Paints g st2 st3 → Paints g st1 st3.
Proof. induction 1; eauto using Paints. Qed.

Lemma Paints_one_color g st c st' : paintGate st g c = Done st' → Paints g st st'.
Proof. eauto using Paints. Qed.

Lemma Paints_one_triple g st a b c st' : paintTriple st g a b c = Done st' → Paints g st st'.
Proof. eauto using Paints. Qed.

Lemma foldM_paintGate_Paints g cs : ∀ st st',
  foldM (λ st color, paintGate st g color) st cs = Done st' → Paints g st st'.
Proof.
  induction cs as [|c cs IH]; intros st st' H; simpl in H.
  - simplify_eq. constructor.
  - apply bind_Done in H as (st1 & H1 & H). eauto using Paints.
Qed.

Create HintDb paints.
#[local] Hint Resolve Paints_done Paints_one_color Paints_one_triple Paints_trans : paints.

Section Traces.
Variable circuit : ICircuit.
Variable twoColoring : TwoColoring.t.

Lemma secondColor_Paints st g two_color other st' :
  secondColor twoColoring st g two_color other = Done st' → Paints g st st'.
Proof. unfold secondColor. intros H. inv_done; eauto with paints. Qed.

Lemma pattern22_Paints st g child_1 child_2 c1 c2 st' :
  pattern22 twoColoring st g child_1 child_2 c1 c2 = Done st' → Paints g st st'.
Proof. unfold pattern22. intros H. inv_done; eauto with paints. Qed.

Lemma fallback_Paints st g child_1 child_2 c1 c2 st' :
  fallback twoColoring st g child_1 child_2 c1 c2 = Done st' → Paints g st st'.
Proof. unfold fallback. intros H. inv_done; eauto with paints. Qed.

#[local] Hint Resolve secondColor_Paints pattern22_Paints fallback_Paints : paints.

Lemma paintByPattern_Paints st g child_1 child_2 common c13 c31 st' :
  paintByPattern twoColoring st g child_1 child_2 common c13 c31 = Done st' →
  Paints g st st'.
Proof. unfold paintByPattern. intros H. inv_done; eauto 6 with paints. Qed.

Lemma processBinary_Paints st g st' :
  processBinary twoColoring st g = Done st' → Paints g st st'.
Proof.
  unfold processBinary. intros H. inv_done; eauto using paintByPattern_Paints with paints.
Qed.

(** An iteration that completes is a run of paints of its gate, followed,
    for a NOT gate, by the update of [negationUsers]. *)
Lemma processGate_Paints st g st' :
  processGate circuit twoColoring st g = Done st' →
  ∃ st1, Paints g st st1
    ∧ (st' = st1
       ∨ ∃ a, getGateOperands circuit g = [a] ∧ getGateType circuit g = NOT
           ∧ a < N.of_nat (length (negationUsers st1))
           ∧ st' = setNegationUser st1 a g).
Proof.
  unfold processGate. intros H.
  destruct (getGateOperands circuit g) as [|a [|? [|? ?]]] eqn:Hops; [| | |discriminate].
  - simplify_eq. exists st'. split; [constructor|by left].
  - unfold processUnary in H.
    apply bind_Done in H as (cs & _ & H). apply bind_Done in H as (st1 & H1 & H).
    apply foldM_paintGate_Paints in H1. exists st1. split; [done|].
    destruct (decide (getGateType circuit g = NOT)) as [Hnot|]; [|simplify_eq; by left].
    apply bind_Done in H as (u & Hu & H). simplify_eq. right. exists a.
    split_and!; try done. apply vec_at_Done, lookup_lt_Some in Hu. lia.
  - exists st'. split; [by eapply processBinary_Paints|by left].
Qed.
End Traces.

Lemma paintGate_same_tables st g c st' :
  paintGate st g c = Done st' →
  negationUsers st' = negationUsers st ∧ parentsToColor st' = parentsToColor st
  ∧ next_color_id_ st' = next_color_id_ st ∧ length (colors st') = length (colors st)
  ∧ length (gateColors st') = length (gateColors st).
Proof.
  intros H. apply paintGate_inv in H as (col & old & _ & _ & ->). simpl.
  by rewrite !length_insert.
Qed.

Lemma paintTriple_same_tables st g a b c st' :
  paintTriple st g a b c = Done st' →
  negationUsers st' = negationUsers st
  ∧ (length (colors st) ≤ length (colors st') ≤ length (colors st) + 1)%nat
  ∧ length (gateColors st') = length (gateColors st).
Proof.
  rewrite paintTriple_unfold.
  destruct (parentsToColor st !! _); intros H;
    apply paintGate_same_tables in H as (Hn & _ & _ & Hl & Hg); simpl in *;
    rewrite ?length_app in Hl; simpl in Hl; split_and!; try done; lia.
Qed.

Lemma Paints_same_tables g st st' :
  Paints g st st' →
  negationUsers st' = negationUsers st
  ∧ (length (colors st) ≤ length (colors st'))%nat
  ∧ length (gateColors st') = length (gateColors st).
Proof.
  induction 1 as [st|st c st1 st2 H1 _ (Hn & Hl & Hg)|st a b c st1 st2 H1 _ (Hn & Hl & Hg)].
  - done.
  - apply paintGate_same_tables in H1 as (Hn1 & _ & _ & Hl1 & Hg1).
    split_and!; [congruence|lia|congruence].
  - apply paintTriple_same_tables in H1 as (Hn1 & Hl1 & Hg1).
    split_and!; [congruence|lia|congruence].
Qed.

(** The invariant survives the find-or-create block as long as the counter
    does not wrap. *)
Lemma paintTriple_WF st g a b c st' :
  WF st → paintTriple st g a b c = Done st' →
  N.of_nat (length (colors st')) < SIZE_MOD → WF st'.
Proof.
  intros Hw H Hb. pose proof H as H'. rewrite paintTriple_unfold in H'.
  destruct (parentsToColor st !! ThreeColor.sortedParents a b c) eqn:E.
  - by eapply paintGate_WF.
  - apply paintGate_same_tables in H' as (_ & _ & _ & Hl & _). simpl in Hl.
    rewrite length_app in Hl. simpl in Hl.
    eapply (pn_wf _ _ _ (PaintedNew_paintTriple _ _ _ _ _ _ H)); [done|lia].
Qed.

(** ** A proof rule for the constructor

    A property that holds of the initial tables and survives [paintGate],
    the find-or-create block and the update of [negationUsers] holds of the
    object the constructor builds.  The steps may rely on the invariant of
    the tables. *)
Section InvariantRule.
Variable circuit : ICircuit.
Variable twoColoring : TwoColoring.t.
Variable P : ThreeColoring → Prop.
Hypothesis P_paintGate : ∀ st g c st',
  WF st → P st → paintGate st g c = Done st' → P st'.
Hypothesis P_paintTriple : ∀ st g a b c st',
  WF st → WF st' → P st → paintTriple st g a b c = Done st' → P st'.
Hypothesis P_negation : ∀ st g a,
  P st → getGateOperands circuit g = [a] → getGateType circuit g = NOT →
  a < N.of_nat (length (negationUsers st)) → P (setNegationUser st a g).

Lemma Paints_rule g st st' :
  Paints g st st' → N.of_nat (length (colors st')) < SIZE_MOD →
  WF st → P st → WF st' ∧ P st'.
Proof.
  induction 1 as [st|st c st1 st2 H1 H2 IH|st a b c st1 st2 H1 H2 IH]; intros Hb Hw Hp.
  - done.
  - apply IH; [done|by eapply paintGate_WF|by apply (P_paintGate st g c st1)].
  - apply Paints_same_tables in H2 as Hmono. destruct Hmono as (_ & Hl & _).
    assert (WF st1) as Hw1 by (eapply paintTriple_WF; [done..|lia]).
    apply IH; [done|done|by apply (P_paintTriple st g a b c st1)].
Qed.

Lemma processGate_rule st g st' :
  processGate circuit twoColoring st g = Done st' →
  N.of_nat (length (colors st')) < SIZE_MOD →
  WF st → P st → WF st' ∧ P st'.
Proof.
  intros H Hb Hw Hp. apply processGate_Paints in H as (st1 & Hpaints & Hst').
  destruct Hst' as [->|(a & Hops & Hnot & Ha & ->)].
  - by eapply Paints_rule.
  - simpl in Hb. destruct (Paints_rule g st st1 Hpaints Hb Hw Hp) as [Hw1 Hp1].
    split; [by apply WF_negationUsers|by apply P_negation].
Qed.

Lemma loop_rule l : ∀ st st',
  foldM (processGate circuit twoColoring) st l = Done st' →
  N.of_nat (length (colors st')) < SIZE_MOD →
  WF st → P st → WF st' ∧ P st'.
Proof.
  induction l as [|g l IH]; intros st st' H Hb Hw Hp; simpl in H.
  - by simplify_eq.
  - apply bind_Done in H as (st1 & H1 & H).
    assert (length (colors st1) ≤ length (colors st'))%nat as Hl.
    { clear -H. revert st1 H. induction l as [|g' l IHl]; intros st1 H; simpl in H.
      - by simplify_eq.
      - apply bind_Done in H as (st2 & H2 & H). apply IHl in H.
        destruct (processGate_done _ _ _ _ _ H2) as (_ & _ & Hlen & _). lia. }
    destruct (processGate_rule st g st1 H1) as [Hw1 Hp1]; [lia|done..|].
    by apply (IH st1 st').
Qed.

Lemma construct_rule gate_sorting st :
  P (initial circuit) →
  2 * N.of_nat (length gate_sorting) < SIZE_MOD →
  construct circuit twoColoring gate_sorting = Done st →
  WF st ∧ P st.
Proof.
  intros Hp Hb H. unfold construct in H.
  apply (loop_rule _ _ _ H); [|apply initial_WF|done].
  apply loop_WF in H as [_ Hl]; [|apply initial_WF|simpl; rewrite length_reverse; lia].
  simpl in Hl. rewrite length_reverse in Hl. unfold SIZE_MOD in *. lia.
Qed.
End InvariantRule.

(** ** Find-or-create *)

(** X5.  Two gates painted one after the other with the same three parents,
    given in any order, receive the same ColorId, and the second paint
    creates no color: identical triples collapse to one color. *)
Theorem equal_triples_share_one_color n st g1 g2 a b c a' b' c' :
  Good n 2 st → g1 < n → g2 < n → [a'; b'; c'] ≡ₚ [a; b; c] →
  ∃ st1 st2 colorId,
    paintTriple st g1 a b c = Done st1
    ∧ paintTriple st1 g2 a' b' c' = Done st2
    ∧ gateColors st1 = alter (λ old, old ++ [colorId]) (N.to_nat g1) (gateColors st)
    ∧ gateColors st2 = alter (λ old, old ++ [colorId]) (N.to_nat g2) (gateColors st1)
    ∧ parentsToColor st2 = parentsToColor st1
    ∧ length (colors st2) = length (colors st1)
    ∧ (length (colors st1) ≤ length (colors st) + 1)%nat.
Proof.
  intros Hgood Hg1 Hg2 Hp.
  destruct (paintTriple_spec n 1 st g1 a b c Hgood Hg1) as (st1 & H1 & Hgood1 & Hp1).
  destruct (paintTriple_spec n 0 st1 g2 a' b' c' Hgood1 Hg2) as (st2 & H2 & _ & Hp2).
  destruct (sortedParents_canonical a b c a' b' c' Hp) as (Hkey & _ & _).
  unfold PaintedWithTriple in Hp1, Hp2. rewrite Hkey in Hp2.
  destruct Hp1 as (cid & col & Hm1 & _ & _ & _ & Hgc1 & _).
  destruct Hp2 as (cid' & col' & Hm2 & _ & _ & _ & Hgc2 & Hcase).
  rewrite Hm1 in Hcase. destruct Hcase as (Hmap & Hlen & _).
  rewrite Hmap, Hm1 in Hm2. simplify_eq.
  exists st1, st2, cid'. split_and!; try done.
  apply paintTriple_same_tables in H1. lia.
Qed.

Lemma equal_triples_share_one_color_witness :
  ∃ st1 st2 colorId,
    paintTriple (initial example_circuit) 5 0 1 2 = Done st1
    ∧ paintTriple st1 7 2 0 1 = Done st2
    ∧ gateColors st2 !! 5%nat = Some [colorId] ∧ gateColors st2 !! 7%nat = Some [colorId]
    ∧ (length (colors st2) ≤ 1)%nat.
Proof.
  destruct (equal_triples_share_one_color 8 (initial example_circuit) 5 7 0 1 2 2 0 1)
    as (st1 & st2 & cid & H1 & H2 & Hg1 & Hg2 & _ & Hl & Hl1);
    [apply (initial_Good example_circuit 2); vm_compute; reflexivity
    | reflexivity | reflexivity | apply (Permutation_app_comm [2] [0; 1]) |].
  exists st1, st2, cid. split_and!; try done.
  - rewrite Hg2, Hg1. reflexivity.
  - rewrite Hg2, Hg1. reflexivity.
  - simpl in Hl1. lia.
Defined.

(** ** Invariants of the constructed object *)

Lemma Consistent_paintGate st g c st' :
  Consistent st → paintGate st g c = Done st' → Consistent st'.
Proof.
  intros Hc H. apply paintGate_inv in H as (col & old & Hcol & Hold & ->).
  intros g' c'. simpl. specialize (Hc g' c'). unfold ThreeColor.getGates in *.
  apply lookup_lt_Some in Hcol as Hlc. apply lookup_lt_Some in Hold as Hlg.
  destruct (decide (g = g')) as [<-|Hg]; destruct (decide (c = c')) as [<-|Hc'];
    rewrite ?list_lookup_insert_eq by done;
    rewrite ?(list_lookup_insert_ne (gateColors st)) by (intros ?%N2Nat.inj; done);
    rewrite ?(list_lookup_insert_ne (colors st)) by (intros ?%N2Nat.inj; done).
  - split; intros _; eexists; (split; [reflexivity|]); simpl; apply elem_of_app; right;
      apply elem_of_cons; by left.
  - split.
    + intros (cs & ? & Hin). simplify_eq. apply elem_of_app in Hin as [Hin|Hin].
      * apply Hc. eauto.
      * apply elem_of_cons in Hin as [->|Hin]; [done|by apply elem_of_nil in Hin].
    + intros Hr. apply Hc in Hr as (cs & ? & Hin). simplify_eq.
      eexists. split; [reflexivity|]. apply elem_of_app. by left.
  - split.
    + intros Hl. apply Hc in Hl as (col' & ? & Hin). simplify_eq.
      eexists. split; [reflexivity|]. simpl. apply elem_of_app. by left.
    + intros (col' & ? & Hin). simplify_eq. simpl in Hin.
      apply elem_of_app in Hin as [Hin|Hin].
      * apply Hc. eauto.
      * apply elem_of_cons in Hin as [->|Hin]; [done|by apply elem_of_nil in Hin].
  - done.
Qed.

Lemma Consistent_addColor st a b c :
  WF st → Consistent st → Consistent (addColor st a b c).1.
Proof.
  intros Hw Hc g c'. simpl. specialize (Hc g c'). split.
  - intros Hl. apply Hc in Hl as (col & Hcol & Hin).
    exists col. split; [|done]. by apply lookup_app_l_Some.
  - intros (col & Hcol & Hin). apply Hc.
    apply lookup_app_Some in Hcol as [Hcol|[_ Hcol]]; [eauto|].
    apply list_lookup_singleton_Some in Hcol as [_ <-]. by apply elem_of_nil in Hin.
Qed.

Lemma Consistent_paintTriple st g a b c st' :
  WF st → Consistent st → paintTriple st g a b c = Done st' → Consistent st'.
Proof.
  intros Hw Hc. rewrite paintTriple_unfold.
  destruct (parentsToColor st !! _); intros H.
  - by eapply Consistent_paintGate.
  - eapply Consistent_paintGate; [|done]. by apply Consistent_addColor.
Qed.

(** X6.  In the object the constructor builds the two views agree: a ColorId
    is among the colors of a gate exactly when the gate is among the gates
    of that color. *)
Theorem colors_and_gates_agree circuit twoColoring gate_sorting st :
  2 * N.of_nat (length gate_sorting) < SIZE_MOD →
  construct circuit twoColoring gate_sorting = Done st →
  ∀ g c,
    (∃ cs, gateColors st !! N.to_nat g = Some cs ∧ c ∈ cs)
    ↔ (∃ col, colors st !! N.to_nat c = Some col ∧ g ∈ ThreeColor.getGates col).
Proof.
  intros Hb H.
  apply (construct_rule circuit twoColoring Consistent) in H as [_ Hc]; try done.
  - intros st0 g c st1 _ Hc H1. by apply (Consistent_paintGate st0 g c st1).
  - intros st0 g a b c st1 Hw _ Hc H1. by apply (Consistent_paintTriple st0 g a b c st1).
  - intros g c. simpl. split.
    + intros (cs & Hcs & Hin). apply lookup_replicate in Hcs as [-> _].
      by apply elem_of_nil in Hin.
    + intros (col & Hcol & _). done.
Qed.

Lemma colors_and_gates_agree_witness :
  (∃ cs, gateColors example_result !! N.to_nat 7 = Some cs ∧ 0 ∈ cs)
  ↔ (∃ col, colors example_result !! N.to_nat 0 = Some col ∧ 7 ∈ ThreeColor.getGates col).
Proof.
  apply (colors_and_gates_agree example_circuit example_twoColoring example_sorting
           example_result);
    [vm_compute; reflexivity | vm_compute; reflexivity].
Defined.

Lemma Populated_paintGate st g c st' :
  Populated st → paintGate st g c = Done st' → Populated st'.
Proof.
  intros Hp H. apply paintGate_inv in H as (col & old & Hcol & Hold & ->).
  intros i col' Hi. simpl in *. rewrite length_insert.
  apply lookup_lt_Some in Hold as Hlg.
  apply list_lookup_insert_Some in Hi as [(<- & <- & _)|[_ Hi]]; [|by eapply Hp].
  destruct (Hp _ _ Hcol) as [_ Hall]. unfold ThreeColor.getGates in *. simpl. split.
  - by destruct (ThreeColor.gates_ col).
  - apply Forall_app. split; [done|]. apply Forall_singleton. lia.
Qed.

Lemma Populated_paintTriple st g a b c st' :
  WF st → Populated st → paintTriple st g a b c = Done st' → Populated st'.
Proof.
  intros Hw Hp. rewrite paintTriple_unfold.
  destruct (parentsToColor st !! _); intros H; [by eapply Populated_paintGate|].
  apply paintGate_inv in H as (col & old & Hcol & Hold & ->). simpl in *.
  rewrite (wf_next _ Hw), Nat2N.id in *.
  rewrite lookup_app_r, Nat.sub_diag in Hcol by done. simplify_eq/=.
  apply lookup_lt_Some in Hold as Hlg.
  intros i col' Hi. simpl in *. rewrite length_insert.
  apply list_lookup_insert_Some in Hi as [(<- & <- & _)|[Hne Hi]].
  - unfold ThreeColor.getGates. simpl. split; [done|]. apply Forall_singleton. lia.
  - apply lookup_app_Some in Hi as [Hi|[Hge Hi]]; [by eapply Hp|].
    apply list_lookup_singleton_Some in Hi as [Hi _]. lia.
Qed.

(** X7.  In the object the constructor builds no color is empty, and every
    gate listed for a color is a gate id of the circuit. *)
Theorem every_color_has_gates circuit twoColoring gate_sorting st :
  2 * N.of_nat (length gate_sorting) < SIZE_MOD →
  construct circuit twoColoring gate_sorting = Done st →
  ∀ c col, colors st !! N.to_nat c = Some col →
    ThreeColor.getGates col ≠ []
    ∧ Forall (λ g, g < getNumberOfGates circuit) (ThreeColor.getGates col).
Proof.
  intros Hb H c col Hcol.
  pose proof H as Hlen. unfold construct in Hlen. apply loop_lengths in Hlen as [Hlen _].
  simpl in Hlen. rewrite length_replicate in Hlen.
  apply (construct_rule circuit twoColoring Populated) in H as [_ Hp]; try done.
  - destruct (Hp _ _ Hcol) as [Hne Hall]. split; [done|].
    eapply Forall_impl; [done|]. intros g Hg. simpl in Hg. lia.
  - intros st0 g c0 st1 _ Hp H1. by apply (Populated_paintGate st0 g c0 st1).
  - intros st0 g a b c0 st1 Hw _ Hp H1. by apply (Populated_paintTriple st0 g a b c0 st1).
Qed.

Lemma every_color_has_gates_witness :
  ∃ col, colors example_result !! N.to_nat 0 = Some col
    ∧ ThreeColor.getGates col ≠ []
    ∧ Forall (λ g, g < getNumberOfGates example_circuit) (ThreeColor.getGates col).
Proof.
  eexists. split; [vm_compute; reflexivity|].
  apply (every_color_has_gates example_circuit example_twoColoring example_sorting
           example_result) with (c := 0);
    [vm_compute; reflexivity | vm_compute; reflexivity | vm_compute; reflexivity].
Defined.

(** ** A proof rule that needs no invariant *)

Section PlainRule.
Variable circuit : ICircuit.
Variable twoColoring : TwoColoring.t.
Variable gates : list N.
Variable P : ThreeColoring → Prop.
Hypothesis P_paintGate : ∀ st g c st', P st → paintGate st g c = Done st' → P st'.
Hypothesis P_paintTriple : ∀ st g a b c st',
  P st → paintTriple st g a b c = Done st' → P st'.
Hypothesis P_negation : ∀ st g a,
  P st → g ∈ gates → getGateOperands circuit g = [a] → getGateType circuit g = NOT →
  a < N.of_nat (length (negationUsers st)) → P (setNegationUser st a g).

Lemma Paints_plain g st st' : Paints g st st' → P st → P st'.
Proof. induction 1; eauto. Qed.

Lemma loop_plain l : ∀ st st',
  (∀ g, g ∈ l → g ∈ gates) →
  foldM (processGate circuit twoColoring) st l = Done st' → P st → P st'.
Proof.
  induction l as [|g l IH]; intros st st' Hl H Hp; simpl in H.
  - by simplify_eq.
  - apply bind_Done in H as (st1 & H1 & H).
    apply (IH st1 st'); [|done|].
    { intros g' Hg'. apply Hl, elem_of_cons. by right. }
    apply processGate_Paints in H1 as (st2 & Hpaints & Hst1).
    apply Paints_plain in Hpaints; [|done].
    destruct Hst1 as [->|(a & Hops & Hnot & Ha & ->)]; [done|].
    apply P_negation; try done. apply Hl, elem_of_cons. by left.
Qed.
End PlainRule.

Lemma foldM_app {A B} (f : A → B → Outcome A) a l1 l2 :
  foldM f a (l1 ++ l2) = (a' ← foldM f a l1; foldM f a' l2).
Proof.
  revert a. induction l1 as [|x l1 IH]; intros a; simpl; [done|].
  destruct (f a x); simpl; auto.
Qed.

Lemma NegationUsersSound_loop circuit twoColoring gates l st st' :
  (∀ g, g ∈ l → g ∈ gates) →
  foldM (processGate circuit twoColoring) st l = Done st' →
  NegationUsersSound circuit gates st → NegationUsersSound circuit gates st'.
Proof.
  apply (loop_plain circuit twoColoring gates (NegationUsersSound circuit gates)).
  - intros st0 g c st1 Hp H1 i g' Hi.
    apply paintGate_same_tables in H1 as (Hn & _). rewrite Hn in Hi. by apply Hp.
  - intros st0 g a b c st1 Hp H1 i g' Hi.
    apply paintTriple_same_tables in H1 as (Hn & _). rewrite Hn in Hi. by apply Hp.
  - intros st0 g a Hp Hin Hops Hnot Ha i g' Hi. simpl in Hi. unfold vec_set in Hi.
    apply list_lookup_insert_Some in Hi as [(<- & <- & _)|[_ Hi]]; [|by apply Hp].
    right. by rewrite N2Nat.id.
Qed.

Lemma HasNegationUser_loop circuit twoColoring gates a l st st' :
  (∀ g, g ∈ l → g ∈ gates) →
  foldM (processGate circuit twoColoring) st l = Done st' →
  HasNegationUser circuit gates a st → HasNegationUser circuit gates a st'.
Proof.
  apply (loop_plain circuit twoColoring gates (HasNegationUser circuit gates a)).
  - intros st0 g c st1 (g0 & Hg0 & ?) H1.
    apply paintGate_same_tables in H1 as (Hn & _). exists g0. by rewrite Hn.
  - intros st0 g x y z st1 (g0 & Hg0 & ?) H1.
    apply paintTriple_same_tables in H1 as (Hn & _). exists g0. by rewrite Hn.
  - intros st0 g a' (g0 & Hg0 & Hg0') Hin Hops Hnot Ha.
    unfold HasNegationUser. simpl. unfold vec_set.
    destruct (decide (a' = a)) as [->|Hne].
    + exists g. rewrite list_lookup_insert_eq by lia. done.
    + exists g0. rewrite list_lookup_insert_ne by (intros ?%N2Nat.inj; done). done.
Qed.

(** X8.  In the object the constructor builds, an entry of [negationUsers]
    other than [SIZE_MAX] is a NOT gate of the sorting whose single operand
    is the index of the entry; and the operand of every NOT gate of the
    sorting has such an entry. *)
Theorem negationUsers_are_not_gates circuit twoColoring gate_sorting st :
  construct circuit twoColoring gate_sorting = Done st →
  (∀ a g, negationUsers st !! N.to_nat a = Some g → g ≠ SIZE_MAX →
     g ∈ gate_sorting ∧ getGateType circuit g = NOT ∧ getGateOperands circuit g = [a])
  ∧ (∀ g a, g ∈ gate_sorting → getGateType circuit g = NOT →
       getGateOperands circuit g = [a] →
       ∃ g', negationUsers st !! N.to_nat a = Some g'
         ∧ g' ∈ gate_sorting ∧ getGateType circuit g' = NOT
         ∧ getGateOperands circuit g' = [a]).
Proof.
  intros H. unfold construct in H. split.
  - intros a g Hg Hne.
    eapply (NegationUsersSound_loop circuit twoColoring gate_sorting) in H.
    + destruct (H _ _ Hg) as [?|Hr]; [done|]. by rewrite N2Nat.id in Hr.
    + intros g'. apply elem_of_reverse.
    + intros i g' Hi. simpl in Hi. apply lookup_replicate in Hi as [-> _]. by left.
  - intros g a Hin Hnot Hops.
    apply elem_of_reverse_2, list_elem_of_split in Hin as (l1 & l2 & Hsplit).
    assert (∀ g', g' ∈ l1 ++ g :: l2 → g' ∈ gate_sorting) as Hsub.
    { intros g'. rewrite <- Hsplit. apply elem_of_reverse. }
    rewrite Hsplit, foldM_app in H. apply bind_Done in H as (st1 & H1 & H).
    simpl in H. apply bind_Done in H as (st2 & H2 & H).
    eapply (HasNegationUser_loop circuit twoColoring gate_sorting a) in H; [done| |].
    { intros g' Hg'. apply Hsub, elem_of_app. right. apply elem_of_cons. by right. }
    unfold processGate in H2. rewrite Hops in H2. unfold processUnary in H2.
    apply bind_Done in H2 as (cs & _ & H2). apply bind_Done in H2 as (st3 & _ & H2).
    rewrite decide_True in H2 by done.
    apply bind_Done in H2 as (u & Hu & H2). simplify_eq.
    apply vec_at_Done, lookup_lt_Some in Hu.
    exists g. simpl. unfold vec_set. rewrite list_lookup_insert_eq by done.
    split_and!; try done. apply Hsub, elem_of_app. right. apply elem_of_cons. by left.
Qed.

Lemma negationUsers_are_not_gates_witness :
  (∀ a g, negationUsers example_result !! N.to_nat a = Some g → g ≠ SIZE_MAX →
     g ∈ example_sorting ∧ getGateType example_circuit g = NOT
     ∧ getGateOperands example_circuit g = [a])
  ∧ (∀ g a, g ∈ example_sorting → getGateType example_circuit g = NOT →
       getGateOperands example_circuit g = [a] →
       ∃ g', negationUsers example_result !! N.to_nat a = Some g'
         ∧ g' ∈ example_sorting ∧ getGateType example_circuit g' = NOT
         ∧ getGateOperands example_circuit g' = [a]).
Proof.
  apply (negationUsers_are_not_gates example_circuit example_twoColoring example_sorting).
  vm_compute. reflexivity.
Defined.

(** ** Gates that stay without color *)

Section UncoloredGates.
Variable circuit : ICircuit.
Variable twoColoring : TwoColoring.t.

Lemma processGate_NeverPainted st g st' :
  NeverPainted circuit twoColoring g →
  processGate circuit twoColoring st g = Done st' → st' = st.
Proof.
  unfold processGate. intros [Hops|(x & y & Hops & Hcase)]; rewrite Hops; intros H.
  { by simplify_eq. }
  unfold processBinary in H.
  destruct Hcase as [Hg|(two_color & tc & Hg & Htc & H1 & H2)];
    apply vec_at_Done in Hg; rewrite Hg in H; simpl in H.
  { by simplify_eq. }
  destruct (two_color =? SIZE_MAX); [by simplify_eq|].
  apply vec_at_Done in Htc, H1, H2. rewrite Htc in H. simpl in H.
  rewrite H1 in H. simpl in H. rewrite H2 in H. simpl in H. by simplify_eq.
Qed.

Lemma processGate_other_gate st g' st' g :
  processGate circuit twoColoring st g' = Done st' → g ≠ g' →
  gateColors st' !! N.to_nat g = gateColors st !! N.to_nat g.
Proof.
  intros H Hne. destruct (processGate_done _ _ _ _ _ H) as ((cs & -> & _) & _).
  apply list_lookup_alter_ne. intros ?%N2Nat.inj. done.
Qed.

(** The entry of a gate changes only in iterations that paint it. *)
Lemma loop_entry_unchanged g l : ∀ st st',
  (g ∈ l → NeverPainted circuit twoColoring g) →
  foldM (processGate circuit twoColoring) st l = Done st' →
  gateColors st' !! N.to_nat g = gateColors st !! N.to_nat g.
Proof.
  induction l as [|g' l IH]; intros st st' Hg H; simpl in H.
  - by simplify_eq.
  - apply bind_Done in H as (st1 & H1 & H).
    rewrite (IH st1 st'); [| |done].
    + destruct (decide (g = g')) as [<-|Hne].
      * apply processGate_NeverPainted in H1; [by subst|]. apply Hg, elem_of_cons. by left.
      * by eapply processGate_other_gate.
    + intros Hin. apply Hg, elem_of_cons. by right.
Qed.

(** X9.  When the constructor completes, a gate of the circuit that is not
    in the sorting, or has no operand, or has two operands and no TwoColor,
    or has two operands and a TwoColor neither of whose parents has a
    TwoColor, carries no ThreeColor. *)
Theorem uncolored_gates_stay_empty gate_sorting st g :
  construct circuit twoColoring gate_sorting = Done st →
  g < getNumberOfGates circuit →
  g ∉ gate_sorting ∨ NeverPainted circuit twoColoring g →
  gateColors st !! N.to_nat g = Some [].
Proof.
  intros H Hg Hcase. unfold construct in H.
  apply (loop_entry_unchanged g) in H.
  - rewrite H. simpl. apply lookup_replicate. split; [done|lia].
  - intros Hin. rewrite elem_of_reverse in Hin.
    destruct Hcase as [Hn|?]; [by destruct Hn|done].
Qed.

Lemma processGate_colors_step st g st' :
  processGate circuit twoColoring st g = Done st' →
  (length (colors st') ≤ length (colors st)
     + (if decide (length (getGateOperands circuit g) = 2%nat) then 2 else 0))%nat.
Proof.
  intros H. destruct (processGate_done _ _ _ _ _ H) as (_ & _ & Hl & _).
  unfold processGate in H.
  destruct (getGateOperands circuit g) as [|a [|? [|? ?]]]; simpl; [| | |discriminate].
  - simplify_eq. lia.
  - apply processUnary_inv in H as (_ & _ & _ & -> & _). lia.
  - lia.
Qed.

Lemma loop_colors_count l : ∀ st st',
  foldM (processGate circuit twoColoring) st l = Done st' →
  (length (colors st') ≤ length (colors st)
     + 2 * length (filter (λ g, length (getGateOperands circuit g) = 2%nat) l))%nat.
Proof.
  induction l as [|g l IH]; intros st st' H; simpl in H.
  - simplify_eq. simpl. lia.
  - apply bind_Done in H as (st1 & H1 & H). apply IH in H.
    apply processGate_colors_step in H1. rewrite filter_cons.
    destruct (decide (length (getGateOperands circuit g) = 2%nat)); simpl in *; lia.
Qed.

(** X10.  The constructor creates at most two colors for each gate of the
    sorting that has exactly two operands, and none for any other gate. *)
Theorem colors_at_most_twice_binary_gates gate_sorting st :
  construct circuit twoColoring gate_sorting = Done st →
  (length (colors st)
     ≤ 2 * length (filter (λ g, length (getGateOperands circuit g) = 2%nat) gate_sorting))%nat.
Proof.
  intros H. unfold construct in H. apply loop_colors_count in H.
  rewrite filter_reverse, length_reverse in H. simpl in H. lia.
Qed.

(** X11.  When the constructor completes on a sorting without repetitions, a
    gate [g] of the circuit with the single operand [a], where [a] is not
    processed after [g], ends up with exactly the colors of [a]. *)
Theorem unary_gate_has_colors_of_operand st g a after before :
  construct circuit twoColoring (after ++ g :: before) = Done st →
  NoDup (after ++ g :: before) →
  g < getNumberOfGates circuit →
  getGateOperands circuit g = [a] → a ≠ g → a ∉ after →
  gateColors st !! N.to_nat g = gateColors st !! N.to_nat a
  ∧ is_Some (gateColors st !! N.to_nat a).
Proof.
  intros H Hnd Hg Hops Hne Ha. unfold construct in H.
  rewrite reverse_app, reverse_cons, <- app_assoc, foldM_app in H.
  apply bind_Done in H as (st0 & H0 & H). simpl in H.
  apply bind_Done in H as (st1 & H1 & H).
  apply NoDup_app in Hnd as (_ & Hdisj & Hnd). apply NoDup_cons in Hnd as [Hgb _].
  assert (g ∉ after) as Hga.
  { intros Hin. apply (Hdisj g Hin), elem_of_cons. by left. }
  pose proof (loop_entry_unchanged g _ _ _ (λ Hin, False_rect _ (Hga (proj1 (elem_of_reverse _ _) Hin))) H)
    as ->.
  pose proof (loop_entry_unchanged a _ _ _ (λ Hin, False_rect _ (Ha (proj1 (elem_of_reverse _ _) Hin))) H)
    as ->.
  assert (gateColors st0 !! N.to_nat g = Some []) as Hg0.
  { pose proof (loop_entry_unchanged g _ _ _
      (λ Hin, False_rect _ (Hgb (proj1 (elem_of_reverse _ _) Hin))) H0) as ->.
    simpl. apply lookup_replicate. split; [done|lia]. }
  unfold processGate in H1. rewrite Hops in H1.
  apply processUnary_inv in H1 as (cs & Hcs & Hgc & _). rewrite Hgc.
  rewrite list_lookup_alter_eq, Hg0.
  rewrite list_lookup_alter_ne by (intros ?%N2Nat.inj; done).
  rewrite Hcs. simpl. split; [done|by eexists].
Qed.
End UncoloredGates.

Lemma uncolored_gates_stay_empty_witness :
  gateColors example_result !! N.to_nat 3 = Some [].
Proof.
  apply (uncolored_gates_stay_empty example_circuit example_twoColoring example_sorting
           example_result 3);
    [vm_compute; reflexivity | reflexivity |].
  right. right. exists 0, 1. split; [reflexivity|]. right.
  exists 0, (TwoColor.mk 0 1 [3]). by split_and!.
Defined.

Lemma colors_at_most_twice_binary_gates_witness :
  (length (colors example_result) ≤ 2 * 4)%nat.
Proof.
  apply (colors_at_most_twice_binary_gates example_circuit example_twoColoring
           example_sorting example_result).
  vm_compute. reflexivity.
Defined.

Lemma unary_gate_has_colors_of_operand_witness :
  gateColors example_result !! N.to_nat 6 = gateColors example_result !! N.to_nat 5
  ∧ is_Some (gateColors example_result !! N.to_nat 5).
Proof.
  apply (unary_gate_has_colors_of_operand example_circuit example_twoColoring
           example_result 6 5 [7] [5; 4; 3; 2; 1; 0]).
  - vm_compute. reflexivity.
  - apply (bool_decide_unpack _). vm_compute. exact I.
  - reflexivity.
  - reflexivity.
  - discriminate.
  - intros Hin. apply elem_of_cons in Hin as [Hin|Hin]; [discriminate|].
    by apply elem_of_nil in Hin.
Defined.

(** ** Where the constructor exits *)

Lemma NoExit_Done {A} (a : A) : NoExit (Done a).
Proof. intros g. discriminate. Qed.

Lemma NoExit_bind {A B} (m : Outcome A) (f : A → Outcome B) :
  NoExit m → (∀ a, NoExit (f a)) → NoExit (m ≫= f).
Proof. intros Hm Hf g. destruct m as [a| |g']; simpl; [apply Hf|done|]. by destruct (Hm g'). Qed.

Lemma NoExit_vec_at {A} (v : list A) i : NoExit (vec_at v i).
Proof. intros g. unfold vec_at. destruct (i <? _); [destruct (v !! _)|]; discriminate. Qed.

Lemma NoExit_foldM {A B} (f : A → B → Outcome A) l :
  (∀ a x, NoExit (f a x)) → ∀ a, NoExit (foldM f a l).
Proof.
  intros Hf. induction l as [|x l IH]; intros a; simpl; [apply NoExit_Done|].
  apply NoExit_bind; [apply Hf|apply IH].
Qed.

Ltac no_exit :=
  repeat first
    [ apply NoExit_Done
    | apply NoExit_vec_at
    | assumption
    | apply NoExit_bind; [|intros]
    | match goal with
      | |- NoExit (if ?b then _ else _) => destruct b
      | |- NoExit (match ?x with (_, _) => _ end) => destruct x
      | |- NoExit (let '(_, _) := ?x in _) => destruct x
      end ].

Lemma NoExit_paintGate st g c : NoExit (paintGate st g c).
Proof. unfold paintGate. no_exit. Qed.

Lemma NoExit_paintTriple st g a b c : NoExit (paintTriple st g a b c).
Proof. rewrite paintTriple_unfold. destruct (_ !! _); apply NoExit_paintGate. Qed.

Lemma NoExit_scanParents st p1 p2 cs : NoExit (scanParents st p1 p2 cs).
Proof. induction cs as [|c cs IH]; simpl; no_exit. Qed.

Ltac no_exit_paints :=
  repeat first
    [ apply NoExit_Done
    | apply NoExit_vec_at
    | apply NoExit_paintGate
    | apply NoExit_paintTriple
    | apply NoExit_scanParents
    | progress cbv zeta
    | apply NoExit_bind; [|intros]
    | match goal with
      | |- NoExit (if ?b then _ else _) => destruct b
      | |- NoExit (match ?x with (_, _) => _ end) => destruct x
      end ].

Lemma NoExit_scanChildren st child_1 child_2 : NoExit (scanChildren st child_1 child_2).
Proof.
  unfold scanChildren. apply NoExit_bind; [apply NoExit_vec_at|]. intros cs1.
  apply NoExit_foldM. intros [[common c13] c31] first. unfold scanOuter.
  apply NoExit_bind; [apply NoExit_vec_at|]. intros cs2.
  apply NoExit_bind.
  - apply NoExit_foldM. intros [common' c13'] second. unfold scanInner. no_exit.
  - intros [common' c13']. no_exit.
Qed.

Section ExitPoint.
Variable circuit : ICircuit.
Variable twoColoring : TwoColoring.t.

Lemma NoExit_paintByPattern st g child_1 child_2 common c13 c31 :
  NoExit (paintByPattern twoColoring st g child_1 child_2 common c13 c31).
Proof.
  unfold paintByPattern, secondColor, singlePattern, pattern22, fallback. no_exit_paints.
Qed.

Lemma NoExit_processBinary st g : NoExit (processBinary twoColoring st g).
Proof.
  unfold processBinary. apply NoExit_bind; [apply NoExit_vec_at|]. intros two_color.
  destruct (two_color =? SIZE_MAX); [apply NoExit_Done|].
  apply NoExit_bind; [apply NoExit_vec_at|]. intros tc. cbv zeta.
  apply NoExit_bind; [apply NoExit_vec_at|]. intros c1.
  apply NoExit_bind; [no_exit_paints|]. intros [|]; [apply NoExit_Done|].
  apply NoExit_bind; [apply NoExit_scanChildren|]. intros [[common c13] c31].
  apply NoExit_paintByPattern.
Qed.

Lemma NoExit_processUnary st g a : NoExit (processUnary circuit st g a).
Proof.
  unfold processUnary. apply NoExit_bind; [apply NoExit_vec_at|]. intros cs.
  apply NoExit_bind.
  - apply NoExit_foldM. intros. apply NoExit_paintGate.
  - intros st1. destruct (decide _); no_exit.
Qed.

(** An iteration exits only in the check for non-binary gates. *)
Lemma processGate_Exit st g g' :
  processGate circuit twoColoring st g = Exit g' →
  g' = g ∧ (2 < length (getGateOperands circuit g))%nat.
Proof.
  unfold processGate.
  destruct (getGateOperands circuit g) as [|a [|? [|? ?]]]; intros H.
  - discriminate.
  - by apply NoExit_processUnary in H.
  - by apply NoExit_processBinary in H.
  - simplify_eq. simpl. split; [done|lia].
Qed.

Lemma processGate_Done_operands st g st' :
  processGate circuit twoColoring st g = Done st' →
  (length (getGateOperands circuit g) ≤ 2)%nat.
Proof.
  unfold processGate.
  destruct (getGateOperands circuit g) as [|a [|? [|? ?]]]; intros H; simpl; try lia.
  discriminate.
Qed.

Lemma loop_Exit l : ∀ st g,
  foldM (processGate circuit twoColoring) st l = Exit g →
  ∃ l1 l2, l = l1 ++ g :: l2
    ∧ Forall (λ g', (length (getGateOperands circuit g') ≤ 2)%nat) l1
    ∧ (2 < length (getGateOperands circuit g))%nat.
Proof.
  induction l as [|g0 l IH]; intros st g H; simpl in H; [discriminate|].
  destruct (processGate circuit twoColoring st g0) as [st1| |g1] eqn:E; simpl in H.
  - apply IH in H as (l1 & l2 & -> & Hall & Hg).
    exists (g0 :: l1), l2. split_and!; [done| |done].
    constructor; [by eapply processGate_Done_operands|done].
  - discriminate.
  - simplify_eq. apply processGate_Exit in E as [-> Hg].
    exists [], l. by split_and!.
Qed.

(** X12.  When the constructor exits, the gate it names has more than two
    operands, and every gate processed before it (the gates after it in the
    sorting) has at most two: the gate named is the first offending gate in
    processing order. *)
Theorem exit_names_first_offending_gate gate_sorting g :
  construct circuit twoColoring gate_sorting = Exit g →
  ∃ after before, gate_sorting = after ++ g :: before
    ∧ Forall (λ g', (length (getGateOperands circuit g') ≤ 2)%nat) before
    ∧ (2 < length (getGateOperands circuit g))%nat.
Proof.
  intros H. unfold construct in H. apply loop_Exit in H as (l1 & l2 & Hrev & Hall & Hg).
  exists (reverse l2), (reverse l1). split_and!; [|by rewrite reverse_Permutation|done].
  rewrite <- (reverse_involutive gate_sorting), Hrev.
  by rewrite reverse_app, reverse_cons, <- app_assoc.
Qed.
End ExitPoint.

Lemma exit_names_first_offending_gate_witness :
  ∃ after before, [3; 2; 1; 0] = after ++ 3 :: before
    ∧ Forall (λ g', (length (getGateOperands ternary_circuit g') ≤ 2)%nat) before
    ∧ (2 < length (getGateOperands ternary_circuit 3))%nat.
Proof.
  apply (exit_names_first_offending_gate ternary_circuit ternary_twoColoring [3; 2; 1; 0] 3).
  reflexivity.
Defined.

Local Open Scope Z_scope.

(** * Further properties of the database loader *)

Lemma binary_count_app g1 g2 : binary_count (g1 ++ g2) = binary_count g1 + binary_count g2.
Proof. unfold binary_count. rewrite filter_app, length_app. lia. Qed.

Lemma read_patterns_length k : ∀ database patterns database',
  read_patterns k database = (patterns, database') → length patterns = k.
Proof.
  induction k as [|k IH]; intros database patterns database' H; simpl in H.
  { by simplify_eq. }
  destruct (read_int32 database 0) as [z database1].
  destruct (read_patterns k database1) as [ps database2] eqn:E.
  simplify_eq. simpl. f_equal. by eapply IH.
Qed.

Section LoadedTables.
Variable stringToGateType : string → GateType.

(** What a completed run of the gate loop has appended, whatever the file
    holds. *)
Lemma parse_gates_shape fuel : ∀ i m database db idx db' m' database',
  parse_gates stringToGateType fuel i m database db idx = Some (db', m', database') →
  ∃ gates operations,
    gates_operands db' = alter (λ l, l ++ gates) (Z.to_nat idx) (gates_operands db)
    ∧ gates_operations db' =
        alter (λ l, l ++ operations) (Z.to_nat idx) (gates_operations db)
    ∧ OPER_number db' =
        alter (λ z, z + binary_count gates) (Z.to_nat idx) (OPER_number db)
    ∧ subcircuit_outputs db' = subcircuit_outputs db
    ∧ subcircuit_pattern_to_index db' = subcircuit_pattern_to_index db
    ∧ length operations = length gates
    ∧ Forall (λ operands, length operands = 1%nat ∨ length operands = 2%nat) gates.
Proof.
  induction fuel as [|fuel IH]; intros i m database db idx db' m' database' H;
    simpl in H; [done|].
  destruct (i <=? m)%N.
  2:{ simplify_eq. exists [], []. split_and!; try done.
      - symmetry. apply list_alter_id. intros l. apply app_nil_r.
      - symmetry. apply list_alter_id. intros l. apply app_nil_r.
      - symmetry. apply list_alter_id. intros z. unfold binary_count. simpl. lia. }
  destruct (read_string database "") as [operation database1].
  destruct (read_size_t database1 0%N) as [operand_1 database2].
  destruct (negb _).
  - destruct (read_size_t database2 0%N) as [operand_2 database3].
    apply IH in H as (gates & operations & Hg & Hop & Hoper & Hout & Hmap & Hlen & Hall).
    simpl in *. unfold push_back_at in *.
    rewrite list_alter_alter_eq in Hg. rewrite list_alter_alter_eq in Hop.
    rewrite list_alter_alter_eq in Hoper.
    exists ([operand_1; operand_2] :: gates), (stringToGateType operation :: operations).
    split_and!; try done.
    + rewrite Hg. apply list_alter_ext; [|done]. intros l _. simpl. by rewrite <- app_assoc.
    + rewrite Hop. apply list_alter_ext; [|done]. intros l _. simpl. by rewrite <- app_assoc.
    + rewrite Hoper. apply list_alter_ext; [|done]. intros z _. simpl.
      change ([operand_1; operand_2] :: gates) with ([[operand_1; operand_2]] ++ gates).
      rewrite binary_count_app. unfold binary_count at 2. simpl. lia.
    + simpl. by rewrite Hlen.
    + constructor; [by right|done].
  - apply IH in H as (gates & operations & Hg & Hop & Hoper & Hout & Hmap & Hlen & Hall).
    simpl in *. unfold push_back_at in *.
    rewrite list_alter_alter_eq in Hg. rewrite list_alter_alter_eq in Hop.
    exists ([operand_1] :: gates), (stringToGateType operation :: operations).
    split_and!; try done.
    + rewrite Hg. apply list_alter_ext; [|done]. intros l _. simpl. by rewrite <- app_assoc.
    + rewrite Hop. apply list_alter_ext; [|done]. intros l _. simpl. by rewrite <- app_assoc.
    + simpl. by rewrite Hlen.
    + constructor; [by left|done].
Qed.

Lemma read_record_DBInv fuel database db idx inputs_number db' m database' :
  0 ≤ idx → DBInv db idx →
  read_record stringToGateType fuel database db idx inputs_number
    = Some (db', m, database') →
  DBInv db' (idx + 1).
Proof.
  intros Hidx [Ho Hg Hop Hops Hmap Hgates] H. unfold read_record in H.
  destruct (read_size_t database 0%N) as [outputs_number database1].
  destruct (read_patterns _ database1) as [patterns database2] eqn:Ep.
  destruct (read_outputs _ database2 0%N) as [[cur_outputs m0] database3] eqn:Eo.
  apply read_patterns_length in Ep. apply read_outputs_max in Eo as (_ & Eo & _).
  apply parse_gates_shape in H
    as (gates & operations & Hg' & Hop' & Hoper' & Hout' & Hmap' & Hlen & Hall).
  simpl in *.
  rewrite <- Hg in Hg'. rewrite <- Hops in Hop'. rewrite <- Hop in Hoper'.
  rewrite alter_app_r_alt, Nat.sub_diag in Hg' by done.
  rewrite alter_app_r_alt, Nat.sub_diag in Hop' by done.
  rewrite alter_app_r_alt, Nat.sub_diag in Hoper' by done.
  simpl in *.
  split; rewrite ?Hout', ?Hg', ?Hop', ?Hoper', ?Hmap', ?length_app; simpl; try lia.
  - intros key i Hi. apply lookup_insert_Some in Hi as [[<- <-]|[_ Hi]].
    + split; [lia|]. exists cur_outputs. split; [|congruence].
      by rewrite lookup_app_r, Ho, Nat.sub_diag by lia.
    + destruct (Hmap _ _ Hi) as (Hr & outs & Houts & Hl). split; [lia|].
      exists outs. split; [|done]. by apply lookup_app_l_Some.
  - intros k gs Hk. apply lookup_app_Some in Hk as [Hk|[Hge Hk]].
    + destruct (Hgates _ _ Hk) as (Hs & (ops & Hops' & Hl) & Hc). split_and!; [done| |].
      * exists ops. split; [|done]. by apply lookup_app_l_Some.
      * by apply lookup_app_l_Some.
    + apply list_lookup_singleton_Some in Hk as [Hk <-].
      assert (k = length (gates_operations db)) as Hk1 by lia.
      assert (k = length (OPER_number db)) as Hk2 by lia.
      split_and!; [done| |].
      * exists operations. split; [|done]. rewrite Hk1. by apply list_lookup_middle.
      * rewrite Hk2. rewrite list_lookup_middle by done. f_equal; lia.
Qed.

Lemma read_db_loop_DBInv fuel : ∀ database db idx x db',
  0 ≤ idx → DBInv db idx →
  read_db_loop stringToGateType fuel database db idx x = Some db' →
  ∃ idx', idx ≤ idx' ∧ DBInv db' idx'.
Proof.
  induction fuel as [|fuel IH]; intros database db idx x db' Hidx Hinv H; simpl in H; [done|].
  destruct (read_size_t database x) as [inputs_number database1].
  destruct (failbit database1).
  { simplify_eq. exists idx. split; [lia|done]. }
  destruct (read_record stringToGateType fuel database1 db idx inputs_number)
    as [[[db1 m] database2]|] eqn:E; [|done].
  apply read_record_DBInv in E; [|done..].
  apply IH in H as (idx' & Hle & Hinv'); [|lia|done].
  exists idx'. split; [lia|done].
Qed.

Lemma emptyDB_DBInv : DBInv emptyDB 0.
Proof. split; done. Qed.

(** X13.  Whatever the file holds, when the loader completes its four
    vectors have the same length, and every value stored in the map is the
    index of a loaded record whose number of outputs is the length of the
    key: a lookup never yields an index outside the tables. *)
Theorem lookup_yields_loaded_record fuel file db :
  read_db stringToGateType fuel file = Some db →
  length (gates_operands db) = length (subcircuit_outputs db)
  ∧ length (OPER_number db) = length (subcircuit_outputs db)
  ∧ length (gates_operations db) = length (subcircuit_outputs db)
  ∧ ∀ key i, subcircuit_pattern_to_index db !! key = Some i →
      0 ≤ i ∧ (Z.to_nat i < length (subcircuit_outputs db))%nat
      ∧ ∃ outputs, subcircuit_outputs db !! Z.to_nat i = Some outputs
          ∧ length outputs = length key.
Proof.
  intros H. unfold read_db in H.
  apply read_db_loop_DBInv in H as (idx & Hidx & [Ho Hg Hop Hops Hmap _]);
    [|done|apply emptyDB_DBInv].
  split_and!; try congruence.
  intros key i Hi. destruct (Hmap _ _ Hi) as (Hr & Hex). split_and!; [lia|lia|done].
Qed.

(** X14.  Whatever the file holds, when the loader completes every gate
    description it stored has one or two operands and one operation, and
    [OPER_number] of a record is the number of its two-operand
    descriptions. *)
Theorem gate_descriptions_are_unary_or_binary fuel file db :
  read_db stringToGateType fuel file = Some db →
  ∀ k gates, gates_operands db !! k = Some gates →
    Forall (λ operands, length operands = 1%nat ∨ length operands = 2%nat) gates
    ∧ (∃ operations, gates_operations db !! k = Some operations
         ∧ length operations = length gates)
    ∧ OPER_number db !! k = Some (binary_count gates).
Proof.
  intros H. unfold read_db in H.
  apply read_db_loop_DBInv in H as (idx & Hidx & [_ _ _ _ _ Hgates]);
    [done|done|apply emptyDB_DBInv].
Qed.
End LoadedTables.

Lemma lookup_yields_loaded_record_witness :
  ∃ db, read_db basicGateType 20 (file_fields [record_and; record_nand_not]) = Some db
    ∧ length (gates_operands db) = length (subcircuit_outputs db)
    ∧ length (OPER_number db) = length (subcircuit_outputs db)
    ∧ length (gates_operations db) = length (subcircuit_outputs db)
    ∧ ∀ key i, subcircuit_pattern_to_index db !! key = Some i →
        0 ≤ i ∧ (Z.to_nat i < length (subcircuit_outputs db))%nat
        ∧ ∃ outputs, subcircuit_outputs db !! Z.to_nat i = Some outputs
            ∧ length outputs = length key.
Proof.
  eexists. split; [vm_compute; reflexivity|].
  apply (lookup_yields_loaded_record basicGateType 20
           (file_fields [record_and; record_nand_not])).
  vm_compute. reflexivity.
Defined.

Lemma gate_descriptions_are_unary_or_binary_witness :
  ∃ db, read_db basicGateType 20 (file_fields [record_and; record_nand_not]) = Some db
    ∧ ∀ k gates, gates_operands db !! k = Some gates →
        Forall (λ operands, length operands = 1%nat ∨ length operands = 2%nat) gates
        ∧ (∃ operations, gates_operations db !! k = Some operations
             ∧ length operations = length gates)
        ∧ OPER_number db !! k = Some (binary_count gates).
Proof.
  eexists. split; [vm_compute; reflexivity|].
  apply (gate_descriptions_are_unary_or_binary basicGateType 20
           (file_fields [record_and; record_nand_not])).
  vm_compute. reflexivity.
Defined.

(** ** Reading back a file written record by record *)

Section ReadBack.
Variable stringToGateType : string → GateType.

Lemma wf_gate_binary_count g :
  wf_gate g →
  binary_count [gate_operand_ids g]
    = if String.eqb (gate_operation g) "NOT" then 0 else 1.
Proof.
  intros [_ Hlen]. unfold binary_count. rewrite filter_cons, filter_nil.
  destruct (String.eqb _ _); rewrite Hlen; by simpl.
Qed.

Lemma parse_gates_fields_full gs : ∀ fuel i m rest db idx,
  Forall wf_gate gs → gates_closed i m gs → (m < SIZE_MAX)%N → (length gs < fuel)%nat →
  ∃ db' m',
    parse_gates stringToGateType fuel i m
      (mkStream (concat (gate_fields <$> gs) ++ rest) false) db idx
      = Some (db', m', mkStream rest false)
    ∧ gates_operands db' =
        alter (λ l, l ++ (gate_operand_ids <$> gs)) (Z.to_nat idx) (gates_operands db)
    ∧ gates_operations db' =
        alter (λ l, l ++ ((λ g, stringToGateType (gate_operation g)) <$> gs))
          (Z.to_nat idx) (gates_operations db)
    ∧ OPER_number db' =
        alter (λ z, z + binary_count (gate_operand_ids <$> gs)) (Z.to_nat idx)
          (OPER_number db)
    ∧ subcircuit_outputs db' = subcircuit_outputs db
    ∧ subcircuit_pattern_to_index db' = subcircuit_pattern_to_index db.
Proof.
  induction gs as [|g gs IH]; intros fuel i m rest db idx Hwf Hcl Hm Hfuel;
    (destruct fuel as [|fuel]; [simpl in Hfuel; lia|]); simpl in Hcl.
  { simpl. apply N.leb_gt in Hcl as ->. exists db, m. split_and!; try done.
    - symmetry. apply list_alter_id. intros l. apply app_nil_r.
    - symmetry. apply list_alter_id. intros l. apply app_nil_r.
    - symmetry. apply list_alter_id. intros z. unfold binary_count. simpl. lia. }
  destruct Hcl as [Hle Hcl]. apply Forall_cons in Hwf as [Hg Hwf].
  pose proof (wf_gate_binary_count g Hg) as Hcount. destruct Hg as [Hops Hlen].
  cbn [parse_gates]. apply N.leb_le in Hle as Hleb. rewrite Hleb.
  assert ((i + 1) mod SIZE_MOD = i + 1)%N as ->.
  { apply N.mod_small. unfold SIZE_MOD, SIZE_MAX in *. lia. }
  rewrite !fmap_cons.
  change (gate_operand_ids g :: (gate_operand_ids <$> gs))
    with ([gate_operand_ids g] ++ (gate_operand_ids <$> gs)).
  rewrite binary_count_app, Hcount.
  destruct g as [op operands]. simpl in *.
  unfold read_string. cbn [failbit tokens].
  destruct (String.eqb op "NOT") eqn:Eop; simpl in Hlen.
  - destruct operands as [|o1 [|? ?]]; simplify_eq/=.
    apply Forall_cons in Hops as [Ho1 _].
    unfold num at 1. rewrite read_size_t_field by (unfold SIZE_MAX in *; lia).
    rewrite N.max_0_r in Hcl.
    edestruct (IH fuel (i + 1)%N (N.max m o1) rest) as
      (db' & m' & -> & Hgo & Hgop & Hoper & Hout & Hmap);
      [done|done|unfold SIZE_MAX in *; lia|lia|].
    exists db', m'. simpl in *. unfold push_back_at in *.
    rewrite list_alter_alter_eq in Hgo. rewrite list_alter_alter_eq in Hgop.
    split_and!; try done.
    + rewrite Hgo. apply list_alter_ext; [|done]. intros l _. simpl. by rewrite <- app_assoc.
    + rewrite Hgop. apply list_alter_ext; [|done]. intros l _. simpl. by rewrite <- app_assoc.
  - destruct operands as [|o1 [|o2 [|? ?]]]; simplify_eq/=.
    apply Forall_cons in Hops as [Ho1 Hops]. apply Forall_cons in Hops as [Ho2 _].
    unfold num at 1. rewrite read_size_t_field by (unfold SIZE_MAX in *; lia).
    unfold num at 1. rewrite read_size_t_field by (unfold SIZE_MAX in *; lia).
    rewrite N.max_0_r, N.max_assoc in Hcl.
    edestruct (IH fuel (i + 1)%N (N.max (N.max m o1) o2) rest) as
      (db' & m' & -> & Hgo & Hgop & Hoper & Hout & Hmap);
      [done|done|unfold SIZE_MAX in *; lia|lia|].
    exists db', m'. simpl in *. unfold push_back_at in *.
    rewrite list_alter_alter_eq in Hgo. rewrite list_alter_alter_eq in Hgop.
    rewrite list_alter_alter_eq in Hoper.
    split_and!; try done.
    + rewrite Hgo. apply list_alter_ext; [|done]. intros l _. simpl. by rewrite <- app_assoc.
    + rewrite Hgop. apply list_alter_ext; [|done]. intros l _. simpl. by rewrite <- app_assoc.
    + rewrite Hoper. apply list_alter_ext; [|done]. intros z _. simpl. lia.
Qed.

Lemma read_record_fields_full r fuel rest db idx :
  wf_record r → (length (rec_gates r) < fuel)%nat →
  length (gates_operands db) = Z.to_nat idx →
  length (gates_operations db) = Z.to_nat idx →
  length (OPER_number db) = Z.to_nat idx →
  ∃ db' m',
    read_record stringToGateType fuel
      (mkStream (TNum (Z.of_nat (length (rec_outputs r)))
                   :: (TNum <$> rec_patterns r) ++ (num <$> rec_outputs r)
                   ++ concat (gate_fields <$> rec_gates r) ++ rest) false)
      db idx (rec_inputs r)
      = Some (db', m', mkStream rest false)
    ∧ subcircuit_outputs db' = subcircuit_outputs db ++ [rec_outputs r]
    ∧ gates_operands db' = gates_operands db ++ [record_operands r]
    ∧ gates_operations db' = gates_operations db ++ [record_operations stringToGateType r]
    ∧ OPER_number db' = OPER_number db ++ [binary_count (record_operands r)]
    ∧ subcircuit_pattern_to_index db' =
        <[rec_patterns r := idx]> (subcircuit_pattern_to_index db).
Proof.
  intros [Hin Hcount Hnum Hpat Hout Hgates Hclosed] Hfuel Hl1 Hl2 Hl3. unfold read_record.
  rewrite <- (nat_N_Z (length (rec_outputs r))).
  rewrite read_size_t_field by done. rewrite Nat2N.id.
  pose proof (read_patterns_fields (rec_patterns r)
    ((num <$> rec_outputs r) ++ concat (gate_fields <$> rec_gates r) ++ rest) Hpat) as Hrp.
  rewrite Hcount in Hrp. rewrite Hrp.
  rewrite read_outputs_fields by done. rewrite N.max_0_l.
  edestruct (parse_gates_fields_full (rec_gates r) fuel (rec_inputs r)
               (max_id (rec_outputs r)) rest)
    as (db' & m' & -> & Hgo & Hgop & Hoper & Hout' & Hmap); [done..| |done|].
  { clear -Hout. induction Hout as [|o outs Ho _ IH]; simpl; unfold SIZE_MAX in *; lia. }
  exists db', m'. simpl in *.
  rewrite <- Hl1 in Hgo. rewrite <- Hl2 in Hgop. rewrite <- Hl3 in Hoper.
  rewrite alter_app_r_alt, Nat.sub_diag in Hgo by done.
  rewrite alter_app_r_alt, Nat.sub_diag in Hgop by done.
  rewrite alter_app_r_alt, Nat.sub_diag in Hoper by done.
  by split_and!.
Qed.

Lemma read_db_loop_fields_full rs : ∀ fuel db idx x garbage,
  Forall wf_record rs → stops_loading garbage →
  (length (file_fields rs) + 2 ≤ fuel)%nat → 0 ≤ idx →
  length (gates_operands db) = Z.to_nat idx →
  length (gates_operations db) = Z.to_nat idx →
  length (OPER_number db) = Z.to_nat idx →
  ∃ db',
    read_db_loop stringToGateType fuel (mkStream (file_fields rs ++ garbage) false) db idx x
      = Some db'
    ∧ subcircuit_outputs db' = subcircuit_outputs db ++ (rec_outputs <$> rs)
    ∧ gates_operands db' = gates_operands db ++ (record_operands <$> rs)
    ∧ gates_operations db' =
        gates_operations db ++ (record_operations stringToGateType <$> rs)
    ∧ OPER_number db' = OPER_number db ++ ((λ r, binary_count (record_operands r)) <$> rs)
    ∧ subcircuit_pattern_to_index db' = insert_keys rs idx (subcircuit_pattern_to_index db).
Proof.
  induction rs as [|r rs IH]; intros fuel db idx x garbage Hwf Hstop Hfuel Hidx Hl1 Hl2 Hl3;
    (destruct fuel as [|fuel]; [lia|]).
  { simpl. exists db. rewrite !app_nil_r. split_and!; try done.
    unfold read_size_t. cbn [failbit tokens].
    destruct garbage as [|[z|w] rest]; simpl in *; done. }
  apply Forall_cons in Hwf as [Hr Hwf].
  pose proof (record_fields_length r Hr) as Hlen.
  unfold file_fields in *. cbn [fmap list_fmap concat] in *. rewrite length_app in Hfuel.
  cbn [read_db_loop]. unfold record_fields at 1. cbn [app]. unfold num at 1.
  rewrite read_size_t_field by apply Hr. cbn [failbit].
  rewrite <- !app_assoc.
  edestruct (read_record_fields_full r fuel (concat (record_fields <$> rs) ++ garbage) db idx)
    as (db1 & m1 & -> & Ho1 & Hg1 & Hop1 & Hoper1 & Hmap1); [done|lia|done..|].
  edestruct (IH fuel db1 (idx + 1) (rec_inputs r) garbage)
    as (db' & -> & Ho & Hg & Hop & Hoper & Hmap); [done|done|lia|lia|..].
  { rewrite Hg1, length_app. simpl. lia. }
  { rewrite Hop1, length_app. simpl. lia. }
  { rewrite Hoper1, length_app. simpl. lia. }
  exists db'. rewrite Ho, Hg, Hop, Hoper, Hmap, Ho1, Hg1, Hop1, Hoper1, Hmap1.
  rewrite <- !app_assoc. by split_and!.
Qed.

(** X15.  The loader reads back a file written record by record: its tables
    hold, in file order, the output ids, the operand lists, the converted
    operator names and the number of two-operand gates of every record.  It
    stops silently at the end of the file or at a word, not beginning with a
    digit or a sign, that stands where a number of inputs is expected;
    whatever follows that word is ignored. *)
Theorem loader_reads_back_records rs garbage fuel :
  Forall wf_record rs → stops_loading garbage →
  (length (file_fields rs) + 2 ≤ fuel)%nat →
  ∃ db,
    read_db stringToGateType fuel (file_fields rs ++ garbage) = Some db
    ∧ subcircuit_outputs db = rec_outputs <$> rs
    ∧ gates_operands db = record_operands <$> rs
    ∧ gates_operations db = record_operations stringToGateType <$> rs
    ∧ OPER_number db = (λ r, binary_count (record_operands r)) <$> rs
    ∧ subcircuit_pattern_to_index db = insert_keys rs 0 ∅.
Proof.
  intros Hwf Hstop Hfuel.
  by apply (read_db_loop_fields_full rs fuel emptyDB 0 0%N garbage).
Qed.

(** X16.  A record with one output whose id is the largest [size_t] value
    never finishes loading: the condition [i <= max_index] of the gate loop
    cannot become false, whatever follows in the file. *)
Theorem output_id_size_max_never_loads fuel pattern rest db idx inputs_number :
  INT32_MIN ≤ pattern ≤ INT32_MAX → (inputs_number ≤ SIZE_MAX)%N →
  read_record stringToGateType fuel
    (mkStream (TNum 1 :: TNum pattern :: TNum (Z.of_N SIZE_MAX) :: rest) false)
    db idx inputs_number = None.
Proof.
  intros Hp Hi. unfold read_record.
  change (TNum 1) with (TNum (Z.of_N 1)). rewrite read_size_t_field by done.
  change (N.to_nat 1) with 1%nat. cbn [read_patterns].
  rewrite read_int32_field by done.
  cbn [read_outputs]. rewrite read_size_t_field by done.
  rewrite N.max_0_l. by apply parse_gates_diverges.
Qed.
End ReadBack.

Lemma loader_reads_back_records_witness :
  ∃ db,
    read_db basicGateType 30
      (file_fields [record_and; record_nand_not] ++ [TWord "end"; TNum 5]) = Some db
    ∧ subcircuit_outputs db = rec_outputs <$> [record_and; record_nand_not]
    ∧ gates_operands db = record_operands <$> [record_and; record_nand_not]
    ∧ gates_operations db
        = record_operations basicGateType <$> [record_and; record_nand_not]
    ∧ OPER_number db
        = (λ r, binary_count (record_operands r)) <$> [record_and; record_nand_not]
    ∧ subcircuit_pattern_to_index db = insert_keys [record_and; record_nand_not] 0 ∅.
Proof.
  apply (loader_reads_back_records basicGateType [record_and; record_nand_not]
           [TWord "end"; TNum 5] 30).
  - apply Forall_cons. split; [apply record_and_wf|].
    apply Forall_singleton. apply record_nand_not_wf.
  - split; [discriminate | reflexivity].
  - vm_compute. lia.
Defined.

Lemma output_id_size_max_never_loads_witness :
  read_record basicGateType 100
    (mkStream [TNum 1; TNum 2; TNum (Z.of_N SIZE_MAX); TWord "AND"; TNum 0; TNum 1] false)
    emptyDB 0 2%N = None.
Proof.
  apply (output_id_size_max_never_loads basicGateType 100 2
           [TWord "AND"; TNum 0; TNum 1] emptyDB 0 2%N).
  - unfold INT32_MIN, INT32_MAX. lia.
  - unfold SIZE_MAX. lia.
Defined.

Local Close Scope Z_scope.

(** * Properties of the logger *)

Lemma append_assoc (a b c : string) : (a +:+ b) +:+ c = a +:+ b +:+ c.
Proof.
  induction a as [|x a IH]; [done|].
  change (String x ((a +:+ b) +:+ c) = String x (a +:+ b +:+ c)). by rewrite IH.
Qed.

Lemma LOG_OUT_unfold args : ∀ io,
  LOG_OUT args io = mkStreams (cout io +:+ written args +:+ endl) (cerr io).
Proof.
  induction args as [|t args IH]; intros io; simpl; [done|].
  rewrite IH. simpl. by rewrite !append_assoc.
Qed.

(** X17.  [LOG_OUT] appends its arguments in order and then one newline to
    [std::cout] and leaves [std::cerr] alone; [LOG_ERR] does the same with
    the two streams exchanged. *)
Theorem LOG_OUT_and_LOG_ERR_write_one_line args io :
  LOG_OUT args io = mkStreams (cout io +:+ written args +:+ endl) (cerr io)
  ∧ LOG_ERR args io = mkStreams (cout io) (cerr io +:+ written args +:+ endl).
Proof.
  split; [apply LOG_OUT_unfold|].
  revert io. induction args as [|t args IH]; intros io; simpl; [done|].
  rewrite IH. simpl. by rewrite !append_assoc.
Qed.

(** X18.  In either build, [Logger::error] (like [info] and [warning])
    writes its line to [std::cout]: the name in angle brackets, the first 24
    characters of the time in parentheses, the level, the arguments, a
    newline.  Nothing reaches [std::cerr]. *)
Theorem error_is_written_to_cout ENABLE_DEBUG_LOGGING self asctime t args io :
  let line level :=
    "<" +:+ Logger.name self +:+ ">(" +:+ String.substring 0 24 asctime +:+ ") "
      +:+ level +:+ ": " +:+ t +:+ written args +:+ endl in
  Logger.error ENABLE_DEBUG_LOGGING self asctime t args io
    = mkStreams (cout io +:+ line "ERROR") (cerr io)
  ∧ Logger.warning ENABLE_DEBUG_LOGGING self asctime t args io
    = mkStreams (cout io +:+ line "WARNING") (cerr io)
  ∧ Logger.info ENABLE_DEBUG_LOGGING self asctime t args io
    = mkStreams (cout io +:+ line "INFO") (cerr io).
Proof.
  unfold Logger.error, Logger.warning, Logger.info, Logger.enabled.
  destruct ENABLE_DEBUG_LOGGING; simpl; rewrite !LOG_OUT_unfold; simpl;
    rewrite !append_assoc; done.
Qed.

(** X19.  [Logger::debug] writes its line when the build defines
    [ENABLE_DEBUG_LOGGING] and writes nothing at all otherwise. *)
Theorem debug_writes_only_in_debug_builds ENABLE_DEBUG_LOGGING self asctime t args io :
  Logger.debug ENABLE_DEBUG_LOGGING self asctime t args io
    = if ENABLE_DEBUG_LOGGING
      then mkStreams
             (cout io +:+ "<" +:+ Logger.name self +:+ ">(" +:+ String.substring 0 24 asctime
                +:+ ") DEBUG: " +:+ t +:+ written args +:+ endl)
             (cerr io)
      else io.
Proof.
  unfold Logger.debug, Logger.enabled.
  destruct ENABLE_DEBUG_LOGGING; simpl; [|done].
  rewrite LOG_OUT_unfold. simpl. by rewrite !append_assoc.
Qed.
